(** * Stacked normalized horizontal bar chart and MSAL logger callback

    A shallow embedding of the two source files of the repository:

    - [StackedBarChartSVG] (the chart builder, written against d3 v7), and
    - [msalConfig.system.loggerOptions.loggerCallback] of [authConfig.js].

    Numbers.  JavaScript numbers are modelled as exact rationals ([Q]) plus
    [NaN]; rounding of IEEE doubles and the infinities are not modelled.  No
    modelled code path divides by zero: every division of the source (and of
    the d3 functions it calls) sits behind a test of the divisor.  The model
    and the program agree up to rounding as long as no intermediate result
    leaves the range of the finite doubles; a statement that depends on this
    says so with [Js.finite] and [Js.summable].

    Undefined.  A JavaScript value that may be [undefined] is an [option].

    Exceptions.  Code that can throw returns a [Js.result]. *)

From Stdlib Require Import List Permutation Ascii String ZArith QArith Qabs
  Bool Arith Lia Lqa.
Import ListNotations.

Local Open Scope string_scope.
Local Open Scope list_scope.
Local Open Scope Q_scope.

(* ------------------------------------------------------------------ *)
(** ** JavaScript values *)

Module Js.

(** An idealised JavaScript number. *)
Inductive num : Type :=
| Fin (q : Q)
| NaN.

(** Unary [+] applied to a number or [undefined]. *)
Definition to_num (v : option Q) : num :=
  match v with
  | Some q => Fin q
  | None => NaN
  end.

Definition isNaN (a : num) : bool :=
  match a with
  | NaN => true
  | Fin _ => false
  end.

Definition add (a b : num) : num :=
  match a, b with
  | Fin x, Fin y => Fin (x + y)
  | _, _ => NaN
  end.

Definition sub (a b : num) : num :=
  match a, b with
  | Fin x, Fin y => Fin (x - y)
  | _, _ => NaN
  end.

Definition mul (a b : num) : num :=
  match a, b with
  | Fin x, Fin y => Fin (x * y)
  | _, _ => NaN
  end.

(** [a / y] for a divisor [y] already tested to be non-zero. *)
Definition div (a : num) (y : Q) : num :=
  match a with
  | Fin x => Fin (x / y)
  | NaN => NaN
  end.

(** Truthiness of a finite number: everything but zero. *)
Definition truthy (q : Q) : bool := negb (Qeq_bool q 0).

(** [a || 0] followed by a numeric use: [NaN] and [0] are both falsy. *)
Definition or0 (a : num) : Q :=
  match a with
  | Fin x => x
  | NaN => 0
  end.

(** [a < b]; any comparison with [NaN] is false. *)
Definition lt (a b : num) : bool :=
  match a, b with
  | Fin x, Fin y => negb (Qle_bool y x)
  | _, _ => false
  end.

(** [Math.min(a, b)]. *)
Definition min (a b : num) : num :=
  match a, b with
  | Fin x, Fin y => Fin (if Qle_bool x y then x else y)
  | _, _ => NaN
  end.

(** [Math.max(a, b)] on finite numbers. *)
Definition Qmax' (x y : Q) : Q := if Qle_bool x y then y else x.

(** [Math.min(a, b)] on finite numbers. *)
Definition Qmin' (x y : Q) : Q := if Qle_bool x y then x else y.

(** [Math.abs(a)]. *)
Definition abs (a : num) : num :=
  match a with
  | Fin x => Fin (Qabs x)
  | NaN => NaN
  end.

(** Equality of numbers up to the representation of the rational. *)
Definition num_eq (a b : num) : Prop :=
  match a, b with
  | Fin x, Fin y => x == y
  | NaN, NaN => True
  | _, _ => False
  end.

(** Reduced form, to display the result of a computation. *)
Definition red (a : num) : num :=
  match a with
  | Fin x => Fin (Qred x)
  | NaN => NaN
  end.

(** [Number.MAX_VALUE], the largest finite double: (2^53 - 1) * 2^971. *)
Definition MAX_VALUE : Q := inject_Z ((2 ^ 53 - 1) * 2 ^ 971).

(** A rational within the range of the finite doubles. *)
Definition finite (q : Q) : Prop := Qabs q <= MAX_VALUE.

(** A total within half of that range: the sum of doubles that are not
    negative does not overflow while their exact sum is such a total, however
    the partial sums are rounded. *)
Definition summable (q : Q) : Prop := Qabs q <= MAX_VALUE / 2.

(** Exceptions.  [Thrown] is an exception raised by a caller-supplied
    function; [TypeError] is raised by the language itself, with a message
    of the engine's own, which is not modelled; [JsError msg] is
    [new Error(msg)], thrown by library code. *)
Inductive exn : Type :=
| TypeError
| JsError (msg : string)
| Thrown (msg : string).

Inductive result (A : Type) : Type :=
| Ok (a : A)
| Throw (e : exn).

Arguments Ok {A} a.
Arguments Throw {A} e.

Definition bind {A B : Type} (r : result A) (k : A -> result B) : result B :=
  match r with
  | Ok a => k a
  | Throw e => Throw e
  end.

(** [xs[i]] for an index that may itself be [undefined]. *)
Definition at_ {A : Type} (xs : list A) (i : option nat) : option A :=
  match i with
  | Some k => nth_error xs k
  | None => None
  end.

End Js.

Notation "x <- c1 ;; c2" := (Js.bind c1 (fun x => c2))
  (at level 61, c1 at next level, right associativity).

Import Js.

(* ------------------------------------------------------------------ *)
(** ** The d3 functions the chart builder calls

    These follow the sources of d3 v7 (d3-array, d3-shape, d3-scale); each
    definition names the function it stands for. *)

Module D3.

Section Keyed.

Variable K : Type.
Variable eqb : K -> K -> bool.

(** [set.has(x)] of an [InternSet] kept in insertion order. *)
Definition has (s : list K) (x : K) : bool := existsb (eqb x) s.

Definition intern_add (s : list K) (x : K) : list K :=
  if has s x then s else s ++ [x].

(** [new d3.InternSet(values)]: the distinct values, first seen first. *)
Definition InternSet (values : list K) : list K :=
  fold_left intern_add values [].

(** Position of a key in a domain ([index.get(d)] of an ordinal scale). *)
Fixpoint index_of (s : list K) (x : K) : option nat :=
  match s with
  | [] => None
  | k :: rest =>
      if eqb x k then Some 0%nat
      else match index_of rest x with
           | Some n => Some (S n)
           | None => None
           end
  end.

(** [map.get(k)] of an [InternMap] kept in insertion order. *)
Fixpoint get {V : Type} (m : list (K * V)) (k : K) : option V :=
  match m with
  | [] => None
  | (k', v) :: rest => if eqb k k' then Some v else get rest k
  end.

(** One step of the grouping loop of d3-array's [nest]:
    [group = groups.get(key); if (group) group.push(value);
     else groups.set(key, [value])]. *)
Fixpoint group_push {V : Type} (groups : list (K * list V)) (k : K) (v : V)
  : list (K * list V) :=
  match groups with
  | [] => [(k, [v])]
  | (k', vs) :: rest =>
      if eqb k k' then (k', vs ++ [v]) :: rest
      else (k', vs) :: group_push rest k v
  end.

Definition group {V : Type} (keyof : V -> K) (values : list V)
  : list (K * list V) :=
  fold_left (fun groups v => group_push groups (keyof v) v) values [].

(** The values with a given key, in order: what the grouping gathers
    under that key. *)
Definition selected {V : Type} (keyof : V -> K) (k : K) (values : list V)
  : list V :=
  filter (fun v => eqb (keyof v) k) values.

(** A group exists only once it has a value. *)
Definition nonempty {V : Type} (l : list V) : option (list V) :=
  match l with
  | [] => None
  | _ => Some l
  end.

End Keyed.

Arguments has {K} eqb s x.
Arguments intern_add {K} eqb s x.
Arguments InternSet {K} eqb values.
Arguments index_of {K} eqb s x.
Arguments get {K} eqb {V} m k.
Arguments group_push {K} eqb {V} groups k v.
Arguments group {K} eqb {V} keyof values.
Arguments selected {K} eqb {V} keyof k values.
Arguments nonempty {V} l.

(** [d3.map(data, f)], that is [Array.from(data, (d, i) => f(d, i, data))]:
    the first call that throws aborts the traversal. *)
Fixpoint map_from {A B : Type} (f : A -> nat -> result B) (i : nat)
  (data : list A) : result (list B) :=
  match data with
  | [] => Ok []
  | d :: rest =>
      b <- f d i ;;
      bs <- map_from f (S i) rest ;;
      Ok (b :: bs)
  end.

Definition map {A B : Type} (data : list A) (f : A -> nat -> result B)
  : result (list B) := map_from f 0 data.

(** [d3.range(n)]. *)
Definition range (n : nat) : list nat := seq 0 n.

(** [d3.rollup(values, reduce, key1, key2)] with two keys: group by [key1],
    regroup each group by [key2], reduce the leaves. *)
Definition rollup {V K1 K2 R : Type}
  (eqb1 : K1 -> K1 -> bool) (eqb2 : K2 -> K2 -> bool)
  (values : list V) (reduce : list V -> R)
  (key1 : V -> K1) (key2 : V -> K2) : list (K1 * list (K2 * R)) :=
  List.map
    (fun g => (fst g,
               List.map (fun h => (fst h, reduce (snd h)))
                 (group eqb2 key2 (snd g))))
    (group eqb1 key1 values).

(** One iteration of the loop of [d3.extent]; [NaN] is skipped because
    [value >= value], [min > value] and [max < value] are all false. *)
Definition extent_step (acc : option (Q * Q)) (value : num) : option (Q * Q) :=
  match value with
  | NaN => acc
  | Fin v =>
      match acc with
      | None => Some (v, v)
      | Some (lo, hi) =>
          Some (if negb (Qle_bool lo v) then v else lo,
                if negb (Qle_bool v hi) then v else hi)
      end
  end.

(** [d3.extent(values)]; [None] is the pair [[undefined, undefined]]. *)
Definition extent (values : list num) : option (Q * Q) :=
  fold_left extent_step values None.

(** What the loop of [d3.extent] has found after the values [seen]: nothing
    while no number has been seen, else the least and the greatest number
    seen. *)
Definition extent_inv (acc : option (Q * Q)) (seen : list num) : Prop :=
  match acc with
  | None => forall v, ~ In (Fin v) seen
  | Some (lo, hi) =>
      In (Fin lo) seen /\ In (Fin hi) seen
      /\ forall v, In (Fin v) seen -> lo <= v <= hi
  end.

(** *** d3-shape: stack, orders and offsets *)

(** A point of a stacked series: the array [[x1, x2]] with its [data]
    property (the datum it was computed from) and the [i] property the
    chart builder assigns afterwards ([None] while absent). *)
Record Seg (R : Type) : Type := mkSeg {
  x1 : num;
  x2 : num;
  data : R;
  i : option nat
}.

Arguments mkSeg {R} x1 x2 data i.
Arguments x1 {R} s.
Arguments x2 {R} s.
Arguments data {R} s.
Arguments i {R} s.

Definition set_x2 {R : Type} (p : Seg R) (v : num) : Seg R :=
  mkSeg (x1 p) v (data p) (i p).

Definition set_i {R : Type} (p : Seg R) (k : option nat) : Seg R :=
  mkSeg (x1 p) (x2 p) (data p) k.

(** [f] applied to every element together with its position. *)
Fixpoint mapi_from {A B : Type} (f : nat -> A -> B) (j : nat) (l : list A)
  : list B :=
  match l with
  | [] => []
  | a :: rest => f j a :: mapi_from f (S j) rest
  end.

Definition mapi {A B : Type} (f : nat -> A -> B) (l : list A) : list B :=
  mapi_from f 0 l.

(** [l[k] = v] on an array that has the index [k]. *)
Fixpoint update {A : Type} (k : nat) (v : A) (l : list A) : list A :=
  match l, k with
  | [], _ => []
  | _ :: rest, O => v :: rest
  | a :: rest, S k' => a :: update k' v rest
  end.

(** [d3.stackOrderNone]: the identity permutation. *)
Definition stackOrderNone {R : Type} (series : list (list (Seg R)))
  : list nat := seq 0 (List.length series).

(** The body of the inner loop of [d3.stackOffsetNone]:
    [s1[j][1] += s1[j][0] = isNaN(s0[j][1]) ? s0[j][0] : s0[j][1]]. *)
Definition none_step {R : Type} (p0 p1 : Seg R) : Seg R :=
  let base := if isNaN (x2 p0) then x1 p0 else x2 p0 in
  mkSeg base (add (x2 p1) base) (data p1) (i p1).

(** The inner loop over [j]: [d3.stack] hands the offsets series of one
    common length, so the two lists end together. *)
Fixpoint none_row {R : Type} (s0 s1 : list (Seg R)) : list (Seg R) :=
  match s0, s1 with
  | p0 :: r0, p1 :: r1 => none_step p0 p1 :: none_row r0 r1
  | _, _ => s1
  end.

(** The outer loop: [s0 = s1, s1 = series[order[i]]], then the inner loop,
    which writes into the series in place. *)
Fixpoint none_loop {R : Type} (idxs : list nat) (s0 : list (Seg R))
  (series : list (list (Seg R))) : list (list (Seg R)) :=
  match idxs with
  | [] => series
  | k :: rest =>
      let s1 := none_row s0 (nth k series []) in
      none_loop rest s1 (update k s1 series)
  end.

(** [d3.stackOffsetNone(series, order)]. *)
Definition stackOffsetNone {R : Type} (series : list (list (Seg R)))
  (order : list nat) : list (list (Seg R)) :=
  let n := List.length series in
  if (n <=? 1)%nat then series
  else
    none_loop (List.map (fun k => nth k order 0%nat) (seq 1 (n - 1)))
      (nth (nth 0 order 0%nat) series []) series.

(** [for (y = i = 0; i < n; ++i) y += series[i][j][1] || 0]. *)
Definition column_total {R : Type} (series : list (list (Seg R))) (j : nat)
  : Q :=
  fold_left
    (fun y s => y + match nth_error s j with
                    | Some p => or0 (x2 p)
                    | None => 0
                    end)
    series 0.

(** [d3.stackOffsetExpand(series, order)].  Column [j] is divided by its own
    total, which no earlier iteration has touched, so the totals are those
    of the series as passed in. *)
Definition stackOffsetExpand {R : Type} (series : list (list (Seg R)))
  (order : list nat) : list (list (Seg R)) :=
  match series with
  | [] => series
  | first :: _ =>
      let m := List.length first in
      stackOffsetNone
        (List.map
           (mapi (fun j p =>
                    let y := column_total series j in
                    if (j <? m)%nat && truthy y
                    then set_x2 p (div (x2 p) y) else p))
           series)
        order
  end.

(** *** The offsets read row by row

    With the identity order [d3.stackOffsetNone] is a scan over the series,
    and the scan treats every column on its own. *)

(** The series after the first, each stacked on the one before. *)
Fixpoint none_scan {R : Type} (s0 : list (Seg R)) (series : list (list (Seg R)))
  : list (list (Seg R)) :=
  match series with
  | [] => []
  | s1 :: rest => none_row s0 s1 :: none_scan (none_row s0 s1) rest
  end.

(** The two boundaries of a point. *)
Definition bounds {R : Type} (d : Seg R) : num * num := (x1 d, x2 d).

(** [none_step] on the two boundaries alone: the point before, and the upper
    boundary of the point to place. *)
Definition bounds_step (before : num * num) (v : num) : num * num :=
  let base := if isNaN (snd before) then fst before else snd before in
  (base, add v base).

Fixpoint row_bounds_from (before : num * num) (values : list num)
  : list (num * num) :=
  match values with
  | [] => []
  | v :: rest =>
      bounds_step before v :: row_bounds_from (bounds_step before v) rest
  end.

(** The boundaries of the points of one row, from the values stacked in it:
    the first point starts at zero. *)
Definition row_bounds (values : list num) : list (num * num) :=
  match values with
  | [] => []
  | v :: rest => (Fin 0, v) :: row_bounds_from (Fin 0, v) rest
  end.

(** The boundary the next point starts from:
    [isNaN(s0[j][1]) ? s0[j][0] : s0[j][1]]. *)
Definition carry (before : num * num) : num :=
  if isNaN (snd before) then fst before else snd before.

(** The sum of the values of a row that are numbers. *)
Definition total (values : list num) : Q :=
  fold_right (fun v acc => or0 v + acc) 0 values.

(** A value a row may stack: [NaN], or a number that is not negative. *)
Definition stackable (v : num) : Prop :=
  match v with
  | Fin q => 0 <= q
  | NaN => True
  end.

(** A back-reference and the value stacked for it: a number that is not
    negative where there is a record, [NaN] where there is none. *)
Definition backed (i : option nat) (v : num) : Prop :=
  match i with
  | Some _ => exists q, v = Fin q /\ 0 <= q
  | None => v = NaN
  end.

(** The sum, under a scale [xs], of the lengths of the points of a row that
    refer back to a record. *)
Definition cells_length (xs : num -> num)
  (cells : list (option nat * (num * num))) : num :=
  fold_right
    (fun cell acc =>
       match fst cell with
       | Some _ =>
           add (abs (sub (xs (fst (snd cell))) (xs (snd (snd cell))))) acc
       | None => acc
       end)
    (Fin 0) cells.

(** The first loop of [d3.stack]: one series per key, one point
    [[0, +value(d, key)]] per datum, with the datum as its [data]. *)
Definition stack_points {R Key : Type} (keys : list Key)
  (value : R -> Key -> option Q) (data : list R) : list (list (Seg R)) :=
  List.map
    (fun key =>
       List.map (fun d => mkSeg (Fin 0) (to_num (value d key)) d None) data)
    keys.

(** The second loop of [d3.stack]:
    [for (i = 0, oz = array(order(sz)); i < n; ++i) sz[oz[i]].index = i].
    The assignment throws a [TypeError] when [oz[i]] is not an index of
    [sz]; the [index] property itself is not used by the builder. *)
Definition stack_index (n : nat) (oz : list nat) : result unit :=
  if forallb
       (fun i =>
          match nth_error oz i with
          | Some k => (k <? n)%nat
          | None => false
          end)
       (seq 0 n)
  then Ok tt
  else Throw TypeError.

(** [d3.stack().keys(keys).value(value).order(order).offset(offset)(data)]:
    the points, the index loop, then the offset.  The result pairs every
    series with its [key] property. *)
Definition stack {R Key : Type} (keys : list Key)
  (value : R -> Key -> option Q)
  (order : list (list (Seg R)) -> list nat)
  (offset : list (list (Seg R)) -> list nat -> list (list (Seg R)))
  (data : list R) : result (list (Key * list (Seg R))) :=
  let sz := stack_points keys value data in
  let oz := order sz in
  _ <- stack_index (List.length sz) oz ;;
  Ok (combine keys (offset sz oz)).

(** What [stack] returns in a call in which its index loop does not
    throw. *)
Definition stacked {R Key : Type} (keys : list Key)
  (value : R -> Key -> option Q)
  (order : list (list (Seg R)) -> list nat)
  (offset : list (list (Seg R)) -> list nat -> list (list (Seg R)))
  (data : list R) : list (Key * list (Seg R)) :=
  let sz := stack_points keys value data in
  combine keys (offset sz (order sz)).

(** *** d3-format: the format specifier

    [formatSpecifier] matches the specifier against
    [/^(?:(.)?([<>=^]))?([+\-( ])?([$#])?(0)?(\d+)?(,)?(\.\d+)?(~)?([a-z%])?$/i]
    and throws when it does not match.  Every part of the expression is
    optional and no character can be matched by two different parts after
    the first, so that the match is decided reading from left to right.
    Only whether the specifier matches is modelled, on ASCII strings. *)

Definition one_of (cs : list ascii) (c : ascii) : bool :=
  existsb (Ascii.eqb c) cs.

Definition is_align : ascii -> bool := one_of ["<"; ">"; "="; "^"]%char.

Definition is_sign : ascii -> bool := one_of ["+"; "-"; "("; " "]%char.

Definition is_symbol : ascii -> bool := one_of ["$"; "#"]%char.

Definition is_digit (c : ascii) : bool :=
  let n := nat_of_ascii c in (48 <=? n)%nat && (n <=? 57)%nat.

(** [[a-z%]] under the flag [i]. *)
Definition is_type (c : ascii) : bool :=
  let n := nat_of_ascii c in
  ((97 <=? n)%nat && (n <=? 122)%nat) || ((65 <=? n)%nat && (n <=? 90)%nat)
  || Ascii.eqb c "%"%char.

(** [.] matches every character but a line terminator. *)
Definition is_dot (c : ascii) : bool :=
  let n := nat_of_ascii c in negb ((n =? 10)%nat || (n =? 13)%nat).

(** An optional single character of a class. *)
Definition skip (p : ascii -> bool) (s : list ascii) : list ascii :=
  match s with
  | c :: rest => if p c then rest else s
  | [] => []
  end.

Fixpoint skip_all (p : ascii -> bool) (s : list ascii) : list ascii :=
  match s with
  | c :: rest => if p c then skip_all p rest else s
  | [] => []
  end.

(** [(?:(.)?([<>=^]))?]: a fill character is taken only when the alignment
    follows it. *)
Definition skip_fill_align (s : list ascii) : list ascii :=
  match s with
  | c0 :: c1 :: rest =>
      if is_dot c0 && is_align c1 then rest else skip is_align s
  | _ => skip is_align s
  end.

(** [(\.\d+)?]: a point must be followed by a digit. *)
Definition skip_precision (s : list ascii) : option (list ascii) :=
  match s with
  | c :: rest =>
      if Ascii.eqb c "."%char
      then match rest with
           | d :: rest' =>
               if is_digit d then Some (skip_all is_digit rest') else None
           | [] => None
           end
      else Some s
  | [] => Some []
  end.

Definition format_re (specifier : string) : bool :=
  let s := skip_fill_align (list_ascii_of_string specifier) in
  let s := skip is_sign s in
  let s := skip is_symbol s in
  let s := skip (Ascii.eqb "0"%char) s in
  let s := skip_all is_digit s in
  let s := skip (Ascii.eqb ","%char) s in
  match skip_precision s with
  | None => false
  | Some s =>
      let s := skip (Ascii.eqb "~"%char) s in
      let s := skip is_type s in
      match s with
      | [] => true
      | _ :: _ => false
      end
  end.

(** [formatSpecifier(specifier)]:
    [if (!(match = re.exec(specifier)))
       throw new Error("invalid format: " + specifier)]. *)
Definition formatSpecifier (specifier : string) : result unit :=
  if format_re specifier then Ok tt
  else Throw (JsError ("invalid format: " ++ specifier)).

(** *** d3-scale *)

(** [normalize(a, b)] of d3-scale's continuous scales. *)
Definition normalize (a b : num) (x : num) : num :=
  match sub b a with
  | Fin d => if truthy d then div (sub x a) d else Fin (1 # 2)
  | NaN => NaN
  end.

(** [d3.interpolateNumber(a, b)(t)]. *)
Definition interpolateNumber (a b : Q) (t : num) : num :=
  add (mul (Fin a) (sub (Fin 1) t)) (mul (Fin b) t).

(** [d3.scaleLinear(domain, range)] applied to [x] ([bimap], no clamping).
    For a [NaN] argument the scale answers [unknown], which is [undefined];
    the builder only uses the answer in arithmetic, where [undefined] becomes
    [NaN]. *)
Definition scaleLinear (domain : num * num) (range : Q * Q) (x : num) : num :=
  let '(d0, d1) := domain in
  let '(r0, r1) := range in
  if isNaN x then NaN
  else if lt d1 d0
       then interpolateNumber r1 r0 (normalize d1 d0 x)
       else interpolateNumber r0 r1 (normalize d0 d1 x).

(** A band scale after [rescale()]. *)
Record Band (K : Type) : Type := mkBand {
  band_domain : list K;
  band_values : list Q;
  band_step : Q;
  band_bandwidth : Q
}.

Arguments mkBand {K} band_domain band_values band_step band_bandwidth.
Arguments band_domain {K} b.
Arguments band_values {K} b.
Arguments band_step {K} b.
Arguments band_bandwidth {K} b.

(** [d3.scaleBand(domain, range).paddingInner(padding)]; outer padding 0,
    alignment 0.5 and no rounding, as d3 initialises them. *)
Definition scaleBand {K : Type} (domain : list K) (range : Q * Q)
  (padding : Q) : Band K :=
  let '(r0, r1) := range in
  let paddingInner := Qmin' 1 padding in
  let n := inject_Z (Z.of_nat (List.length domain)) in
  let reverse := negb (Qle_bool r0 r1) in
  let start := if reverse then r1 else r0 in
  let stop := if reverse then r0 else r1 in
  let step := (stop - start) / Qmax' 1 (n - paddingInner + 0 * 2) in
  let start' := start + (stop - start - step * (n - paddingInner)) * (1 # 2) in
  let values :=
    List.map (fun k => start' + step * inject_Z (Z.of_nat k))
      (seq 0 (List.length domain)) in
  mkBand domain (if reverse then rev values else values) step
    (step * (1 - paddingInner)).

(** [scale(d)] of a band scale: [undefined] for a value outside the domain. *)
Definition band_apply {K : Type} (eqb : K -> K -> bool) (b : Band K)
  (d : option K) : option Q :=
  match d with
  | None => None
  | Some k => at_ (band_values b) (index_of eqb (band_domain b) k)
  end.

(** An ordinal scale: its domain grows when it is asked about a value it has
    not seen (the [implicit] unknown). *)
Record Ordinal (K V : Type) : Type := mkOrdinal {
  ord_domain : list K;
  ord_range : list V
}.

Arguments mkOrdinal {K V} ord_domain ord_range.
Arguments ord_domain {K V} o.
Arguments ord_range {K V} o.

(** [d3.scaleOrdinal(domain, range)]. *)
Definition scaleOrdinal {K V : Type} (eqb : K -> K -> bool)
  (domain : list K) (range : list V) : Ordinal K V :=
  mkOrdinal (InternSet eqb domain) range.

(** [scale(d)] of an ordinal scale: the answer and the scale afterwards.
    [range[i % range.length]] is [undefined] for an empty range. *)
Definition ordinal_apply {K V : Type} (eqb : K -> K -> bool)
  (o : Ordinal K V) (d : K) : option V * Ordinal K V :=
  let pick (k : nat) :=
    match ord_range o with
    | [] => None
    | _ => nth_error (ord_range o) (k mod List.length (ord_range o))
    end in
  match index_of eqb (ord_domain o) d with
  | Some k => (pick k, o)
  | None =>
      (pick (List.length (ord_domain o)),
       mkOrdinal (ord_domain o ++ [d]) (ord_range o))
  end.

End D3.

(* ------------------------------------------------------------------ *)
(** ** The chart builder ([StackedBarChartSVG]) *)

Module Chart.

Import D3.

(** The three overlay images, in the order of the source's array literal. *)
Definition glyphs : list string :=
  ["/images/sad-button.png";
   "/images/neutral-button.png";
   "/images/happy-button.png"].

(** [glyphs[Z[i] - 1]] for a series value that may be [undefined]: a
    negative or too large index, like [NaN], finds nothing. *)
Definition glyph_href (zv : option Z) : option string :=
  match zv with
  | Some v =>
      if (0 <=? v - 1)%Z then nth_error glyphs (Z.to_nat (v - 1)) else None
  | None => None
  end.

(** [d3.schemeTableau10]. *)
Definition schemeTableau10 : list string :=
  ["#4e79a7"; "#f28e2c"; "#e15759"; "#76b7b2"; "#59a14f";
   "#edc949"; "#af7aa1"; "#ff9da7"; "#9c755f"; "#bab0ab"].

Definition option_eqb {A : Type} (eqb : A -> A -> bool) (a b : option A)
  : bool :=
  match a, b with
  | Some u, Some v => eqb u v
  | None, None => true
  | _, _ => false
  end.

(** [m.get(k)] on a map that may itself be missing, flattened. *)
Definition join {A : Type} (v : option (option A)) : option A :=
  match v with
  | Some a => a
  | None => None
  end.

Section Builder.

(** The type of the records and the type of the category values; series
    values are integers, which is what the glyph lookup [Z[i] - 1] of the
    source is written for, and quantities are numbers. *)
Variable D : Type.
Variable Cat : Type.
Variable cat_eqb : Cat -> Cat -> bool.

(** An entry of the rollup: a category with its map from series value to
    the retained record index. *)
Definition Row : Type := (option Cat * list (option Z * option nat))%type.

Definition Series : Type := list (Seg Row).

(** The options of the builder.  An [option] field is one whose default
    the source computes from other values when it is [undefined].  The
    accessors are mandatory here: the source's defaults (the record itself,
    its index) fix the record type.  [title] is left out: the source
    computes it and never attaches it to an element. *)
Record Options : Type := mkOptions {
  x : D -> nat -> result Q;
  y : D -> nat -> result Cat;
  z : D -> nat -> result Z;
  marginTop : Q;
  marginRight : Q;
  marginBottom : Q;
  marginLeft : Q;
  width : Q;
  height : option Q;
  xType : num * num -> Q * Q -> num -> num;
  xDomain : option (num * num);
  xRange : option (Q * Q);
  yDomain : option (list Cat);
  yRange : option (Q * Q);
  yPadding : Q;
  zDomain : option (list Z);
  offset : list Series -> list nat -> list Series;
  order : list Series -> list nat;
  xFormat : string;
  xLabel : option string;
  colors : list string
}.

(** The defaults of the parameter list. *)
Definition default_options
  (x : D -> nat -> result Q) (y : D -> nat -> result Cat)
  (z : D -> nat -> result Z) : Options :=
  {| x := x; y := y; z := z;
     marginTop := 30; marginRight := 20; marginBottom := 0;
     marginLeft := 200; width := 640; height := None;
     xType := scaleLinear; xDomain := None; xRange := None;
     yDomain := None; yRange := None; yPadding := 1 # 10;
     zDomain := None;
     offset := stackOffsetExpand; order := stackOrderNone;
     xFormat := "%"; xLabel := None; colors := schemeTableau10 |}.

Section Steps.

Variable o : Options.

(** The extracted values: [X], [Y] and [Z] of the source. *)
Variable X : list Q.
Variable Y : list Cat.
Variable Z : list Z.

(** [xRange = [marginLeft, width - marginRight]] unless given. *)
Definition the_xRange : Q * Q :=
  match xRange o with
  | Some r => r
  | None => (marginLeft o, width o - marginRight o)
  end.

(** [if (yDomain === undefined) yDomain = Y;
     yDomain = new d3.InternSet(yDomain)]. *)
Definition the_yDomain : list Cat :=
  InternSet cat_eqb match yDomain o with Some d => d | None => Y end.

Definition the_zDomain : list BinNums.Z :=
  InternSet Z.eqb match zDomain o with Some d => d | None => Z end.

(** [domain.has(V[i])], false for an index outside the array. *)
Definition has_at {K : Type} (eqb : K -> K -> bool) (domain : list K)
  (v : option K) : bool :=
  match v with
  | Some k => has eqb domain k
  | None => false
  end.

(** [I]: the indices whose category and series both are in the
    domains. *)
Definition the_I : list nat :=
  filter
    (fun i => has_at cat_eqb the_yDomain (nth_error Y i)
              && has_at Z.eqb the_zDomain (nth_error Z i))
    (range (List.length X)).

(** [if (height === undefined)
       height = yDomain.size * 25 + marginTop + marginBottom]. *)
Definition the_height : Q :=
  match height o with
  | Some h => h
  | None =>
      inject_Z (Z.of_nat (List.length the_yDomain)) * 25
      + marginTop o + marginBottom o
  end.

(** [if (yRange === undefined)
       yRange = [height - marginBottom, marginTop]]. *)
Definition the_yRange : Q * Q :=
  match yRange o with
  | Some r => r
  | None => (the_height - marginBottom o, marginTop o)
  end.

(** [d3.rollup(I, ([i]) => i, i => Y[i], i => Z[i])]. *)
Definition the_rollup : list Row :=
  rollup (option_eqb cat_eqb) (option_eqb Z.eqb) the_I
    (fun group => hd_error group)
    (fun i => nth_error Y i) (fun i => nth_error Z i).

(** The lookup [I.get(z)] inside a row. *)
Definition row_get (d : Row) (key : BinNums.Z) : option nat :=
  join (get (option_eqb Z.eqb) (snd d) (Some key)).

(** [sz], the points [d3.stack] builds from the rollup, and [oz], the order
    of the series. *)
Definition the_points : list Series :=
  stack_points the_zDomain (fun d key => at_ X (row_get d key)) the_rollup.

Definition the_order : list nat := order o the_points.

(** [.map(s => s.map(d => Object.assign(d, {i: d.data[1].get(s.key)})))]:
    each point is given its [i]. *)
Definition with_i (stack : list (BinNums.Z * Series)) : list Series :=
  List.map
    (fun s =>
       List.map (fun d => set_i d (row_get (data d) (fst s))) (snd s))
    stack.

(** [series]: the stack of the rollup, each point then given its [i].
    [d3.stack] throws when the order does not return indices of the
    series. *)
Definition the_series : result (list Series) :=
  s <- stack the_zDomain (fun d key => at_ X (row_get d key))
         (order o) (offset o) the_rollup ;;
  Ok (with_i s).

(** The value of [series] in a call in which [d3.stack] has returned; the
    steps after it are reached in such a call only. *)
Definition series_of : list Series :=
  with_i
    (stacked the_zDomain (fun d key => at_ X (row_get d key))
       (order o) (offset o) the_rollup).

(** [series.flat(2)]. *)
Definition flat2 (series : list Series) : list num :=
  flat_map (flat_map (fun d => [x1 d; x2 d])) series.

(** [if (xDomain === undefined) xDomain = d3.extent(series.flat(2))];
    the scale turns an [undefined] bound into [NaN]. *)
Definition the_xDomain : num * num :=
  match xDomain o with
  | Some d => d
  | None =>
      match extent (flat2 series_of) with
      | Some (lo, hi) => (Fin lo, Fin hi)
      | None => (NaN, NaN)
      end
  end.

Definition xScale : num -> num := xType o the_xDomain the_xRange.

Definition yScale : Band Cat :=
  scaleBand the_yDomain the_yRange (yPadding o).

Definition color0 : Ordinal (option BinNums.Z) string :=
  scaleOrdinal (option_eqb Z.eqb) (List.map Some the_zDomain) (colors o).

End Steps.

(** *** The scene graph *)

(** A [rect] element: the datum bound to it and its attributes.  An
    attribute set to [undefined] is removed, hence the options. *)
Record Rect : Type := mkRect {
  rect_datum : Seg Row;
  rect_x : num;
  rect_y : option Q;
  rect_width : num;
  rect_height : Q
}.

(** An [image] element. *)
Record Image : Type := mkImage {
  image_datum : Seg Row;
  image_href : option string;
  image_x : num;
  image_y : option Q;
  image_width : num;
  image_height : Q
}.

(** A [g] element of one series: its rectangles, then its images. *)
Record Layer : Type := mkLayer {
  layer_datum : Series;
  layer_fill : option string;
  layer_rects : list Rect;
  layer_images : list Image
}.

(** The returned [svg] node.  The axes are drawn by d3 from the scales;
    only what the builder itself passes to them is recorded. *)
Record Svg : Type := mkSvg {
  svg_viewBox : Q * Q * Q * Q;
  svg_layers : list Layer;
  svg_xAxis_translate : Q * Q;
  svg_xAxis_ticks : Q * string;
  svg_xAxis_label : Q * Q * option string;
  svg_yAxis_translate : num * Q;
  svg_scales_color : Ordinal (option BinNums.Z) string
}.

Section Render.

Variable o : Options.
Variable X : list Q.
Variable Y : list Cat.
Variable Z : list BinNums.Z.

Definition rect_of (d : Seg Row) : Rect :=
  {| rect_datum := d;
     rect_x := min (xScale o X Y Z (x1 d)) (xScale o X Y Z (x2 d));
     rect_y := band_apply cat_eqb (yScale o Y) (at_ Y (i d));
     rect_width := abs (sub (xScale o X Y Z (x1 d)) (xScale o X Y Z (x2 d)));
     rect_height := band_bandwidth (yScale o Y) |}.

Definition image_of (d : Seg Row) : Image :=
  {| image_datum := d;
     image_href := glyph_href (at_ Z (i d));
     image_x := min (xScale o X Y Z (x1 d)) (xScale o X Y Z (x2 d));
     image_y := band_apply cat_eqb (yScale o Y) (at_ Y (i d));
     image_width :=
       abs (sub (xScale o X Y Z (x1 d)) (xScale o X Y Z (x2 d)));
     image_height := band_bandwidth (yScale o Y) |}.

(** [.attr('fill', ([{ i }]) => color(Z[i]))]: destructuring the first
    point of a series that has none throws. *)
Definition fill_of (c : Ordinal (option BinNums.Z) string) (s : Series)
  : result (option string * Ordinal (option BinNums.Z) string) :=
  match s with
  | [] => Throw TypeError
  | d :: _ => Ok (ordinal_apply (option_eqb Z.eqb) c (at_ Z (i d)))
  end.

(** One [g] per series, in order; the colour scale is carried along. *)
Fixpoint layers_of (c : Ordinal (option BinNums.Z) string)
  (series : list Series)
  : result (list Layer * Ordinal (option BinNums.Z) string) :=
  match series with
  | [] => Ok ([], c)
  | s :: rest =>
      f <- fill_of c s ;;
      r <- layers_of (snd f) rest ;;
      Ok ({| layer_datum := s;
             layer_fill := fst f;
             layer_rects := List.map rect_of s;
             layer_images := List.map image_of s |} :: fst r,
          snd r)
  end.

(** The drawing.  The layers are drawn from [series]; [.call(xAxis)] then
    asks the scale for its tick format, [scale.tickFormat(width / 160,
    xFormat)], which for [d3.scaleLinear] parses the specifier with
    [formatSpecifier]. *)
Definition render : result Svg :=
  series <- the_series o X Y Z ;;
  r <- layers_of (color0 o Z) series ;;
  _ <- formatSpecifier (xFormat o) ;;
  Ok {| svg_viewBox := (0, 0, width o, the_height o Y);
        svg_layers := fst r;
        svg_xAxis_translate := (0, marginTop o);
        svg_xAxis_ticks := (width o / 160, xFormat o);
        svg_xAxis_label := (width o - marginRight o, - (22), xLabel o);
        svg_yAxis_translate := (xScale o X Y Z (Fin 0), 0);
        svg_scales_color := snd r |}.

End Render.

(** The builder: extract the values, then lay out and draw. *)
Definition StackedBarChartSVG (data : list D) (o : Options) : result Svg :=
  X <- D3.map data (x o) ;;
  Y <- D3.map data (y o) ;;
  Z <- D3.map data (z o) ;;
  render o X Y Z.

End Builder.

Arguments mkOptions {D Cat}.
Arguments x {D Cat}.
Arguments y {D Cat}.
Arguments z {D Cat}.
Arguments marginTop {D Cat}.
Arguments marginRight {D Cat}.
Arguments marginBottom {D Cat}.
Arguments marginLeft {D Cat}.
Arguments width {D Cat}.
Arguments height {D Cat}.
Arguments xType {D Cat}.
Arguments xDomain {D Cat}.
Arguments xRange {D Cat}.
Arguments yDomain {D Cat}.
Arguments yRange {D Cat}.
Arguments yPadding {D Cat}.
Arguments zDomain {D Cat}.
Arguments offset {D Cat}.
Arguments order {D Cat}.
Arguments xFormat {D Cat}.
Arguments xLabel {D Cat}.
Arguments colors {D Cat}.
Arguments default_options {D Cat}.
Arguments the_xRange {D Cat}.
Arguments the_yDomain {D Cat}.
Arguments the_zDomain {D Cat}.
Arguments the_I {D Cat}.
Arguments the_height {D Cat}.
Arguments the_yRange {D Cat}.
Arguments the_rollup {D Cat}.
Arguments the_points {D Cat}.
Arguments the_order {D Cat}.
Arguments the_series {D Cat}.
Arguments series_of {D Cat}.
Arguments the_xDomain {D Cat}.
Arguments xScale {D Cat}.
Arguments yScale {D Cat}.
Arguments color0 {D Cat}.
Arguments rect_of {D Cat}.
Arguments image_of {D Cat}.
Arguments layers_of {D Cat}.
Arguments render {D Cat}.
Arguments StackedBarChartSVG {D Cat}.
Arguments row_get {Cat}.
Arguments with_i {Cat}.
Arguments flat2 {Cat}.
Arguments fill_of {Cat}.
Arguments mkRect {Cat}.
Arguments rect_datum {Cat}.
Arguments rect_x {Cat}.
Arguments rect_y {Cat}.
Arguments rect_width {Cat}.
Arguments rect_height {Cat}.
Arguments mkImage {Cat}.
Arguments image_datum {Cat}.
Arguments image_href {Cat}.
Arguments image_x {Cat}.
Arguments image_y {Cat}.
Arguments image_width {Cat}.
Arguments image_height {Cat}.
Arguments mkLayer {Cat}.
Arguments layer_datum {Cat}.
Arguments layer_fill {Cat}.
Arguments layer_rects {Cat}.
Arguments layer_images {Cat}.
Arguments mkSvg {Cat}.
Arguments svg_viewBox {Cat}.
Arguments svg_layers {Cat}.
Arguments svg_xAxis_translate {Cat}.
Arguments svg_xAxis_ticks {Cat}.
Arguments svg_xAxis_label {Cat}.
Arguments svg_yAxis_translate {Cat}.
Arguments svg_scales_color {Cat}.

(** *** Vocabulary of the statements *)

Section Vocabulary.

Variable Cat : Type.
Variable cat_eqb : Cat -> Cat -> bool.

(** Record [i] has category [c] and series value [k]. *)
Definition collides (Y : list Cat) (Z : list BinNums.Z) (c : Cat)
  (k : BinNums.Z) (i : nat) : bool :=
  option_eqb cat_eqb (nth_error Y i) (Some c)
  && option_eqb Z.eqb (nth_error Z i) (Some k).

(** An offset that moves points and leaves their [data] alone, as the
    offsets of d3 do. *)
Definition keeps_data
  (offset : list (Series Cat) -> list nat -> list (Series Cat)) : Prop :=
  forall sz oz,
    List.map (List.map data) (offset sz oz) = List.map (List.map data) sz.

(** The sum of the widths of the rectangles of row [j] that stand for a
    record, one layer after the other. *)
Definition row_length (layers : list (Layer Cat)) (j : nat) : num :=
  fold_right
    (fun l acc =>
       match nth_error (layer_rects l) j with
       | Some r =>
           match i (rect_datum r) with
           | Some _ => add (rect_width r) acc
           | None => acc
           end
       | None => acc
       end)
    (Fin 0) layers.

(** The total of the quantities retained for a row, over the series
    domain. *)
Definition row_total (X : list Q) (keys : list BinNums.Z) (row : Row Cat)
  : Q :=
  fold_left
    (fun y key => y + or0 (to_num (at_ X (row_get row key)))) keys 0.

(** The values the default offset stacks in a row, one for each key: the
    retained quantity divided by the total of the row, or the retained
    quantity itself when the total is zero; [NaN] where the row has no
    record for the key. *)
Definition row_values (X : list Q) (keys : list BinNums.Z) (row : Row Cat)
  : list num :=
  List.map
    (fun key =>
       let v := to_num (at_ X (row_get row key)) in
       if truthy (row_total X keys row)
       then div v (row_total X keys row) else v)
    keys.

(** The points [d3.stack] builds in the builder, before the offset. *)
Definition raw_point (X : list Q) (key : BinNums.Z) (row : Row Cat)
  : Seg (Row Cat) :=
  mkSeg (Fin 0) (to_num (at_ X (row_get row key))) row None.

(** The same points after the division of [d3.stackOffsetExpand]. *)
Definition expanded_point (X : list Q) (keys : list BinNums.Z)
  (key : BinNums.Z) (row : Row Cat) : Seg (Row Cat) :=
  mkSeg (Fin 0)
    (let v := to_num (at_ X (row_get row key)) in
     if truthy (row_total X keys row)
     then div v (row_total X keys row) else v)
    row None.

(** The points of a row under the default offset and order, one for each
    key: the back-reference and the two boundaries. *)
Definition row_cells (X : list Q) (keys : list BinNums.Z) (row : Row Cat)
  : list (option nat * (num * num)) :=
  combine (List.map (row_get row) keys) (row_bounds (row_values X keys row)).

(** The keys of the series in the order in which the offset places them:
    [keys[oz[0]]], [keys[oz[1]]], and so on. *)
Definition placed_keys (keys : list BinNums.Z) (oz : list nat)
  : list BinNums.Z :=
  List.map (fun k => nth k keys 0%Z) oz.

(** The values the default offset stacks in a row for the keys [placed], in
    their order; the row is totalled over [keys], the whole series
    domain. *)
Definition row_values_at (X : list Q) (keys placed : list BinNums.Z)
  (row : Row Cat) : list num :=
  List.map
    (fun key =>
       let v := to_num (at_ X (row_get row key)) in
       if truthy (row_total X keys row)
       then div v (row_total X keys row) else v)
    placed.

(** The points of a row under the default offset, in the order in which
    the offset places them. *)
Definition row_cells_at (X : list Q) (keys placed : list BinNums.Z)
  (row : Row Cat) : list (option nat * (num * num)) :=
  combine (List.map (row_get row) placed)
    (row_bounds (row_values_at X keys placed row)).

(** The first kept record of category [c] and series value [key]. *)
Definition first_of (Y : list Cat) (Z : list BinNums.Z) (I : list nat)
  (c : Cat) (key : BinNums.Z) : option nat :=
  find (collides Y Z c key) I.

(** The sum, over the series domain, of the quantity of the first kept
    record of category [c] for each series value: one record for each
    (category, series) pair. *)
Definition first_total (X : list Q) (Y : list Cat) (Z : list BinNums.Z)
  (I : list nat) (keys : list BinNums.Z) (c : Cat) : Q :=
  fold_left
    (fun y key => y + or0 (to_num (at_ X (first_of Y Z I c key)))) keys 0.

(** What a point contributes to the length of its row in [row_length]. *)
Definition cell_of (d : Seg (Row Cat)) : option nat * (num * num) :=
  (i d, bounds d).

(** The rectangles drawn for a (category, series) pair: those of the layer
    of the series whose point stands in the row of the category. *)
Definition rects_of_pair (keys : list BinNums.Z) (layers : list (Layer Cat))
  (c : Cat) (k : BinNums.Z) : list (Rect Cat) :=
  flat_map
    (fun kl =>
       if Z.eqb (fst kl) k
       then filter
              (fun r => option_eqb cat_eqb (fst (data (rect_datum r))) (Some c))
              (layer_rects (snd kl))
       else [])
    (combine keys layers).

(** [range[i % range.length]] of an ordinal scale of range [colors]. *)
Definition palette_at (colors : list string) (p : nat) : option string :=
  match colors with
  | [] => None
  | _ => nth_error colors (p mod List.length colors)
  end.

(** The colour scale while the layers are drawn: its range is the palette
    and its domain is the series domain, possibly followed by [undefined]
    (asked for by a layer whose first point has no record). *)
Definition colour_state (keys : list BinNums.Z) (colors : list string)
  (c : Ordinal (option BinNums.Z) string) : Prop :=
  ord_range c = colors
  /\ (ord_domain c = List.map Some keys
      \/ ord_domain c = List.map Some keys ++ [None]).

End Vocabulary.

Arguments collides {Cat}.
Arguments keeps_data {Cat}.
Arguments row_length {Cat}.
Arguments row_total {Cat}.
Arguments row_values {Cat}.
Arguments row_cells {Cat}.
Arguments row_values_at {Cat}.
Arguments row_cells_at {Cat}.
Arguments first_of {Cat}.
Arguments first_total {Cat}.
Arguments raw_point {Cat}.
Arguments expanded_point {Cat}.
Arguments cell_of {Cat}.
Arguments rects_of_pair {Cat}.

End Chart.

(** ** The inputs of the scenarios *)

Module Scenarios.

Import Chart D3.

Record Response : Type := mkResponse {
  cat : string;
  ser : Z;
  q : Q
}.

(** The default options with the three field accessors. *)
Definition options : Options Response string :=
  default_options (fun d _ => Ok (q d)) (fun d _ => Ok (cat d))
    (fun d _ => Ok (ser d)).

(** [{...options, yDomain}]. *)
Definition with_yDomain (o : Options Response string) (d : list string)
  : Options Response string :=
  mkOptions (x o) (y o) (z o) (marginTop o) (marginRight o) (marginBottom o)
    (marginLeft o) (width o) (height o) (xType o) (xDomain o) (xRange o)
    (Some d) (yRange o) (yPadding o) (zDomain o) (offset o) (order o)
    (xFormat o) (xLabel o) (colors o).

(** [{...options, x, y, z}]. *)
Definition with_accessors (o : Options Response string)
  (x : Response -> nat -> result Q) (y : Response -> nat -> result string)
  (z : Response -> nat -> result Z) : Options Response string :=
  mkOptions x y z (marginTop o)
    (marginRight o) (marginBottom o) (marginLeft o) (width o) (height o)
    (xType o) (xDomain o) (xRange o) (yDomain o) (yRange o) (yPadding o)
    (zDomain o) (offset o) (order o) (xFormat o) (xLabel o) (colors o).

(** [{...options, xFormat}]. *)
Definition with_xFormat (o : Options Response string) (f : string)
  : Options Response string :=
  mkOptions (x o) (y o) (z o) (marginTop o) (marginRight o) (marginBottom o)
    (marginLeft o) (width o) (height o) (xType o) (xDomain o) (xRange o)
    (yDomain o) (yRange o) (yPadding o) (zDomain o) (offset o) (order o)
    f (xLabel o) (colors o).

(** [{...options, order}]. *)
Definition with_order (o : Options Response string)
  (order : list (Series string) -> list nat) : Options Response string :=
  mkOptions (x o) (y o) (z o) (marginTop o) (marginRight o) (marginBottom o)
    (marginLeft o) (width o) (height o) (xType o) (xDomain o) (xRange o)
    (yDomain o) (yRange o) (yPadding o) (zDomain o) (offset o) order
    (xFormat o) (xLabel o) (colors o).

(** [{...options, offset}]. *)
Definition with_offset (o : Options Response string)
  (offset : list (Series string) -> list nat -> list (Series string))
  : Options Response string :=
  mkOptions (x o) (y o) (z o) (marginTop o) (marginRight o) (marginBottom o)
    (marginLeft o) (width o) (height o) (xType o) (xDomain o) (xRange o)
    (yDomain o) (yRange o) (yPadding o) (zDomain o) offset (order o)
    (xFormat o) (xLabel o) (colors o).

(** An offset of the caller's that gives every point the row
    ["B", {1 -> 1}] for its data. *)
Definition relabel (sz : list (Series string)) (oz : list nat)
  : list (Series string) :=
  List.map
    (List.map
       (fun d => mkSeg (x1 d) (x2 d) (Some "B", [(Some 1%Z, Some 1%nat)])
                   (i d)))
    sz.

(** An offset of the caller's that doubles the points of every series. *)
Definition doubled (sz : list (Series string)) (oz : list nat)
  : list (Series string) :=
  List.map (fun s => s ++ s) sz.

(** [{...options, xType}]. *)
Definition with_xType (o : Options Response string)
  (xType : num * num -> Q * Q -> num -> num) : Options Response string :=
  mkOptions (x o) (y o) (z o) (marginTop o) (marginRight o) (marginBottom o)
    (marginLeft o) (width o) (height o) xType (xDomain o) (xRange o)
    (yDomain o) (yRange o) (yPadding o) (zDomain o) (offset o) (order o)
    (xFormat o) (xLabel o) (colors o).

(** [{...options, xDomain}]. *)
Definition with_xDomain (o : Options Response string) (d : num * num)
  : Options Response string :=
  mkOptions (x o) (y o) (z o) (marginTop o) (marginRight o) (marginBottom o)
    (marginLeft o) (width o) (height o) (xType o) (Some d) (xRange o)
    (yDomain o) (yRange o) (yPadding o) (zDomain o) (offset o) (order o)
    (xFormat o) (xLabel o) (colors o).

(** An accessor that throws on every record. *)
Definition throwing {A : Type} (msg : string) (d : Response) (i : nat)
  : result A := Throw (Thrown msg).

Definition A : string := "A".
Definition B : string := "B".

Definition scenario1 : list Response :=
  [mkResponse A 1 3; mkResponse A 2 1].

Definition scenario2 : list Response :=
  [mkResponse A 1 3; mkResponse B 1 5].

Definition scenario3 : list Response :=
  [mkResponse A 1 3; mkResponse A 1 5; mkResponse A 2 1].

Definition scenario5 : list Response :=
  [mkResponse A 4 1].

(** One record, of a category outside the supplied domain [[A]]. *)
Definition outsider : list Response :=
  [mkResponse B 1 3].

(** Two records that share ("A", 1), and a record of category "B". *)
Definition shared_pair : list Response :=
  [mkResponse A 1 3; mkResponse A 1 5; mkResponse B 1 2].

(** A row with a negative quantity. *)
Definition negative : list Response :=
  [mkResponse A 1 3; mkResponse A 2 (- (1))].

(** A row without quantity. *)
Definition zero_row : list Response :=
  [mkResponse A 1 0; mkResponse A 2 0].

(** Two rows, each with one of the two series. *)
Definition sparse : list Response :=
  [mkResponse A 1 3; mkResponse B 2 1].

(** The attributes of the rectangles, layer by layer, in reduced form. *)
Definition rect_attrs (r : result (Svg string))
  : option (list (list (num * option Q * num * Q))) :=
  match r with
  | Ok svg =>
      Some (List.map
              (fun l =>
                 List.map
                   (fun r => (red (rect_x r), option_map Qred (rect_y r),
                              red (rect_width r), Qred (rect_height r)))
                   (layer_rects l))
              (svg_layers svg))
  | Throw _ => None
  end.

End Scenarios.

(* ------------------------------------------------------------------ *)
(** ** The logger callback of [authConfig.js] *)

Module AuthConfig.

(** [LogLevel] of [@azure/msal-browser]: [Error] is 0, [Trace] is 4. *)
Inductive LogLevel : Type :=
| Error
| Warning
| Info
| Verbose
| Trace.

(** The four methods of [console] the callback calls. *)
Inductive Sink : Type :=
| console_error
| console_info
| console_debug
| console_warn.

(** The console: what has been written, oldest first, with the method that
    wrote it. *)
Definition Console : Type := list (Sink * string).

Definition write (s : Sink) (message : string) (c : Console) : Console :=
  c ++ [(s, message)].

(** [loggerCallback(level, message, containsPii)].  The [switch] has no
    [default]: a level without a [case] falls through it. *)
Definition loggerCallback (level : LogLevel) (message : string)
  (containsPii : bool) (c : Console) : Console :=
  if containsPii then c
  else
    match level with
    | Error => write console_error message c
    | Info => write console_info message c
    | Verbose => write console_debug message c
    | Warning => write console_warn message c
    | Trace => c
    end.

(** What one call added to the console. *)
Definition written (level : LogLevel) (message : string) (containsPii : bool)
  : Console := loggerCallback level message containsPii [].

(** A call of the callback: level, message and flag. *)
Definition Call : Type := (LogLevel * string * bool)%type.

(** The logger of msal calls the callback once for each message it lets
    through; the console after a sequence of calls. *)
Definition log_all (calls : list Call) (c : Console) : Console :=
  fold_left
    (fun c call => loggerCallback (fst (fst call)) (snd (fst call)) (snd call) c)
    calls c.

(** The sink the [switch] selects for a level, if it has a [case] for it. *)
Definition sink_of (level : LogLevel) : option Sink :=
  match level with
  | Error => Some console_error
  | Info => Some console_info
  | Verbose => Some console_debug
  | Warning => Some console_warn
  | Trace => None
  end.

End AuthConfig.

(* ------------------------------------------------------------------ *)
(** * Properties *)

(** ** Insertion-ordered sets and maps *)

Section KeyedFacts.

Import D3.

Variable K : Type.
Variable eqb : K -> K -> bool.
Hypothesis eqb_eq : forall a b, eqb a b = true <-> a = b.

Lemma eqb_refl : forall a, eqb a a = true.
Proof. intro a. now apply eqb_eq. Qed.

Lemma eqb_neq : forall a b, eqb a b = false <-> a <> b.
Proof.
  intros a b. split.
  - intros E H. apply eqb_eq in H. congruence.
  - intro H. destruct (eqb a b) eqn:E; [ apply eqb_eq in E; contradiction | reflexivity ].
Qed.

Lemma has_In : forall s x, has eqb s x = true <-> In x s.
Proof.
  intros s x. unfold has. rewrite existsb_exists. split.
  - intros [k [Hk E]]. apply eqb_eq in E. now subst.
  - intro H. exists x. split; [ assumption | apply eqb_refl ].
Qed.

Lemma has_not_In : forall s x, has eqb s x = false <-> ~ In x s.
Proof.
  intros s x. rewrite <- has_In. destruct (has eqb s x); split; congruence.
Qed.

Lemma intern_fold : forall values acc,
    NoDup acc ->
    NoDup (fold_left (intern_add eqb) values acc)
    /\ (forall x, In x (fold_left (intern_add eqb) values acc)
                  <-> In x acc \/ In x values).
Proof.
  induction values as [| v values IH]; intros acc Hacc; simpl.
  - split; [ assumption | intro x; tauto ].
  - assert (Hnext : NoDup (intern_add eqb acc v)).
    { unfold intern_add. destruct (has eqb acc v) eqn:E; [ assumption | ].
      apply has_not_In in E.
      apply NoDup_app; [ assumption | constructor; [ intros [] | constructor ] | ].
      intros a Ha [Hb | []]. subst. contradiction. }
    destruct (IH _ Hnext) as [Hnd Hin]. split; [ assumption | ].
    intro x. rewrite Hin. unfold intern_add.
    destruct (has eqb acc v) eqn:E.
    + apply has_In in E. split; [ tauto | ].
      intros [H | [H | H]]; subst; tauto.
    + rewrite in_app_iff. simpl. tauto.
Qed.

(** An [InternSet] holds each value of its argument once. *)
Lemma InternSet_NoDup : forall values, NoDup (InternSet eqb values).
Proof. intro values. apply (intern_fold values []). constructor. Qed.

Lemma InternSet_In : forall values x,
    In x (InternSet eqb values) <-> In x values.
Proof.
  intros values x. unfold InternSet.
  destruct (intern_fold values [] (NoDup_nil K)) as [_ H].
  rewrite H. simpl. tauto.
Qed.

Lemma index_of_Some : forall s x k,
    index_of eqb s x = Some k -> nth_error s k = Some x.
Proof.
  induction s as [| a s IH]; intros x k; simpl; [ discriminate | ].
  destruct (eqb x a) eqn:E.
  - intro H. injection H as <-. apply eqb_eq in E. now subst.
  - destruct (index_of eqb s x) eqn:F; [ | discriminate ].
    intro H. injection H as <-. simpl. now apply IH.
Qed.

Lemma index_of_nth : forall s x k,
    NoDup s -> nth_error s k = Some x -> index_of eqb s x = Some k.
Proof.
  induction s as [| a s IH]; intros x k Hnd Hk.
  - destruct k; discriminate.
  - inversion Hnd as [| ? ? Ha Hs]; subst. destruct k; simpl in *.
    + injection Hk as ->. now rewrite eqb_refl.
    + destruct (eqb x a) eqn:E.
      * apply eqb_eq in E. subst. apply nth_error_In in Hk. contradiction.
      * now rewrite (IH x k Hs Hk).
Qed.

(** *** Grouping *)

Section Group.

Variable V : Type.
Variable keyof : V -> K.

Lemma get_group_push : forall (g : list (K * list V)) k v k',
    get eqb (group_push eqb g k v) k'
    = if eqb k' k
      then Some (match get eqb g k with
                 | Some vs => vs ++ [v]
                 | None => [v]
                 end)
      else get eqb g k'.
Proof.
  induction g as [| [k0 vs] g IH]; intros k v k'; simpl.
  - destruct (eqb k' k); reflexivity.
  - destruct (eqb k k0) eqn:E; simpl.
    + apply eqb_eq in E. subst k0.
      destruct (eqb k' k); reflexivity.
    + rewrite IH. destruct (eqb k' k) eqn:F.
      * apply eqb_eq in F. subst k'. now rewrite E.
      * reflexivity.
Qed.

Lemma keys_group_push : forall (g : list (K * list V)) k v,
    List.map fst (group_push eqb g k v)
    = if has eqb (List.map fst g) k
      then List.map fst g else List.map fst g ++ [k].
Proof.
  induction g as [| [k0 vs] g IH]; intros k v; simpl; [ reflexivity | ].
  destruct (eqb k k0) eqn:E; simpl; [ reflexivity | ].
  rewrite IH. fold (has eqb (List.map fst g) k).
  destruct (has eqb (List.map fst g) k); reflexivity.
Qed.

Lemma group_fold : forall values g pre,
    NoDup (List.map fst g) ->
    (forall k, get eqb g k = nonempty (selected eqb keyof k pre)) ->
    let g' :=
      fold_left (fun groups v => group_push eqb groups (keyof v) v)
        values g in
    NoDup (List.map fst g')
    /\ (forall k, get eqb g' k = nonempty (selected eqb keyof k (pre ++ values))).
Proof.
  induction values as [| v values IH]; intros g pre Hnd Hget; simpl.
  - rewrite app_nil_r. now split.
  - replace (pre ++ v :: values) with ((pre ++ [v]) ++ values)
      by (rewrite <- app_assoc; reflexivity).
    apply IH.
    + rewrite keys_group_push.
      destruct (has eqb (List.map fst g) (keyof v)) eqn:E; [ assumption | ].
      apply has_not_In in E.
      apply NoDup_app; [ assumption | constructor; [ intros [] | constructor ] | ].
      intros a Ha [Hb | []]. subst. contradiction.
    + intro k. rewrite get_group_push. unfold selected.
      rewrite filter_app. simpl.
      destruct (eqb k (keyof v)) eqn:E.
      * apply eqb_eq in E. subst k. rewrite eqb_refl.
        rewrite Hget. unfold selected.
        destruct (filter (fun v0 => eqb (keyof v0) (keyof v)) pre);
          reflexivity.
      * assert (F : eqb (keyof v) k = false).
        { apply eqb_neq. apply eqb_neq in E. congruence. }
        rewrite F, app_nil_r. apply Hget.
Qed.

Lemma group_NoDup : forall values,
    NoDup (List.map fst (group eqb keyof values)).
Proof.
  intro values. apply (group_fold values [] []); [ constructor | reflexivity ].
Qed.

Lemma group_get : forall values k,
    get eqb (group eqb keyof values) k = nonempty (selected eqb keyof k values).
Proof.
  intros values k.
  apply (group_fold values [] []); [ constructor | reflexivity ].
Qed.

Lemma get_In : forall (W : Type) (m : list (K * W)) k w,
    NoDup (List.map fst m) -> In (k, w) m -> get eqb m k = Some w.
Proof.
  induction m as [| [k0 w0] m IH]; intros k w Hnd Hin; [ destruct Hin | ].
  simpl in *. inversion Hnd as [| ? ? Hk Hm]; subst.
  destruct Hin as [H | H].
  - injection H as -> ->. now rewrite eqb_refl.
  - destruct (eqb k k0) eqn:E.
    + apply eqb_eq in E. subst. exfalso. apply Hk.
      change k0 with (fst (k0, w)). now apply in_map.
    + now apply IH.
Qed.

Lemma get_Some_In : forall (W : Type) (m : list (K * W)) k w,
    get eqb m k = Some w -> In (k, w) m.
Proof.
  induction m as [| [k0 w0] m IH]; intros k w; simpl; [ discriminate | ].
  destruct (eqb k k0) eqn:E.
  - intro H. injection H as ->. apply eqb_eq in E. subst. now left.
  - intro H. right. now apply IH.
Qed.

(** An entry of the grouping holds exactly the values of its key. *)
Lemma group_entry : forall values k vs,
    In (k, vs) (group eqb keyof values) ->
    vs = selected eqb keyof k values /\ vs <> [].
Proof.
  intros values k vs Hin.
  pose proof (get_In _ _ _ _ (group_NoDup values) Hin) as H.
  rewrite group_get in H. unfold nonempty in H.
  destruct (selected eqb keyof k values) eqn:E; [ discriminate | ].
  injection H as <-. split; [ reflexivity | discriminate ].
Qed.

Lemma get_map_snd : forall (W W' : Type) (f : W -> W') (m : list (K * W)) k,
    get eqb (List.map (fun h => (fst h, f (snd h))) m) k
    = option_map f (get eqb m k).
Proof.
  induction m as [| [k0 w0] m IH]; intro k; simpl; [ reflexivity | ].
  destruct (eqb k k0); [ reflexivity | apply IH ].
Qed.

End Group.

End KeyedFacts.

(* ------------------------------------------------------------------ *)
(** ** The logger callback *)

Module AuthConfigFacts.

Import AuthConfig.

(** A call only ever appends to the console. *)
Lemma loggerCallback_appends : forall level message containsPii c,
    loggerCallback level message containsPii c
    = c ++ written level message containsPii.
Proof.
  intros level message [|] c; unfold written, loggerCallback, write.
  - now rewrite app_nil_r.
  - destruct level; simpl; try reflexivity. now rewrite app_nil_r.
Qed.

(** C8, as stated, fails: an unflagged message is not always written to a
    sink.  A [Trace] message reaches none. *)
Lemma loggerCallback_not_always_routed :
  ~ (forall level message,
        exists s, written level message false = [(s, message)]).
Proof.
  intro H. destruct (H Trace "token acquired") as [s Hs]. discriminate Hs.
Qed.

(** C8 (amended).  A message flagged as containing sensitive data is written
    nowhere, whatever its level.  An unflagged message of level [Error],
    [Info], [Verbose] or [Warning] is written once, to [console.error],
    [console.info], [console.debug] or [console.warn] respectively, and to no
    other sink; an unflagged message of the remaining level, [Trace], is
    written nowhere. *)
Theorem loggerCallback_routing : forall level message,
    written level message true = []
    /\ written level message false
       = match level with
         | Error => [(console_error, message)]
         | Info => [(console_info, message)]
         | Verbose => [(console_debug, message)]
         | Warning => [(console_warn, message)]
         | Trace => []
         end.
Proof.
  intros level message. split; [ reflexivity | ].
  destruct level; reflexivity.
Qed.

End AuthConfigFacts.

(* ------------------------------------------------------------------ *)
(** ** The chart builder *)

Module ChartFacts.

Import D3 Chart.

Lemma option_eqb_eq : forall (A : Type) (eqb : A -> A -> bool),
    (forall a b, eqb a b = true <-> a = b) ->
    forall a b, option_eqb eqb a b = true <-> a = b.
Proof.
  intros A eqb H [a |] [b |]; simpl; try (split; congruence).
  rewrite H. split; congruence.
Qed.

Lemma map_from_length : forall (A B : Type) (f : A -> nat -> result B) ds k l,
    map_from f k ds = Ok l -> List.length l = List.length ds.
Proof.
  intros A B f ds. induction ds as [| d ds IH]; intros k l; simpl.
  - intro H. now injection H as <-.
  - destruct (f d k); simpl; [ | discriminate ].
    destruct (map_from f (S k) ds) eqn:E; simpl; [ | discriminate ].
    intro H. injection H as <-. simpl. f_equal. eapply IH, E.
Qed.

(** The first accessor call that throws ends the traversal with its
    exception. *)
Lemma map_from_throw : forall (A B : Type) (f : A -> nat -> result B) ds k pre d post e,
    ds = pre ++ d :: post ->
    (forall j a, nth_error pre j = Some a -> exists b, f a (k + j)%nat = Ok b) ->
    f d (k + List.length pre)%nat = Throw e ->
    map_from f k ds = (Throw e : result (list B)).
Proof.
  intros A B f ds k pre. revert ds k.
  induction pre as [| a pre IH]; intros ds k d post e -> Hpre Hd; simpl.
  - rewrite Nat.add_0_r in Hd. simpl in Hd. now rewrite Hd.
  - destruct (Hpre 0%nat a eq_refl) as [b Hb]. rewrite Nat.add_0_r in Hb.
    rewrite Hb. simpl.
    rewrite (IH (pre ++ d :: post) (S k) d post e eq_refl); [ reflexivity | | ].
    + intros j a' Hj. destruct (Hpre (S j) a' Hj) as [b' Hb'].
      exists b'. now rewrite Nat.add_succ_comm.
    + simpl in Hd. now rewrite Nat.add_succ_comm.
Qed.

(** *** The offsets of d3 keep the data of the points *)

Lemma none_row_data : forall (R : Type) (s0 s1 : list (Seg R)),
    List.map data (none_row s0 s1) = List.map data s1.
Proof.
  intros R s0. induction s0 as [| p0 s0 IH]; intros [| p1 s1]; simpl;
    try reflexivity.
  now rewrite IH.
Qed.

Lemma update_data : forall (R : Type) k (v : list (Seg R)) sz,
    List.map data v = List.map data (nth k sz []) ->
    List.map (List.map data) (update k v sz) = List.map (List.map data) sz.
Proof.
  intros R k v sz. revert k. induction sz as [| s sz IH]; intros k Hv;
    [ destruct k; reflexivity | ].
  destruct k; simpl in *.
  - now rewrite Hv.
  - now rewrite IH.
Qed.

Lemma none_loop_data : forall (R : Type) idxs (s0 : list (Seg R)) sz,
    List.map (List.map data) (none_loop idxs s0 sz)
    = List.map (List.map data) sz.
Proof.
  intros R idxs. induction idxs as [| k idxs IH]; intros s0 sz; simpl;
    [ reflexivity | ].
  rewrite IH. apply update_data, none_row_data.
Qed.

Lemma stackOffsetNone_data : forall (R : Type) (sz : list (list (Seg R))) oz,
    List.map (List.map data) (stackOffsetNone sz oz)
    = List.map (List.map data) sz.
Proof.
  intros R sz oz. unfold stackOffsetNone.
  destruct (List.length sz <=? 1)%nat; [ reflexivity | apply none_loop_data ].
Qed.

Lemma mapi_from_data : forall (R : Type) (f : nat -> Seg R -> Seg R) l j,
    (forall k p, data (f k p) = data p) ->
    List.map data (mapi_from f j l) = List.map data l.
Proof.
  intros R f l. induction l as [| p l IH]; intros j Hf; simpl;
    [ reflexivity | ].
  now rewrite Hf, IH.
Qed.

Lemma stackOffsetExpand_data : forall (R : Type) (sz : list (list (Seg R))) oz,
    List.map (List.map data) (stackOffsetExpand sz oz)
    = List.map (List.map data) sz.
Proof.
  intros R sz oz. unfold stackOffsetExpand.
  destruct sz as [| first rest]; [ reflexivity | ].
  rewrite stackOffsetNone_data, map_map. apply map_ext. intro s.
  apply mapi_from_data. intros k p.
  destruct (_ && _); reflexivity.
Qed.

(** *** The default offset, row by row *)

Lemma update_app : forall (A : Type) (pre : list A) s rest v,
    update (List.length pre) v (pre ++ s :: rest) = pre ++ v :: rest.
Proof.
  intros A pre. induction pre as [| a pre IH]; intros s rest v; simpl;
    [ reflexivity | now rewrite IH ].
Qed.

Lemma nth_app_exact : forall (A : Type) (pre : list A) s rest dflt,
    nth (List.length pre) (pre ++ s :: rest) dflt = s.
Proof.
  intros A pre. induction pre as [| a pre IH]; intros s rest dflt; simpl;
    [ reflexivity | apply IH ].
Qed.

Lemma none_loop_scan : forall (R : Type) (post pre : list (list (Seg R))) s0,
    none_loop (seq (List.length pre) (List.length post)) s0 (pre ++ post)
    = pre ++ none_scan s0 post.
Proof.
  intros R post. induction post as [| s1 post IH]; intros pre s0; simpl;
    [ reflexivity | ].
  rewrite nth_app_exact, update_app.
  replace (pre ++ none_row s0 s1 :: post)
    with ((pre ++ [none_row s0 s1]) ++ post)
    by (rewrite <- app_assoc; reflexivity).
  replace (S (List.length pre)) with (List.length (pre ++ [none_row s0 s1]))
    by (rewrite length_app; simpl; lia).
  rewrite IH, <- app_assoc. reflexivity.
Qed.

Lemma identity_order : forall n,
    List.map (fun k => nth k (seq 0 n) 0%nat) (seq 1 (n - 1)) = seq 1 (n - 1).
Proof.
  intro n. rewrite <- (map_id (seq 1 (n - 1))) at 2.
  apply map_ext_in. intros k Hk. apply in_seq in Hk.
  rewrite seq_nth; lia.
Qed.

(** With the identity order [d3.stackOffsetNone] leaves the first series and
    stacks each other series on the one before. *)
Lemma stackOffsetNone_scan : forall (R : Type) (series : list (list (Seg R))),
    stackOffsetNone series (seq 0 (List.length series))
    = match series with
      | [] => []
      | s :: rest => s :: none_scan s rest
      end.
Proof.
  intros R series. unfold stackOffsetNone.
  destruct series as [| s [| s' rest]]; try reflexivity.
  replace (List.length (s :: s' :: rest) <=? 1)%nat with false by reflexivity.
  rewrite identity_order.
  replace (nth (nth 0 (seq 0 (List.length (s :: s' :: rest))) 0%nat)
             (s :: s' :: rest) [])
    with s by reflexivity.
  apply (none_loop_scan R (s' :: rest) [s] s).
Qed.

Lemma nth_error_none_row : forall (R : Type) (s0 s1 : list (Seg R)) j p0 p1,
    nth_error s0 j = Some p0 ->
    nth_error s1 j = Some p1 ->
    nth_error (none_row s0 s1) j = Some (none_step p0 p1).
Proof.
  intros R s0. induction s0 as [| a s0 IH]; intros s1 j p0 p1 H0 H1.
  - destruct j; discriminate.
  - destruct s1 as [| b s1]; [ destruct j; discriminate | ].
    destruct j; simpl in *.
    + injection H0 as ->. injection H1 as ->. reflexivity.
    + now apply IH.
Qed.

Lemma bounds_none_step : forall (R : Type) (p0 p1 : Seg R),
    bounds (none_step p0 p1) = bounds_step (bounds p0) (x2 p1).
Proof. reflexivity. Qed.

(** Column [j] of the scanned series, from column [j] of the series. *)
Lemma none_scan_column : forall (R : Type) (rest : list (list (Seg R))) s0 j p0 ps,
    nth_error s0 j = Some p0 ->
    List.map (fun s => nth_error s j) rest = List.map Some ps ->
    exists qs,
      List.map (fun s => nth_error s j) (none_scan s0 rest) = List.map Some qs
      /\ List.map data qs = List.map data ps
      /\ List.map i qs = List.map i ps
      /\ List.map bounds qs = row_bounds_from (bounds p0) (List.map x2 ps).
Proof.
  intros R rest. induction rest as [| s1 rest IH]; intros s0 j p0 ps H0 Hps.
  - destruct ps; [ | discriminate ]. exists []. now repeat split.
  - destruct ps as [| p1 ps]; [ discriminate | ].
    simpl in Hps. injection Hps as H1 Hrest.
    pose proof (nth_error_none_row R s0 s1 j p0 p1 H0 H1) as Hstep.
    destruct (IH (none_row s0 s1) j (none_step p0 p1) ps Hstep Hrest)
      as [qs [Hq [Hd [Hi Hb]]]].
    exists (none_step p0 p1 :: qs). simpl.
    rewrite Hstep, Hq, Hd, Hi, Hb. now repeat split.
Qed.

Lemma stackOffsetExpand_cons : forall (R : Type) (series : list (list (Seg R)))
    first rest oz,
    series = first :: rest ->
    stackOffsetExpand series oz
    = stackOffsetNone
        (List.map
           (mapi (fun j p =>
                    let y := column_total series j in
                    if (j <? List.length first)%nat && truthy y
                    then set_x2 p (div (x2 p) y) else p))
           series)
        oz.
Proof. intros R series first rest oz ->. reflexivity. Qed.

(** *** [d3.extent] and the linear scale *)

Lemma Qle_bool_false : forall x y, Qle_bool x y = false -> y < x.
Proof.
  intros x y H. destruct (Qlt_le_dec y x) as [Hlt | Hle]; [ assumption | ].
  apply Qle_bool_iff in Hle. congruence.
Qed.

Lemma extent_step_inv : forall acc seen value,
    extent_inv acc seen -> extent_inv (extent_step acc value) (seen ++ [value]).
Proof.
  intros acc seen value H. destruct value as [v |]; simpl.
  - destruct acc as [[lo hi] |]; simpl in *.
    + destruct H as [Hlo [Hhi Hall]].
      destruct (Qle_bool lo v) eqn:E1; destruct (Qle_bool v hi) eqn:E2; simpl;
        try apply Qle_bool_iff in E1; try apply Qle_bool_iff in E2;
        try apply Qle_bool_false in E1; try apply Qle_bool_false in E2;
        (split; [ apply in_or_app; (now left) || (right; now left) | ]);
        (split; [ apply in_or_app; (now left) || (right; now left) | ]);
        intros u Hu; apply in_app_or in Hu;
        (destruct Hu as [Hu | [Hu | []]];
         [ specialize (Hall u Hu) | injection Hu as <- ]); lra.
    + split; [ apply in_or_app; right; now left | ].
      split; [ apply in_or_app; right; now left | ].
      intros u Hu. apply in_app_or in Hu.
      destruct Hu as [Hu | [Hu | []]]; [ now apply H in Hu | ].
      injection Hu as <-. lra.
  - destruct acc as [[lo hi] |]; simpl in *.
    + destruct H as [Hlo [Hhi Hall]].
      split; [ apply in_or_app; now left | ].
      split; [ apply in_or_app; now left | ].
      intros u Hu. apply in_app_or in Hu.
      destruct Hu as [Hu | [Hu | []]]; [ now apply Hall | discriminate ].
    + intros u Hu. apply in_app_or in Hu.
      destruct Hu as [Hu | [Hu | []]]; [ now apply H in Hu | discriminate ].
Qed.

Lemma extent_fold_inv : forall values acc seen,
    extent_inv acc seen ->
    extent_inv (fold_left extent_step values acc) (seen ++ values).
Proof.
  induction values as [| value values IH]; intros acc seen H; simpl.
  - now rewrite app_nil_r.
  - replace (seen ++ value :: values) with ((seen ++ [value]) ++ values)
      by (rewrite <- app_assoc; reflexivity).
    apply IH, extent_step_inv, H.
Qed.

(** [d3.extent] returns the least and the greatest of the numbers. *)
Lemma extent_spec : forall values, extent_inv (extent values) values.
Proof.
  intro values. apply (extent_fold_inv values None []). intros v [].
Qed.

(** The extent of numbers that fill an interval up to its two ends. *)
Lemma extent_interval : forall values a b u v,
    (forall w, In (Fin w) values -> a <= w <= b) ->
    In (Fin u) values -> u == a ->
    In (Fin v) values -> v == b ->
    exists lo hi, extent values = Some (lo, hi) /\ lo == a /\ hi == b.
Proof.
  intros values a b u v Hall Hu Hua Hv Hvb.
  pose proof (extent_spec values) as H.
  destruct (extent values) as [[lo hi] |]; simpl in H.
  - destruct H as [Hlo [Hhi Hbetween]].
    exists lo, hi. split; [ reflexivity | ].
    pose proof (Hall lo Hlo). pose proof (Hall hi Hhi).
    pose proof (Hbetween u Hu). pose proof (Hbetween v Hv).
    split; lra.
  - exfalso. exact (H u Hu).
Qed.

(** The linear scale over a domain equal to [0, 1] maps a number by linear
    interpolation between the two ends of the range. *)
Lemma scaleLinear_unit : forall lo hi r0 r1 v,
    lo == 0 -> hi == 1 ->
    exists p,
      scaleLinear (Fin lo, Fin hi) (r0, r1) (Fin v) = Fin p
      /\ p == r0 + (r1 - r0) * v.
Proof.
  intros lo hi r0 r1 v Hlo Hhi. unfold scaleLinear. cbn [isNaN lt].
  replace (Qle_bool lo hi) with true
    by (symmetry; apply Qle_bool_iff; lra).
  cbn [negb]. unfold normalize. cbn [sub].
  assert (Hd : truthy (hi - lo) = true).
  { unfold truthy. destruct (Qeq_bool (hi - lo) 0) eqn:E; [ | reflexivity ].
    apply Qeq_bool_iff in E. lra. }
  rewrite Hd. unfold interpolateNumber. cbn [div sub mul add].
  eexists. split; [ reflexivity | ].
  assert (Ht : (v - lo) / (hi - lo) == v).
  { setoid_replace (hi - lo) with 1 by lra.
    setoid_replace (v - lo) with v by lra. field. }
  rewrite Ht. ring.
Qed.

(** *** The boundaries of a row *)

Lemma total_nonneg : forall values,
    Forall stackable values -> 0 <= total values.
Proof.
  intros values H. induction H as [| v values Hv _ IH]; simpl; [ lra | ].
  destruct v as [q |]; simpl in *; lra.
Qed.

Lemma bounds_step_carry : forall before v,
    bounds_step before v = (carry before, add v (carry before)).
Proof. reflexivity. Qed.

Lemma carry_first : forall v, carry (Fin 0, v) = Fin (or0 v).
Proof. intros [q |]; reflexivity. Qed.

(** Every boundary of the points placed after a point of carry [c] lies
    between [c] and [c] plus the total of the values placed. *)
Lemma row_bounds_from_in : forall values before c,
    carry before = Fin c ->
    Forall stackable values ->
    forall ab u,
      In ab (row_bounds_from before values) ->
      fst ab = Fin u \/ snd ab = Fin u ->
      c <= u <= c + total values.
Proof.
  induction values as [| v values IH]; intros before c Hc Hvs ab u Hin Hu;
    [ destruct Hin | ].
  inversion Hvs as [| ? ? Hv Hrest]; subst.
  pose proof (total_nonneg values Hrest) as Hpos.
  simpl in Hin. rewrite bounds_step_carry, Hc in Hin.
  destruct v as [q |]; simpl in Hv, Hin |- *.
  - destruct Hin as [<- | Hin].
    + destruct Hu as [Hu | Hu]; simpl in Hu; injection Hu as <-; lra.
    + assert (H : q + c <= u <= q + c + total values)
        by (apply (IH (Fin c, Fin (q + c)) (q + c) eq_refl Hrest ab u Hin Hu)).
      lra.
  - destruct Hin as [<- | Hin].
    + destruct Hu as [Hu | Hu]; simpl in Hu; [ injection Hu as <- | discriminate ].
      lra.
    + assert (H : c <= u <= c + total values)
        by (apply (IH (Fin c, NaN) c eq_refl Hrest ab u Hin Hu)).
      lra.
Qed.

Lemma last_cons : forall (A : Type) (l : list A) a d,
    last (a :: l) d = last l a.
Proof.
  intros A l. induction l as [| b l IH]; intros a d; [ reflexivity | ].
  change (last (a :: b :: l) d) with (last (b :: l) d).
  now rewrite (IH b d), (IH b a).
Qed.

(** The carry of the last point placed is [c] plus the total. *)
Lemma row_bounds_from_last : forall values before c,
    carry before = Fin c ->
    exists c',
      carry (last (row_bounds_from before values) before) = Fin c'
      /\ c' == c + total values.
Proof.
  induction values as [| v values IH]; intros before c Hc.
  - exists c. split; [ exact Hc | simpl; lra ].
  - cbn [row_bounds_from]. rewrite bounds_step_carry, Hc.
    destruct v as [q |].
    + destruct (IH (Fin c, add (Fin q) (Fin c)) (q + c) eq_refl) as [c' [H1 H2]].
      exists c'. split.
      * rewrite last_cons. exact H1.
      * simpl. lra.
    + destruct (IH (Fin c, add NaN (Fin c)) c eq_refl) as [c' [H1 H2]].
      exists c'. split.
      * rewrite last_cons. exact H1.
      * simpl. lra.
Qed.

Lemma row_bounds_in : forall values ab u,
    Forall stackable values ->
    In ab (row_bounds values) ->
    fst ab = Fin u \/ snd ab = Fin u ->
    0 <= u <= total values.
Proof.
  intros values ab u Hvs Hin Hu.
  destruct values as [| v values]; [ destruct Hin | ].
  inversion Hvs as [| ? ? Hv Hrest]; subst.
  pose proof (total_nonneg values Hrest) as Hpos.
  simpl in Hin. destruct Hin as [<- | Hin].
  - destruct Hu as [Hu | Hu]; simpl in Hu.
    + injection Hu as <-. destruct v; simpl in *; lra.
    + subst v. simpl in *. lra.
  - pose proof (row_bounds_from_in values (Fin 0, v) (or0 v) (carry_first v)
                  Hrest ab u Hin Hu) as H.
    destruct v; simpl in *; lra.
Qed.

Lemma last_In : forall (A : Type) (l : list A) d, l <> [] -> In (last l d) l.
Proof.
  intros A l d. induction l as [| a l IH]; intro H; [ contradiction | ].
  destruct l as [| b l]; [ now left | ].
  right. apply IH. discriminate.
Qed.

(** A row that stacks something starts at zero and ends at its total. *)
Lemma row_bounds_ends : forall values,
    values <> [] ->
    (exists ab, In ab (row_bounds values) /\ fst ab = Fin 0)
    /\ (exists ab u,
           In ab (row_bounds values)
           /\ (fst ab = Fin u \/ snd ab = Fin u) /\ u == total values).
Proof.
  intros [| v values] Hne; [ contradiction | ]. split.
  - exists (Fin 0, v). split; [ now left | reflexivity ].
  - destruct (row_bounds_from_last values (Fin 0, v) (or0 v) (carry_first v))
      as [c' [Hc' Heq]].
    exists (last (row_bounds_from (Fin 0, v) values) (Fin 0, v)), c'.
    split; [ | split ].
    + simpl. destruct (row_bounds_from (Fin 0, v) values) as [| ab l] eqn:E;
        [ now left | ].
      right. apply last_In. discriminate.
    + unfold carry in Hc'.
      destruct (isNaN (snd (last (row_bounds_from (Fin 0, v) values) (Fin 0, v))));
        [ now left | now right ].
    + simpl. exact Heq.
Qed.

(** *** The length of a row under a linear scale *)

Section RowLength.

Variable xs : num -> num.
Variable r0 K : Q.
Hypothesis xs_linear :
  forall v, exists p, xs (Fin v) = Fin p /\ p == r0 + K * v.

Lemma cell_width : forall a b,
    a <= b ->
    exists w,
      abs (sub (xs (Fin a)) (xs (Fin b))) = Fin w /\ w == Qabs K * (b - a).
Proof.
  intros a b Hab.
  destruct (xs_linear a) as [pa [-> Hpa]].
  destruct (xs_linear b) as [pb [-> Hpb]].
  cbn [sub abs]. eexists. split; [ reflexivity | ].
  setoid_replace (pa - pb) with (K * (a - b)) by (rewrite Hpa, Hpb; ring).
  rewrite Qabs_Qmult.
  setoid_replace (Qabs (a - b)) with (b - a); [ reflexivity | ].
  rewrite Qabs_neg; lra.
Qed.

Lemma cells_from_length : forall refs vs before c,
    carry before = Fin c ->
    Forall2 backed refs vs ->
    exists w,
      cells_length xs (combine refs (row_bounds_from before vs)) = Fin w
      /\ w == Qabs K * total vs.
Proof.
  intros refs vs before c Hc H. revert before c Hc.
  induction H as [| i v refs vs Hiv _ IH]; intros before c Hc.
  - exists 0. split; [ reflexivity | simpl; ring ].
  - cbn [row_bounds_from combine]. rewrite bounds_step_carry, Hc.
    destruct i as [i0 |]; simpl in Hiv.
    + destruct Hiv as [q [-> Hq]].
      destruct (IH (Fin c, add (Fin q) (Fin c)) (q + c) eq_refl) as [w [Hw Hw']].
      destruct (cell_width c (q + c)) as [w0 [Hw0 Hw0']]; [ lra | ].
      unfold cells_length in *. cbn [fold_right fst snd add].
      cbn [add] in Hw. rewrite Hw, Hw0. cbn [add].
      eexists. split; [ reflexivity | ]. simpl total. rewrite Hw0', Hw'. ring.
    + subst v.
      destruct (IH (Fin c, add NaN (Fin c)) c eq_refl) as [w [Hw Hw']].
      unfold cells_length in *. cbn [fold_right fst].
      exists w. split; [ exact Hw | ]. simpl total. rewrite Hw'. ring.
Qed.

(** The points of a row that refer back to a record have lengths that sum
    to the total of the row, scaled. *)
Lemma cells_row_length : forall refs vs,
    Forall2 backed refs vs ->
    exists w,
      cells_length xs (combine refs (row_bounds vs)) = Fin w
      /\ w == Qabs K * total vs.
Proof.
  intros refs vs H. destruct H as [| i v refs vs Hiv Hrest].
  - exists 0. split; [ reflexivity | simpl; ring ].
  - cbn [row_bounds combine].
    destruct (cells_from_length refs vs (Fin 0, v) (or0 v) (carry_first v) Hrest)
      as [w [Hw Hw']].
    destruct i as [i0 |]; simpl in Hiv.
    + destruct Hiv as [q [-> Hq]].
      destruct (cell_width 0 q Hq) as [w0 [Hw0 Hw0']].
      unfold cells_length in *. cbn [fold_right fst snd].
      rewrite Hw, Hw0. cbn [add].
      eexists. split; [ reflexivity | ]. simpl total. rewrite Hw0', Hw'. ring.
    + subst v. unfold cells_length in *. cbn [fold_right fst].
      exists w. split; [ exact Hw | ]. simpl total. rewrite Hw'. ring.
Qed.

End RowLength.

Section Facts.

Variable D : Type.
Variable Cat : Type.
Variable cat_eqb : Cat -> Cat -> bool.
Hypothesis cat_eqb_eq : forall a b, cat_eqb a b = true <-> a = b.

Implicit Types (o : Options D Cat) (svg : Svg Cat).

(** The builder returns what [render] returns on the extracted values. *)
Lemma StackedBarChartSVG_inv : forall (data : list D) o svg,
    StackedBarChartSVG cat_eqb data o = Ok svg ->
    exists X Y Z,
      D3.map data (x o) = Ok X /\ D3.map data (y o) = Ok Y
      /\ D3.map data (z o) = Ok Z /\ render cat_eqb o X Y Z = Ok svg.
Proof.
  intros data o svg. unfold StackedBarChartSVG.
  destruct (D3.map data (x o)) as [X |]; simpl; [ | discriminate ].
  destruct (D3.map data (y o)) as [Y |]; simpl; [ | discriminate ].
  destruct (D3.map data (z o)) as [Z |]; simpl; [ | discriminate ].
  intro H. now exists X, Y, Z.
Qed.

(** Each layer is drawn from its series, point by point; a series without
    points stops the drawing. *)
Lemma layers_of_inv : forall o X Y Z series c ls c',
    layers_of cat_eqb o X Y Z c series = Ok (ls, c') ->
    Forall2
      (fun s l =>
         s <> [] /\ layer_datum l = s
         /\ layer_rects l = List.map (rect_of cat_eqb o X Y Z) s
         /\ layer_images l = List.map (image_of cat_eqb o X Y Z) s)
      series ls.
Proof.
  intros o X Y Z. induction series as [| s series IH]; intros c ls c'; simpl.
  - intro H. injection H as <- <-. constructor.
  - destruct s as [| d s]; simpl; [ discriminate | ].
    destruct (layers_of cat_eqb o X Y Z _ series) as [[ls0 c0] |] eqn:E;
      simpl; [ | discriminate ].
    intro H. injection H as <- <-. constructor.
    + simpl. repeat split. discriminate.
    + eapply IH, E.
Qed.

Lemma layers_of_ok : forall o X Y Z series c,
    Forall (fun s => s <> []) series ->
    exists r, layers_of cat_eqb o X Y Z c series = Ok r.
Proof.
  intros o X Y Z. induction series as [| s series IH]; intros c Hs; simpl.
  - eexists. reflexivity.
  - inversion Hs as [| ? ? Hne Hrest]; subst.
    destruct s as [| d s]; [ contradiction | ]. simpl.
    destruct (IH (snd (ordinal_apply (option_eqb Z.eqb) c (at_ Z (i d)))) Hrest)
      as [r Hr].
    rewrite Hr. simpl. eexists. reflexivity.
Qed.

(** [series] is the stacked series unless the index loop of [d3.stack]
    throws. *)
Lemma the_series_eq : forall o X Y Z,
    the_series cat_eqb o X Y Z
    = (_ <- stack_index (List.length (the_points cat_eqb o X Y Z))
              (the_order cat_eqb o X Y Z) ;;
       Ok (series_of cat_eqb o X Y Z)).
Proof.
  intros o X Y Z. unfold the_series, stack, series_of, stacked, the_order,
    the_points.
  destruct (stack_index _ _); reflexivity.
Qed.

Lemma the_series_inv : forall o X Y Z series,
    the_series cat_eqb o X Y Z = Ok series ->
    series = series_of cat_eqb o X Y Z
    /\ stack_index (List.length (the_points cat_eqb o X Y Z))
         (the_order cat_eqb o X Y Z) = Ok tt.
Proof.
  intros o X Y Z series. rewrite the_series_eq.
  destruct (stack_index _ _) as [[] |]; simpl; [ | discriminate ].
  intro H. injection H as <-. now split.
Qed.

Lemma the_series_ok : forall o X Y Z,
    stack_index (List.length (the_points cat_eqb o X Y Z))
      (the_order cat_eqb o X Y Z) = Ok tt ->
    the_series cat_eqb o X Y Z = Ok (series_of cat_eqb o X Y Z).
Proof. intros o X Y Z H. now rewrite the_series_eq, H. Qed.

Lemma the_series_throw : forall o X Y Z e,
    stack_index (List.length (the_points cat_eqb o X Y Z))
      (the_order cat_eqb o X Y Z) = Throw e ->
    the_series cat_eqb o X Y Z = Throw e.
Proof. intros o X Y Z e H. now rewrite the_series_eq, H. Qed.

Lemma length_the_points : forall o X Y Z,
    List.length (the_points cat_eqb o X Y Z) = List.length (the_zDomain o Z).
Proof. intros o X Y Z. unfold the_points, stack_points. apply length_map. Qed.

Lemma render_inv : forall o X Y Z svg,
    render cat_eqb o X Y Z = Ok svg ->
    exists c,
      layers_of cat_eqb o X Y Z (color0 o Z) (series_of cat_eqb o X Y Z)
      = Ok (svg_layers svg, c)
      /\ svg_viewBox svg = (0, 0, width o, the_height cat_eqb o Y)
      /\ stack_index (List.length (the_points cat_eqb o X Y Z))
           (the_order cat_eqb o X Y Z) = Ok tt
      /\ formatSpecifier (xFormat o) = Ok tt
      /\ svg_scales_color svg = c
      /\ svg_yAxis_translate svg = (xScale cat_eqb o X Y Z (Fin 0), 0).
Proof.
  intros o X Y Z svg. unfold render.
  destruct (the_series cat_eqb o X Y Z) as [series |] eqn:Hs; simpl;
    [ | discriminate ].
  apply the_series_inv in Hs. destruct Hs as [-> Hidx].
  destruct (layers_of cat_eqb o X Y Z _ _) as [[ls c] |]; simpl;
    [ | discriminate ].
  destruct (formatSpecifier (xFormat o)) as [[] |]; simpl; [ | discriminate ].
  intro H. injection H as <-. simpl. exists c. now repeat split.
Qed.

(** The drawing succeeds as soon as the index loop of [d3.stack], the fill
    of the layers and the tick format do. *)
Lemma render_ok : forall o X Y Z,
    stack_index (List.length (the_points cat_eqb o X Y Z))
      (the_order cat_eqb o X Y Z) = Ok tt ->
    Forall (fun s => s <> []) (series_of cat_eqb o X Y Z) ->
    formatSpecifier (xFormat o) = Ok tt ->
    exists svg, render cat_eqb o X Y Z = Ok svg.
Proof.
  intros o X Y Z Hidx Hne Hfmt. unfold render.
  rewrite (the_series_ok o X Y Z Hidx). simpl.
  destruct (layers_of_ok o X Y Z _ (color0 o Z) Hne) as [r Hr].
  rewrite Hr, Hfmt. simpl. eexists. reflexivity.
Qed.

(** Every rectangle and every image of the artifact is that of a point of
    the series, and they come in pairs. *)
Lemma drawn_elements : forall o X Y Z svg l,
    render cat_eqb o X Y Z = Ok svg ->
    In l (svg_layers svg) ->
    In (layer_datum l) (series_of cat_eqb o X Y Z)
    /\ layer_rects l = List.map (rect_of cat_eqb o X Y Z) (layer_datum l)
    /\ layer_images l = List.map (image_of cat_eqb o X Y Z) (layer_datum l).
Proof.
  intros o X Y Z svg l Hr Hl.
  destruct (render_inv _ _ _ _ _ Hr) as [c [Hls _]].
  apply layers_of_inv in Hls.
  induction Hls as [| s l0 series ls [_ [Hd [Hre Him]]] _ IH];
    [ destruct Hl | ].
  destruct Hl as [<- | Hl].
  - subst s. repeat split; try assumption. now left.
  - destruct (IH Hl) as [H1 H2]. split; [ now right | assumption ].
Qed.

(** *** The index filter *)

(** The kept indices are exactly those of the records whose category and
    series both are in the resolved domains, in input order. *)
Lemma the_I_spec : forall o X Y Z k,
    In k (the_I cat_eqb o X Y Z)
    <-> (k < List.length X)%nat
        /\ (exists c, nth_error Y k = Some c
                      /\ In c (the_yDomain cat_eqb o Y))
        /\ (exists v, nth_error Z k = Some v /\ In v (the_zDomain o Z)).
Proof.
  intros o X Y Z k. unfold the_I, range.
  rewrite filter_In, in_seq, andb_true_iff. unfold has_at.
  split.
  - intros [Hk [Hy Hz]]. split; [ lia | ]. split.
    + destruct (nth_error Y k) as [c |]; [ | discriminate ].
      exists c. split; [ reflexivity | ]. now apply (has_In _ _ cat_eqb_eq).
    + destruct (nth_error Z k) as [v |]; [ | discriminate ].
      exists v. split; [ reflexivity | ]. now apply (has_In _ _ Z.eqb_eq).
  - intros [Hk [[c [Hc Hy]] [v [Hv Hz]]]]. split; [ lia | ].
    rewrite Hc, Hv. split.
    + now apply (has_In _ _ cat_eqb_eq).
    + now apply (has_In _ _ Z.eqb_eq).
Qed.

(** *** C3: the derived height *)

(** C3.  When the [height] option is omitted and the builder returns an
    artifact, the outer height of the artifact (the last component of its
    [viewBox]) is the number of members of the resolved category-domain
    times 25, plus the top margin, plus the bottom margin; the resolved
    category-domain holds each category of the supplied domain (or, without
    one, of the data) exactly once. *)
Theorem derived_height : forall (ds : list D) o svg,
    height o = None ->
    StackedBarChartSVG cat_eqb ds o = Ok svg ->
    exists Y,
      D3.map ds (y o) = Ok Y
      /\ NoDup (the_yDomain cat_eqb o Y)
      /\ (forall c,
             In c (the_yDomain cat_eqb o Y)
             <-> In c match yDomain o with Some d => d | None => Y end)
      /\ svg_viewBox svg
         = (0, 0, width o,
            inject_Z (Z.of_nat (List.length (the_yDomain cat_eqb o Y))) * 25
            + marginTop o + marginBottom o).
Proof.
  intros ds o svg Hh Hsvg.
  destruct (StackedBarChartSVG_inv _ _ _ Hsvg) as [X [Y [Z [_ [HY [_ Hr]]]]]].
  exists Y. split; [ assumption | ].
  split; [ apply InternSet_NoDup, cat_eqb_eq | ].
  split; [ intro c; apply InternSet_In, cat_eqb_eq | ].
  destruct (render_inv _ _ _ _ _ Hr) as [c [_ [Hv _]]].
  rewrite Hv. unfold the_height. now rewrite Hh.
Qed.

(** *** C4: the glyph lookup *)

Lemma glyph_href_out_of_range : forall v,
    (v < 1 \/ 3 < v)%Z -> glyph_href (Some v) = None.
Proof.
  intros v Hv. unfold glyph_href.
  destruct (0 <=? v - 1)%Z eqn:E; [ | reflexivity ].
  apply Z.leb_le in E. apply nth_error_None. simpl. lia.
Qed.

Lemma glyph_href_in_range : forall v,
    (1 <= v <= 3)%Z ->
    glyph_href (Some v) = nth_error glyphs (Z.to_nat (v - 1))
    /\ glyph_href (Some v) <> None.
Proof.
  intros v Hv. unfold glyph_href.
  replace (0 <=? v - 1)%Z with true by (symmetry; apply Z.leb_le; lia).
  split; [ reflexivity | ]. apply nth_error_Some. simpl. lia.
Qed.


(** *** C5: no validation *)

(** Without series keys there is nothing to stack, whatever the offset. *)
Lemma no_keys_no_series : forall o X Y Z,
    the_zDomain o Z = [] -> series_of cat_eqb o X Y Z = [].
Proof.
  intros o X Y Z Hz. unfold series_of, with_i, stacked, stack_points. now rewrite Hz.
Qed.

Lemma stack_index_nil : forall oz, stack_index 0 oz = Ok tt.
Proof. reflexivity. Qed.

Lemma formatSpecifier_throw : forall specifier,
    format_re specifier = false ->
    formatSpecifier specifier
    = Throw (JsError ("invalid format: " ++ specifier)).
Proof. intros specifier H. unfold formatSpecifier. now rewrite H. Qed.

Lemma formatSpecifier_ok : forall specifier,
    formatSpecifier specifier = Ok tt <-> format_re specifier = true.
Proof.
  intro specifier. unfold formatSpecifier.
  destruct (format_re specifier); split; congruence.
Qed.


(** *** C10: the geometry of rectangles and images *)

Lemma Forall2_map_same : forall (A B C : Type) (f : A -> B) (g : A -> C)
    (P : B -> C -> Prop) (l : list A),
    (forall a, In a l -> P (f a) (g a)) ->
    Forall2 P (List.map f l) (List.map g l).
Proof.
  intros A B C f g P l. induction l as [| a l IH]; intro H; simpl.
  - constructor.
  - constructor; [ apply H; now left | apply IH; intros; apply H; now right ].
Qed.

(** C10 (amended).  In the returned artifact the rectangles and the images
    of a layer correspond one to one.  For each pair, with [a] and [b] the
    images under the quantitative scale (whatever its type, domain and
    range) of the two boundaries of the point: the rectangle's [x] is
    [Math.min(a, b)] and its [width] is [Math.abs(a - b)]; the image has
    the rectangle's [x], [y], [width] and [height]; when [a] and [b] are
    numbers the width is a non-negative number and [x] is the smaller of
    the two, and when either is [NaN] the width is [NaN]. *)
Theorem rect_image_geometry : forall (ds : list D) o svg,
    StackedBarChartSVG cat_eqb ds o = Ok svg ->
    exists X Y Z,
      D3.map ds (x o) = Ok X /\ D3.map ds (y o) = Ok Y
      /\ D3.map ds (z o) = Ok Z
      /\ forall l,
          In l (svg_layers svg) ->
          Forall2
            (fun r im =>
               let a := xScale cat_eqb o X Y Z (x1 (rect_datum r)) in
               let b := xScale cat_eqb o X Y Z (x2 (rect_datum r)) in
               image_datum im = rect_datum r
               /\ rect_x r = Js.min a b
               /\ rect_width r = Js.abs (Js.sub a b)
               /\ image_x im = rect_x r
               /\ image_y im = rect_y r
               /\ image_width im = rect_width r
               /\ image_height im = rect_height r
               /\ (forall u v, a = Fin u -> b = Fin v ->
                     exists w, rect_width r = Fin w /\ 0 <= w
                               /\ w == Qabs (u - v)
                               /\ exists m, rect_x r = Fin m
                                            /\ m <= u /\ m <= v)
               /\ (a = NaN \/ b = NaN -> rect_width r = NaN))
            (layer_rects l) (layer_images l).
Proof.
  intros ds o svg Hsvg.
  destruct (StackedBarChartSVG_inv _ _ _ Hsvg) as [X [Y [Z [HX [HY [HZ Hr]]]]]].
  exists X, Y, Z. repeat (split; [ assumption | ]).
  intros l Hl.
  destruct (drawn_elements _ _ _ _ _ _ Hr Hl) as [_ [Hre Him]].
  rewrite Hre, Him. apply Forall2_map_same. intros d _.
  cbn [rect_of image_of rect_datum rect_x rect_y rect_width rect_height
       image_datum image_x image_y image_width image_height].
  repeat (split; [ reflexivity | ]). split.
  - intros u v -> ->. cbn [Js.sub Js.abs Js.min].
    eexists. split; [ reflexivity | ].
    split; [ apply Qabs_nonneg | ]. split; [ reflexivity | ].
    eexists. split; [ reflexivity | ].
    destruct (Qle_bool u v) eqn:E.
    + apply Qle_bool_iff in E. split; [ apply Qle_refl | assumption ].
    + split; [ | apply Qle_refl ].
      destruct (Qlt_le_dec v u) as [H | H]; [ now apply Qlt_le_weak | ].
      apply Qle_bool_iff in H. congruence.
  - intros [-> | ->]; cbn [Js.sub Js.abs]; [ reflexivity | ].
    destruct (xScale cat_eqb o X Y Z (x1 d)); reflexivity.
Qed.

(** *** C7: the direction of the rows *)

(** A band scale over a range given bottom first: the bands go up from the
    first member of the domain, inside the range. *)
Lemma scaleBand_reversed : forall (K : Type) (dom : list K) r0 r1 padding,
    r1 < r0 ->
    let n := inject_Z (Z.of_nat (List.length dom)) in
    let b := scaleBand dom (r0, r1) padding in
    exists start,
      band_values b
      = rev (List.map (fun k => start + band_step b * inject_Z (Z.of_nat k))
               (seq 0 (List.length dom)))
      /\ 0 < band_step b
      /\ r1 <= start
      /\ start + band_step b * (n - 1) + band_bandwidth b <= r0
      /\ (1 <= n - Js.Qmin' 1 padding ->
          start == r1
          /\ start + band_step b * (n - 1) + band_bandwidth b == r0).
Proof.
  intros K dom r0 r1 padding Hr n b.
  assert (Hrev : Qle_bool r0 r1 = false).
  { destruct (Qle_bool r0 r1) eqn:E; [ | reflexivity ].
    apply Qle_bool_iff in E. lra. }
  unfold b, scaleBand. rewrite Hrev. cbn [negb band_values band_step band_bandwidth].
  fold n.
  set (pin := Js.Qmin' 1 padding).
  set (den := Js.Qmax' 1 (n - pin + 0 * 2)).
  assert (Hden : 1 <= den /\ n - pin <= den
                 /\ (1 <= n - pin -> den == n - pin)).
  { unfold den, Js.Qmax'.
    destruct (Qle_bool 1 (n - pin + 0 * 2)) eqn:E.
    - apply Qle_bool_iff in E. repeat split; lra.
    - assert (~ 1 <= n - pin + 0 * 2)
        by (intro H; apply Qle_bool_iff in H; congruence).
      repeat split; lra. }
  destruct Hden as [Hden1 [Hden2 Hden3]].
  set (step := (r0 - r1) / den).
  assert (Hstep : step * den == r0 - r1).
  { unfold step. field. lra. }
  assert (Hpos : 0 < step).
  { unfold step. apply Qlt_shift_div_l; lra. }
  eexists. split; [ reflexivity | ].
  split; [ assumption | ].
  assert (Hle : step * (n - pin) <= r0 - r1) by nra.
  split; [ lra | ]. split; [ lra | ].
  intro H1. specialize (Hden3 H1).
  assert (Heq : step * (n - pin) == r0 - r1) by (rewrite <- Hden3; exact Hstep).
  split; lra.
Qed.

Lemma nth_error_seq_map : forall (A : Type) (f : nat -> A) n k,
    (k < n)%nat -> nth_error (List.map f (seq 0 n)) k = Some (f k).
Proof.
  intros A f n k Hk.
  rewrite nth_error_map, nth_error_seq.
  replace (k <? n)%nat with true by (symmetry; now apply Nat.ltb_lt).
  reflexivity.
Qed.

(** With the default [yRange] and a plot of positive height, the member of
    the category domain at position [k] gets the band that starts at
    [start + step * (n - 1 - k)]. *)
Lemma yScale_position : forall o Y,
    yRange o = None ->
    marginTop o < the_height cat_eqb o Y - marginBottom o ->
    exists start,
      0 < band_step (yScale cat_eqb o Y)
      /\ marginTop o <= start
      /\ start
         + band_step (yScale cat_eqb o Y)
           * (inject_Z (Z.of_nat (List.length (the_yDomain cat_eqb o Y))) - 1)
         + band_bandwidth (yScale cat_eqb o Y)
         <= the_height cat_eqb o Y - marginBottom o
      /\ forall k c,
          nth_error (the_yDomain cat_eqb o Y) k = Some c ->
          band_apply cat_eqb (yScale cat_eqb o Y) (Some c)
          = Some (start
                  + band_step (yScale cat_eqb o Y)
                    * inject_Z
                        (Z.of_nat
                           (List.length (the_yDomain cat_eqb o Y) - S k))).
Proof.
  intros o Y Hyr Hplot. unfold yScale, the_yRange. rewrite Hyr.
  destruct (scaleBand_reversed Cat (the_yDomain cat_eqb o Y) _ _ (yPadding o) Hplot)
    as [start [Hv [Hs [Hlo [Hhi _]]]]].
  exists start. repeat (split; [ assumption | ]).
  intros k c Hk. unfold band_apply.
  replace (band_domain (scaleBand (the_yDomain cat_eqb o Y)
                          (the_height cat_eqb o Y - marginBottom o, marginTop o)
                          (yPadding o)))
    with (the_yDomain cat_eqb o Y)
    by (unfold scaleBand; destruct (negb _); reflexivity).
  assert (Hnd : NoDup (the_yDomain cat_eqb o Y))
    by apply (InternSet_NoDup _ _ cat_eqb_eq).
  rewrite (index_of_nth _ cat_eqb cat_eqb_eq (the_yDomain cat_eqb o Y) c k
             Hnd Hk).
  cbn [at_]. rewrite Hv.
  assert (Hlt : (k < List.length (the_yDomain cat_eqb o Y))%nat)
    by (apply nth_error_Some; congruence).
  rewrite nth_error_rev, length_map, length_seq.
  replace (k <? List.length (the_yDomain cat_eqb o Y))%nat with true
    by (symmetry; now apply Nat.ltb_lt).
  apply nth_error_seq_map. lia.
Qed.

(** The derived height always leaves a plot of positive height to a
    category domain that is not empty. *)
Lemma derived_height_plot : forall o Y,
    height o = None ->
    the_yDomain cat_eqb o Y <> [] ->
    marginTop o < the_height cat_eqb o Y - marginBottom o.
Proof.
  intros o Y Hh Hne. unfold the_height. rewrite Hh.
  destruct (the_yDomain cat_eqb o Y) as [| c dom]; [ contradiction | ].
  assert (H : 1 <= inject_Z (Z.of_nat (List.length (c :: dom)))).
  { change 1 with (inject_Z 1). rewrite <- Zle_Qle. simpl List.length. lia. }
  lra.
Qed.


(** *** C6 and C9: one record for each (category, series) pair *)

Lemma hd_error_filter : forall (A : Type) (f : A -> bool) l,
    hd_error (filter f l) = find f l.
Proof.
  intros A f l. induction l as [| a l IH]; simpl; [ reflexivity | ].
  destruct (f a); [ reflexivity | exact IH ].
Qed.

Lemma filter_filter_andb : forall (A : Type) (f g : A -> bool) l,
    filter g (filter f l) = filter (fun a => f a && g a) l.
Proof.
  intros A f g l. induction l as [| a l IH]; simpl; [ reflexivity | ].
  destruct (f a); simpl; [ destruct (g a) | ]; now rewrite IH.
Qed.

Lemma find_exists : forall (A : Type) (f : A -> bool) l a,
    In a l -> f a = true -> exists b, find f l = Some b.
Proof.
  intros A f l a. induction l as [| b l IH]; intros Hin Hf; [ destruct Hin | ].
  simpl. destruct (f b) eqn:E; [ now exists b | ].
  destruct Hin as [-> | Hin]; [ congruence | now apply IH ].
Qed.

(** In a filtered range the first match is the smallest. *)
Lemma find_first_is_least : forall (f g : nat -> bool) n a i0,
    find f (filter g (seq a n)) = Some i0 ->
    forall j, In j (filter g (seq a n)) -> f j = true -> (i0 <= j)%nat.
Proof.
  intros f g n. induction n as [| n IH]; intros a i0 Hfind j Hj Hf;
    [ destruct Hj | ].
  simpl in Hfind, Hj.
  assert (Hrest : In j (filter g (seq (S a) n)) -> (a < j)%nat).
  { intro H. apply filter_In in H. destruct H as [H _].
    apply in_seq in H. lia. }
  destruct (g a).
  - simpl in Hfind. destruct (f a) eqn:E.
    + injection Hfind as <-. destruct Hj as [-> | Hj]; [ lia | ].
      apply Hrest in Hj. lia.
    + destruct Hj as [-> | Hj]; [ congruence | ]. now apply (IH (S a)).
  - now apply (IH (S a)).
Qed.

Lemma collides_spec : forall Y Z c k j,
    collides cat_eqb Y Z c k j = true
    <-> nth_error Y j = Some c /\ nth_error Z j = Some k.
Proof.
  intros Y Z c k j. unfold collides. rewrite andb_true_iff.
  rewrite (option_eqb_eq _ _ cat_eqb_eq), (option_eqb_eq _ _ Z.eqb_eq).
  reflexivity.
Qed.

(** The rollup has one row for each category. *)
Lemma the_rollup_NoDup : forall o X Y Z,
    NoDup (List.map fst (the_rollup cat_eqb o X Y Z)).
Proof.
  intros o X Y Z. unfold the_rollup, rollup.
  rewrite map_map. simpl.
  apply (group_NoDup _ _ (option_eqb_eq _ _ cat_eqb_eq)).
Qed.

Lemma the_rollup_has_row : forall o X Y Z j c,
    In j (the_I cat_eqb o X Y Z) ->
    nth_error Y j = Some c ->
    exists row, In row (the_rollup cat_eqb o X Y Z) /\ fst row = Some c.
Proof.
  intros o X Y Z j c Hj Hc.
  pose proof (group_get _ _ (option_eqb_eq _ _ cat_eqb_eq) _
                (fun i => nth_error Y i) (the_I cat_eqb o X Y Z) (Some c))
    as Hget.
  assert (Hsel : In j (selected (option_eqb cat_eqb) (fun i => nth_error Y i)
                         (Some c) (the_I cat_eqb o X Y Z))).
  { unfold selected. apply filter_In. split; [ assumption | ].
    rewrite Hc. now apply (option_eqb_eq _ _ cat_eqb_eq). }
  destruct (selected _ _ _ _) as [| v vs] eqn:E; [ destruct Hsel | ].
  simpl in Hget. apply get_Some_In in Hget;
    [ | apply (option_eqb_eq _ _ cat_eqb_eq) ].
  eexists. split.
  - unfold the_rollup, rollup. apply in_map_iff. eexists. split;
      [ reflexivity | exact Hget ].
  - reflexivity.
Qed.

(** Inside the row of a category, a series value leads to the first of the
    kept indices that have this category and this series value. *)
Lemma the_rollup_row_get : forall o X Y Z row c k,
    In row (the_rollup cat_eqb o X Y Z) ->
    fst row = Some c ->
    row_get row k
    = find (collides cat_eqb Y Z c k) (the_I cat_eqb o X Y Z).
Proof.
  intros o X Y Z row c k Hin Hc.
  unfold the_rollup, rollup in Hin. apply in_map_iff in Hin.
  destruct Hin as [[k1 vs] [<- Hg]]. simpl in Hc. subst k1.
  destruct (group_entry _ _ (option_eqb_eq _ _ cat_eqb_eq) _ _ _ _ _ Hg)
    as [Hvs _].
  unfold row_get. cbn [snd fst].
  rewrite get_map_snd, (group_get _ _ (option_eqb_eq _ _ Z.eqb_eq)).
  rewrite Hvs. unfold selected. rewrite filter_filter_andb.
  rewrite <- hd_error_filter. unfold collides.
  destruct (filter _ (the_I cat_eqb o X Y Z)); reflexivity.
Qed.

(** Under an offset that keeps the data, the series are laid out as a grid:
    one series for each key, one point for each row, and the point of a key
    in a row refers back to the record the row retained for the key. *)
Lemma series_of_shape : forall o X Y Z,
    keeps_data (offset o) ->
    List.map (List.map (fun d => (data d, i d))) (series_of cat_eqb o X Y Z)
    = List.map
        (fun key =>
           List.map (fun row => (row, row_get row key))
             (the_rollup cat_eqb o X Y Z))
        (the_zDomain o Z).
Proof.
  intros o X Y Z Hkeep. unfold series_of, with_i, stacked, stack_points.
  set (rows := the_rollup cat_eqb o X Y Z).
  set (keys := the_zDomain o Z).
  set (sz := List.map _ keys).
  pose proof (Hkeep sz (order o sz)) as HL.
  assert (Hsz : List.map (List.map data) sz = List.map (fun _ => rows) keys).
  { unfold sz. rewrite map_map. apply map_ext. intro key.
    rewrite map_map. simpl. apply map_id. }
  rewrite Hsz in HL. clear Hsz.
  generalize dependent (offset o sz (order o sz)). clear sz.
  induction keys as [| key keys IH]; intros L HL.
  - reflexivity.
  - destruct L as [| s L]; [ discriminate | ].
    simpl in HL. injection HL as Hs HL'. simpl. f_equal.
    + rewrite map_map. simpl. rewrite <- Hs, map_map. reflexivity.
    + now apply IH.
Qed.

Lemma layers_grid_aux : forall o X Y Z (rows : list (Row Cat)) series ls,
    Forall2
      (fun s l =>
         s <> [] /\ layer_datum l = s
         /\ layer_rects l = List.map (rect_of cat_eqb o X Y Z) s
         /\ layer_images l = List.map (image_of cat_eqb o X Y Z) s)
      series ls ->
    forall keys,
      List.map (List.map (fun d => (data d, i d))) series
      = List.map
          (fun key => List.map (fun row => (row, row_get row key)) rows) keys ->
      Forall2
        (fun key l =>
           layer_rects l
           = List.map (rect_of cat_eqb o X Y Z) (layer_datum l)
           /\ List.map (fun d => (data d, i d)) (layer_datum l)
              = List.map (fun row => (row, row_get row key)) rows)
        keys ls.
Proof.
  intros o X Y Z rows series ls H.
  induction H as [| s l series ls [_ [Hd [Hr _]]] _ IH]; intros keys Hk;
    destruct keys as [| key keys]; try discriminate; constructor.
  - simpl in Hk. injection Hk as Hs _. subst s. now split.
  - simpl in Hk. injection Hk as _ Hrest. now apply IH.
Qed.

(** The layers of the artifact form the same grid. *)
Lemma layers_grid : forall o X Y Z svg,
    keeps_data (offset o) ->
    render cat_eqb o X Y Z = Ok svg ->
    Forall2
      (fun key l =>
         layer_rects l = List.map (rect_of cat_eqb o X Y Z) (layer_datum l)
         /\ List.map (fun d => (data d, i d)) (layer_datum l)
            = List.map (fun row => (row, row_get row key))
                (the_rollup cat_eqb o X Y Z))
      (the_zDomain o Z) (svg_layers svg).
Proof.
  intros o X Y Z svg Hkeep Hr.
  destruct (render_inv _ _ _ _ _ Hr) as [c [Hls _]].
  apply layers_of_inv in Hls.
  apply (layers_grid_aux _ _ _ _ _ _ _ Hls). now apply series_of_shape.
Qed.

Lemma filter_map_comm : forall (A B : Type) (f : A -> B) (p : B -> bool) l,
    filter p (List.map f l) = List.map f (filter (fun a => p (f a)) l).
Proof.
  intros A B f p l. induction l as [| a l IH]; simpl; [ reflexivity | ].
  destruct (p (f a)); simpl; now rewrite IH.
Qed.

Lemma row_points_none : forall (rows : list (Row Cat)) key (s : Series Cat) c,
    List.map (fun d => (data d, i d)) s
    = List.map (fun row => (row, row_get row key)) rows ->
    ~ In (Some c) (List.map fst rows) ->
    filter (fun d => option_eqb cat_eqb (fst (data d)) (Some c)) s = [].
Proof.
  induction rows as [| row rows IH]; intros key s c Hs Hc;
    destruct s as [| d s]; try discriminate; [ reflexivity | ].
  simpl in Hs. injection Hs as Hd _ Hrest. simpl.
  match goal with |- context [if ?b then _ else _] => destruct b eqn:E end.
  - apply (option_eqb_eq _ _ cat_eqb_eq) in E. exfalso. apply Hc.
    left. now rewrite <- Hd.
  - apply (IH key); [ assumption | ]. intro H. apply Hc. now right.
Qed.

(** In a series, exactly one point stands in the row of a category. *)
Lemma row_points_one : forall (rows : list (Row Cat)) key (s : Series Cat) row c,
    List.map (fun d => (data d, i d)) s
    = List.map (fun row => (row, row_get row key)) rows ->
    NoDup (List.map fst rows) ->
    In row rows ->
    fst row = Some c ->
    exists d,
      filter (fun d => option_eqb cat_eqb (fst (data d)) (Some c)) s = [d]
      /\ data d = row /\ i d = row_get row key.
Proof.
  induction rows as [| row0 rows IH]; intros key s row c Hs Hnd Hin Hc;
    [ destruct Hin | ].
  destruct s as [| d s]; [ discriminate | ].
  simpl in Hs. injection Hs as Hd Hi Hrest.
  simpl in Hnd. apply NoDup_cons_iff in Hnd. destruct Hnd as [Hnotin Hnd'].
  simpl. unfold Row in *. destruct Hin as [-> | Hin].
  - rewrite Hd, Hc.
    replace (option_eqb cat_eqb (Some c) (Some c)) with true
      by (symmetry; now apply (option_eqb_eq _ _ cat_eqb_eq)).
    exists d. rewrite (row_points_none rows key s c Hrest);
      [ now repeat split | ].
    now rewrite <- Hc.
  - match goal with |- context [if ?b then _ else _] => destruct b eqn:E end.
    + apply (option_eqb_eq _ _ cat_eqb_eq) in E. exfalso. apply Hnotin.
      rewrite <- Hd, E, <- Hc. now apply in_map.
    + now apply (IH key s row c).
Qed.

Lemma rects_of_pair_none : forall keys (ls : list (Layer Cat)) c k,
    ~ In k keys -> rects_of_pair cat_eqb keys ls c k = [].
Proof.
  induction keys as [| key keys IH]; intros ls c k Hk; [ reflexivity | ].
  destruct ls as [| l ls]; [ reflexivity | ].
  unfold rects_of_pair. simpl.
  destruct (Z.eqb key k) eqn:E.
  - apply Z.eqb_eq in E. exfalso. apply Hk. now left.
  - simpl. apply IH. intro H. apply Hk. now right.
Qed.

(** The rectangle of a (category, series) pair that has a record: there is
    exactly one, it stands in the row of the category, and it refers back to
    the first kept index of the pair. *)
Lemma pair_rect : forall o X Y Z svg c k j,
    keeps_data (offset o) ->
    render cat_eqb o X Y Z = Ok svg ->
    In j (the_I cat_eqb o X Y Z) ->
    collides cat_eqb Y Z c k j = true ->
    exists r,
      rects_of_pair cat_eqb (the_zDomain o Z) (svg_layers svg) c k = [r]
      /\ In (data (rect_datum r)) (the_rollup cat_eqb o X Y Z)
      /\ fst (data (rect_datum r)) = Some c
      /\ i (rect_datum r)
         = find (collides cat_eqb Y Z c k) (the_I cat_eqb o X Y Z)
      /\ row_get (data (rect_datum r)) k = i (rect_datum r).
Proof.
  intros o X Y Z svg c k j Hkeep Hr Hj Hcol.
  apply collides_spec in Hcol. destruct Hcol as [Hc Hk].
  destruct (the_rollup_has_row o X Y Z j c Hj Hc) as [row [Hrow Hfst]].
  assert (Hkin : In k (the_zDomain o Z)).
  { apply the_I_spec in Hj. destruct Hj as [_ [_ [v [Hv Hin]]]]. congruence. }
  assert (Hnd : NoDup (the_zDomain o Z))
    by apply (InternSet_NoDup _ _ Z.eqb_eq).
  pose proof (layers_grid o X Y Z svg Hkeep Hr) as Hgrid.
  pose proof (the_rollup_NoDup o X Y Z) as Hrows.
  pose proof (the_rollup_row_get o X Y Z row c k Hrow Hfst) as Hget.
  revert Hkin Hnd.
  induction Hgrid as [| key l keys ls [Hrects Hpts] _ IH]; intros Hkin Hnd;
    [ destruct Hkin | ].
  inversion Hnd as [| ? ? Hnotin Hnd']; subst.
  unfold rects_of_pair. simpl. destruct (Z.eqb key k) eqn:E.
  - apply Z.eqb_eq in E. subst key.
    fold (rects_of_pair cat_eqb keys ls c k).
    rewrite (rects_of_pair_none keys ls c k Hnotin), app_nil_r.
    destruct (row_points_one _ _ _ row c Hpts Hrows Hrow Hfst)
      as [d [Hd [Hdata Hi]]].
    exists (rect_of cat_eqb o X Y Z d).
    rewrite Hrects, filter_map_comm. cbn [rect_datum rect_of].
    unfold Row in *. rewrite Hd. cbn [List.map rect_datum rect_of].
    rewrite Hdata, Hi.
    split; [ reflexivity | ]. split; [ assumption | ].
    split; [ assumption | ]. split; [ assumption | reflexivity ].
  - simpl. apply IH; [ | assumption ].
    destruct Hkin as [-> | H]; [ | assumption ].
    rewrite Z.eqb_refl in E. discriminate.
Qed.

(** *** C1: the default layout of a row *)

Lemma fold_left_map_in : forall (A B C : Type) (f : A -> C -> A) (g : B -> C) l a,
    fold_left f (List.map g l) a = fold_left (fun u b => f u (g b)) l a.
Proof.
  intros A B C f g l. induction l as [| b l IH]; intro a; simpl;
    [ reflexivity | apply IH ].
Qed.

Lemma fold_left_ext_eq : forall (A B : Type) (f g : A -> B -> A) l a,
    (forall u b, f u b = g u b) -> fold_left f l a = fold_left g l a.
Proof.
  intros A B f g l. induction l as [| b l IH]; intros a H; simpl;
    [ reflexivity | ].
  rewrite H. now apply IH.
Qed.

Lemma column_total_rows : forall X (rows : list (Row Cat)) keys j row,
    nth_error rows j = Some row ->
    column_total (List.map (fun key => List.map (raw_point X key) rows) keys) j
    = row_total X keys row.
Proof.
  intros X rows keys j row Hj. unfold column_total, row_total.
  rewrite fold_left_map_in. apply fold_left_ext_eq. intros u key.
  rewrite nth_error_map, Hj. reflexivity.
Qed.

Lemma expand_row_points : forall X (rows : list (Row Cat)) keys key post pre,
    rows = pre ++ post ->
    mapi_from
      (fun j p =>
         let y :=
           column_total
             (List.map (fun key => List.map (raw_point X key) rows) keys) j in
         if (j <? List.length rows)%nat && truthy y
         then set_x2 p (div (x2 p) y) else p)
      (List.length pre) (List.map (raw_point X key) post)
    = List.map (expanded_point X keys key) post.
Proof.
  intros X rows keys key post.
  induction post as [| row post IH]; intros pre Hrows; [ reflexivity | ].
  simpl. f_equal.
  - assert (Hj : nth_error rows (List.length pre) = Some row).
    { rewrite Hrows, nth_error_app2, Nat.sub_diag; [ reflexivity | lia ]. }
    rewrite (column_total_rows X rows keys _ row Hj).
    replace (List.length pre <? List.length rows)%nat with true.
    + unfold expanded_point, raw_point, set_x2. simpl.
      destruct (truthy (row_total X keys row)); reflexivity.
    + symmetry. apply Nat.ltb_lt. rewrite Hrows, length_app. simpl. lia.
  - replace (S (List.length pre)) with (List.length (pre ++ [row]))
      by (rewrite length_app; simpl; lia).
    apply IH. rewrite Hrows, <- app_assoc. reflexivity.
Qed.

(** The default offset under the default order: the expanded points of the
    first key, and for each other key the expanded points stacked on the
    series before. *)
Lemma default_offset_rows : forall X (rows : list (Row Cat)) keys,
    let sz := List.map (fun key => List.map (raw_point X key) rows) keys in
    stackOffsetExpand sz (stackOrderNone sz)
    = match List.map (fun key => List.map (expanded_point X keys key) rows) keys
      with
      | [] => []
      | s :: rest => s :: none_scan s rest
      end.
Proof.
  intros X rows keys. destruct keys as [| key0 keys']; [ reflexivity | ].
  remember (key0 :: keys') as keys eqn:Hkeys. intro sz.
  assert (Hsz : sz = List.map (raw_point X key0) rows
                     :: List.map (fun key => List.map (raw_point X key) rows)
                          keys')
    by (unfold sz; rewrite Hkeys; reflexivity).
  rewrite (stackOffsetExpand_cons _ sz _ _ _ Hsz), length_map.
  assert (Hexp :
            List.map
              (mapi
                 (fun j p =>
                    let y := column_total sz j in
                    if (j <? List.length rows)%nat && truthy y
                    then set_x2 p (div (x2 p) y) else p))
              sz
            = List.map (fun key => List.map (expanded_point X keys key) rows)
                keys).
  { unfold sz. rewrite map_map. apply map_ext. intro key.
    apply (expand_row_points X rows keys key rows []). reflexivity. }
  rewrite Hexp. unfold stackOrderNone.
  replace (List.length sz)
    with (List.length
            (List.map (fun key => List.map (expanded_point X keys key) rows)
               keys))
    by (unfold sz; now rewrite !length_map).
  apply stackOffsetNone_scan.
Qed.

Lemma default_series : forall o X Y Z,
    offset o = stackOffsetExpand ->
    order o = stackOrderNone ->
    series_of cat_eqb o X Y Z
    = List.map
        (fun ks =>
           List.map (fun d => set_i d (row_get (data d) (fst ks))) (snd ks))
        (combine (the_zDomain o Z)
           match
             List.map
               (fun key =>
                  List.map (expanded_point X (the_zDomain o Z) key)
                    (the_rollup cat_eqb o X Y Z))
               (the_zDomain o Z)
           with
           | [] => []
           | s :: rest => s :: none_scan s rest
           end).
Proof.
  intros o X Y Z Hoff Hord. unfold series_of, with_i, stacked, stack_points.
  rewrite Hoff, Hord.
  rewrite <- (default_offset_rows X (the_rollup cat_eqb o X Y Z)
                (the_zDomain o Z)).
  reflexivity.
Qed.

Lemma combine_column : forall (row : Row Cat) j keys (series : list (Series Cat)) qs,
    List.map (fun s => nth_error s j) series = List.map Some qs ->
    List.map data qs = List.map (fun _ => row) keys ->
    List.map
      (fun ks =>
         option_map cell_of
           (nth_error
              (List.map (fun d => set_i d (row_get (data d) (fst ks))) (snd ks))
              j))
      (combine keys series)
    = List.map Some (combine (List.map (row_get row) keys) (List.map bounds qs)).
Proof.
  intros row j keys. induction keys as [| key keys IH]; intros series qs Hs Hd.
  - reflexivity.
  - destruct qs as [| q qs]; [ discriminate | ].
    destruct series as [| s series]; [ discriminate | ].
    simpl in Hs, Hd. injection Hs as Hq Hs. injection Hd as Hrow Hd.
    simpl. rewrite nth_error_map, Hq. simpl.
    unfold cell_of at 1. simpl. rewrite Hrow.
    f_equal. now apply IH.
Qed.

Lemma column_cells_of : forall X (rows : list (Row Cat)) j row allkeys keys,
    nth_error rows j = Some row ->
    List.map
      (fun ks =>
         option_map cell_of
           (nth_error
              (List.map (fun d => set_i d (row_get (data d) (fst ks))) (snd ks))
              j))
      (combine keys
         match
           List.map (fun key => List.map (expanded_point X allkeys key) rows)
             keys
         with
         | [] => []
         | s :: rest => s :: none_scan s rest
         end)
    = List.map Some
        (combine (List.map (row_get row) keys)
           (row_bounds
              (List.map (fun key => x2 (expanded_point X allkeys key row))
                 keys))).
Proof.
  intros X rows j row allkeys keys Hj.
  destruct keys as [| key0 keys']; [ reflexivity | ].
  cbn [List.map combine row_bounds fst snd].
  rewrite nth_error_map, nth_error_map, Hj. cbn [option_map].
  f_equal.
  assert (Hps : List.map (fun s => nth_error s j)
                  (List.map
                     (fun key => List.map (expanded_point X allkeys key) rows)
                     keys')
                = List.map Some
                    (List.map (fun key => expanded_point X allkeys key row)
                       keys')).
  { rewrite !map_map. apply map_ext. intro key.
    now rewrite nth_error_map, Hj. }
  assert (H0 : nth_error (List.map (expanded_point X allkeys key0) rows) j
               = Some (expanded_point X allkeys key0 row))
    by now rewrite nth_error_map, Hj.
  destruct (none_scan_column _ _ _ _ _ _ H0 Hps) as [qs [Hq [Hd [_ Hb]]]].
  assert (Hrow : List.map data qs = List.map (fun _ => row) keys')
    by (rewrite Hd, map_map; reflexivity).
  etransitivity; [ exact (combine_column row j keys' _ qs Hq Hrow) | ].
  rewrite Hb, map_map. reflexivity.
Qed.

(** Under the default offset and order, column [j] of the series is the row
    of the rollup at position [j], laid out by [row_cells]. *)
Lemma column_cells : forall o X Y Z j row,
    offset o = stackOffsetExpand ->
    order o = stackOrderNone ->
    nth_error (the_rollup cat_eqb o X Y Z) j = Some row ->
    List.map (fun s => option_map cell_of (nth_error s j))
      (series_of cat_eqb o X Y Z)
    = List.map Some (row_cells X (the_zDomain o Z) row).
Proof.
  intros o X Y Z j row Hoff Hord Hj.
  rewrite (default_series o X Y Z Hoff Hord), map_map.
  exact (column_cells_of X _ j row (the_zDomain o Z) (the_zDomain o Z) Hj).
Qed.

(** Every row of the rollup is the row of the category of a kept record. *)
Lemma the_rollup_kept : forall o X Y Z row,
    In row (the_rollup cat_eqb o X Y Z) ->
    exists c j,
      fst row = Some c /\ In j (the_I cat_eqb o X Y Z)
      /\ nth_error Y j = Some c.
Proof.
  intros o X Y Z row Hin.
  unfold the_rollup, rollup in Hin. apply in_map_iff in Hin.
  destruct Hin as [[k1 vs] [<- Hg]]. simpl.
  destruct (group_entry _ _ (option_eqb_eq _ _ cat_eqb_eq) _ _ _ _ _ Hg)
    as [Hvs Hne].
  destruct vs as [| v vs]; [ contradiction | ].
  assert (Hv : In v (selected (option_eqb cat_eqb) (fun i => nth_error Y i) k1
                       (the_I cat_eqb o X Y Z)))
    by (rewrite <- Hvs; now left).
  unfold selected in Hv. apply filter_In in Hv. destruct Hv as [HvI Hk].
  apply (option_eqb_eq _ _ cat_eqb_eq) in Hk.
  pose proof HvI as Hspec. apply the_I_spec in Hspec.
  destruct Hspec as [_ [[c [Hc _]] _]].
  exists c, v. repeat split; congruence.
Qed.

Lemma the_rollup_category : forall o X Y Z row,
    In row (the_rollup cat_eqb o X Y Z) -> exists c, fst row = Some c.
Proof.
  intros o X Y Z row Hin.
  destruct (the_rollup_kept o X Y Z row Hin) as [c [_ [Hc _]]]. now exists c.
Qed.

(** The record a row retains for a key is a kept record. *)
Lemma row_get_kept : forall o X Y Z row key i0,
    In row (the_rollup cat_eqb o X Y Z) ->
    row_get row key = Some i0 ->
    In i0 (the_I cat_eqb o X Y Z).
Proof.
  intros o X Y Z row key i0 Hrow Hget.
  destruct (the_rollup_category o X Y Z row Hrow) as [c Hc].
  rewrite (the_rollup_row_get o X Y Z row c key Hrow Hc) in Hget.
  apply find_some in Hget. tauto.
Qed.

(** With quantities that are not negative, the value a row stacks for a key
    is a number that is not negative where the row has a record for the
    key, and [NaN] where it has none. *)
Lemma row_values_backed : forall o X Y Z row,
    (forall i0 q,
        In i0 (the_I cat_eqb o X Y Z) -> nth_error X i0 = Some q -> 0 <= q) ->
    In row (the_rollup cat_eqb o X Y Z) ->
    0 <= row_total X (the_zDomain o Z) row ->
    Forall2 backed (List.map (row_get row) (the_zDomain o Z))
      (row_values X (the_zDomain o Z) row).
Proof.
  intros o X Y Z row Hpos Hrow HT. unfold row_values.
  set (T := row_total X (the_zDomain o Z) row) in *. clearbody T.
  induction (the_zDomain o Z) as [| key keys IH]; simpl; [ constructor | ].
  constructor; [ | exact IH ].
  destruct (row_get row key) as [i0 |] eqn:Hget; simpl.
  - pose proof (row_get_kept o X Y Z row key i0 Hrow Hget) as Hin.
    assert (Hlt : (i0 < List.length X)%nat)
      by (apply the_I_spec in Hin; tauto).
    destruct (nth_error X i0) as [q |] eqn:Hq;
      [ | apply nth_error_None in Hq; lia ].
    pose proof (Hpos i0 q Hin Hq) as Hq0. simpl.
    destruct (truthy T) eqn:E; [ | now exists q ].
    exists (q / T). split; [ reflexivity | ].
    assert (HT' : 0 < T).
    { unfold truthy in E. destruct (Qeq_bool T 0) eqn:F; [ discriminate | ].
      destruct (Qlt_le_dec 0 T) as [H | H]; [ assumption | ].
      assert (T == 0) by lra. apply Qeq_bool_iff in H0. congruence. }
    apply Qle_shift_div_l; lra.
  - destruct (truthy T); reflexivity.
Qed.

Lemma backed_stackable : forall refs vs,
    Forall2 backed refs vs -> Forall stackable vs.
Proof.
  intros refs vs H. induction H as [| i v refs vs Hiv _ IH]; constructor;
    [ | exact IH ].
  destruct i; simpl in Hiv.
  - destruct Hiv as [q [-> Hq]]. exact Hq.
  - subst v. exact I.
Qed.

Lemma fold_left_total : forall (A : Type) (f : A -> Q) l a,
    fold_left (fun y k => y + f k) l a
    == a + fold_right (fun k acc => f k + acc) 0 l.
Proof.
  intros A f l. induction l as [| k l IH]; intro a; simpl; [ ring | ].
  rewrite IH. ring.
Qed.

(** The total of the values the default offset stacks in a row: one when
    the retained quantities of the row have a total that is not zero, and
    that total, zero, otherwise. *)
Lemma total_row_values : forall X keys (row : Row Cat),
    total (row_values X keys row)
    == if truthy (row_total X keys row) then 1 else row_total X keys row.
Proof.
  intros X keys row. unfold row_values.
  set (T := row_total X keys row).
  assert (HT : T == fold_right
                      (fun key acc => or0 (to_num (at_ X (row_get row key))) + acc)
                      0 keys).
  { unfold T, row_total. rewrite fold_left_total. ring. }
  destruct (truthy T) eqn:E.
  - assert (Hne : ~ T == 0).
    { intro H. unfold truthy in E. apply Qeq_bool_iff in H.
      rewrite H in E. discriminate. }
    assert (Hsum : forall l,
               total (List.map
                        (fun key => div (to_num (at_ X (row_get row key))) T) l)
               == fold_right
                    (fun key acc =>
                       or0 (to_num (at_ X (row_get row key))) + acc) 0 l / T).
    { induction l as [| key l IH]; simpl.
      - field. exact Hne.
      - rewrite IH.
        destruct (to_num (at_ X (row_get row key))); simpl; field; exact Hne. }
    rewrite Hsum, <- HT. field. exact Hne.
  - rewrite HT. clear. induction keys as [| key keys IH]; simpl; [ reflexivity | ].
    now rewrite IH.
Qed.

Lemma row_total_nonneg : forall o X Y Z row,
    (forall i0 q,
        In i0 (the_I cat_eqb o X Y Z) -> nth_error X i0 = Some q -> 0 <= q) ->
    In row (the_rollup cat_eqb o X Y Z) ->
    0 <= row_total X (the_zDomain o Z) row.
Proof.
  intros o X Y Z row Hpos Hrow. unfold row_total. rewrite fold_left_total.
  induction (the_zDomain o Z) as [| key keys IH]; simpl; [ lra | ].
  assert (H : 0 <= or0 (to_num (at_ X (row_get row key)))).
  { destruct (row_get row key) as [i0 |] eqn:Hget; simpl; [ | lra ].
    destruct (nth_error X i0) as [q |] eqn:Hq; simpl; [ | lra ].
    apply (Hpos i0 q); [ | assumption ].
    exact (row_get_kept o X Y Z row key i0 Hrow Hget). }
  lra.
Qed.

Lemma flat2_In : forall (series : list (Series Cat)) v,
    In v (flat2 series)
    <-> exists s d, In s series /\ In d s /\ (x1 d = v \/ x2 d = v).
Proof.
  intros series v. unfold flat2. rewrite in_flat_map. split.
  - intros [s [Hs Hv]]. apply in_flat_map in Hv. destruct Hv as [d [Hd Hv]].
    exists s, d. simpl in Hv. tauto.
  - intros [s [d [Hs [Hd Hv]]]]. exists s. split; [ assumption | ].
    apply in_flat_map. exists d. simpl. tauto.
Qed.

Lemma series_length : forall o X Y Z s,
    keeps_data (offset o) ->
    In s (series_of cat_eqb o X Y Z) ->
    List.length s = List.length (the_rollup cat_eqb o X Y Z).
Proof.
  intros o X Y Z s Hkeep Hs.
  pose proof (series_of_shape o X Y Z Hkeep) as Hshape.
  apply (in_map (List.map (fun d => (data d, i d)))) in Hs.
  rewrite Hshape in Hs. apply in_map_iff in Hs. destruct Hs as [key [Hk _]].
  apply (f_equal (@List.length _)) in Hk. rewrite !length_map in Hk.
  congruence.
Qed.

Lemma length_row_bounds_from : forall values before,
    List.length (row_bounds_from before values) = List.length values.
Proof.
  induction values as [| v values IH]; intros before; simpl;
    [ reflexivity | now rewrite IH ].
Qed.

Lemma length_row_bounds : forall values,
    List.length (row_bounds values) = List.length values.
Proof.
  intros [| v values]; simpl; [ reflexivity | ].
  now rewrite length_row_bounds_from.
Qed.

Lemma in_combine_snd : forall (A B : Type) (l : list A) (l' : list B) b,
    List.length l = List.length l' ->
    In b l' -> exists a, In (a, b) (combine l l').
Proof.
  intros A B l. induction l as [| a l IH]; intros [| b' l'] b Hlen Hin;
    try discriminate; [ destruct Hin | ].
  simpl in Hlen. injection Hlen as Hlen. destruct Hin as [-> | Hin].
  - exists a. now left.
  - destruct (IH l' b Hlen Hin) as [a' Ha']. exists a'. now right.
Qed.

(** A point of a column is a cell of the column, and conversely. *)
Lemma column_point : forall (series : list (Series Cat)) j cells s d,
    List.map (fun s => option_map cell_of (nth_error s j)) series
    = List.map Some cells ->
    In s series -> nth_error s j = Some d -> In (cell_of d) cells.
Proof.
  intros series j cells s d Hcol Hs Hd.
  apply (in_map (fun s => option_map cell_of (nth_error s j))) in Hs.
  rewrite Hcol, Hd in Hs. simpl in Hs. apply in_map_iff in Hs.
  destruct Hs as [cell [Hc Hin]]. injection Hc as ->. exact Hin.
Qed.

Lemma column_cell : forall (series : list (Series Cat)) j cells cell,
    List.map (fun s => option_map cell_of (nth_error s j)) series
    = List.map Some cells ->
    In cell cells ->
    exists s d, In s series /\ In d s /\ cell_of d = cell.
Proof.
  intros series j cells cell Hcol Hin.
  apply (in_map Some) in Hin. rewrite <- Hcol in Hin.
  apply in_map_iff in Hin. destruct Hin as [s [Hc Hs]].
  destruct (nth_error s j) as [d |] eqn:Hd; [ | discriminate ].
  simpl in Hc. injection Hc as Hc.
  exists s, d. split; [ assumption | ].
  split; [ eapply nth_error_In; eassumption | assumption ].
Qed.

(** With quantities that are not negative, under the default offset and
    order, the boundaries of all the points fill the interval from 0 to 1 as
    soon as one row has a total that is not zero. *)
Lemma default_extent : forall o X Y Z j row,
    offset o = stackOffsetExpand ->
    order o = stackOrderNone ->
    (forall i0 q,
        In i0 (the_I cat_eqb o X Y Z) -> nth_error X i0 = Some q -> 0 <= q) ->
    nth_error (the_rollup cat_eqb o X Y Z) j = Some row ->
    0 < row_total X (the_zDomain o Z) row ->
    exists lo hi,
      extent (flat2 (series_of cat_eqb o X Y Z)) = Some (lo, hi)
      /\ lo == 0 /\ hi == 1.
Proof.
  intros o X Y Z j row Hoff Hord Hpos Hj HT.
  assert (Hkeep : keeps_data (offset o))
    by (rewrite Hoff; intros sz oz; apply stackOffsetExpand_data).
  pose proof (column_cells o X Y Z j row Hoff Hord Hj) as Hcol.
  assert (Hrow : In row (the_rollup cat_eqb o X Y Z))
    by (eapply nth_error_In; eassumption).
  pose proof (row_values_backed o X Y Z row Hpos Hrow (Qlt_le_weak _ _ HT))
    as Hbacked.
  assert (Hne : row_values X (the_zDomain o Z) row <> []).
  { unfold row_values. destruct (the_zDomain o Z); [ | discriminate ].
    unfold row_total in HT. simpl in HT. lra. }
  assert (Htot : total (row_values X (the_zDomain o Z) row) == 1).
  { rewrite total_row_values.
    replace (truthy (row_total X (the_zDomain o Z) row)) with true;
      [ reflexivity | ].
    symmetry. unfold truthy.
    destruct (Qeq_bool (row_total X (the_zDomain o Z) row) 0) eqn:E;
      [ | reflexivity ].
    apply Qeq_bool_iff in E. lra. }
  assert (Hlen : List.length (List.map (row_get row) (the_zDomain o Z))
                 = List.length (row_bounds (row_values X (the_zDomain o Z) row))).
  { rewrite length_row_bounds. unfold row_values. now rewrite !length_map. }
  destruct (row_bounds_ends _ Hne) as [[ab0 [Hab0 H0]] [ab1 [u1 [Hab1 [Hu1 Hu1']]]]].
  destruct (in_combine_snd _ _ _ _ ab0 Hlen Hab0) as [i0 Hc0].
  destruct (in_combine_snd _ _ _ _ ab1 Hlen Hab1) as [i1 Hc1].
  destruct (column_cell _ j _ _ Hcol Hc0) as [s0 [d0 [Hs0 [Hd0 He0]]]].
  destruct (column_cell _ j _ _ Hcol Hc1) as [s1 [d1 [Hs1 [Hd1 He1]]]].
  injection He0 as _ He0. injection He1 as _ He1.
  apply (extent_interval _ 0 1 0 u1).
  - intros w Hw. apply flat2_In in Hw.
    destruct Hw as [s [d [Hs [Hd Hw]]]].
    destruct (In_nth_error _ _ Hd) as [j' Hj'].
    assert (Hlt : (j' < List.length (the_rollup cat_eqb o X Y Z))%nat).
    { rewrite <- (series_length o X Y Z s Hkeep Hs).
      apply nth_error_Some. congruence. }
    destruct (nth_error (the_rollup cat_eqb o X Y Z) j') as [row' |] eqn:Hrow';
      [ | apply nth_error_None in Hrow'; lia ].
    assert (Hin' : In row' (the_rollup cat_eqb o X Y Z))
      by (eapply nth_error_In; eassumption).
    pose proof (row_total_nonneg o X Y Z row' Hpos Hin') as HT'.
    pose proof (row_values_backed o X Y Z row' Hpos Hin' HT') as Hb'.
    pose proof (column_cells o X Y Z j' row' Hoff Hord Hrow') as Hcol'.
    pose proof (column_point _ j' _ s d Hcol' Hs Hj') as Hcell.
    unfold row_cells in Hcell. apply in_combine_r in Hcell.
    pose proof (row_bounds_in _ (bounds d) w (backed_stackable _ _ Hb') Hcell)
      as Hrange.
    assert (Htot' : total (row_values X (the_zDomain o Z) row') <= 1).
    { rewrite total_row_values.
      destruct (truthy (row_total X (the_zDomain o Z) row')) eqn:E; [ lra | ].
      unfold truthy in E.
      destruct (Qeq_bool (row_total X (the_zDomain o Z) row') 0) eqn:F;
        [ | discriminate ].
      apply Qeq_bool_iff in F. lra. }
    assert (H : 0 <= w <= total (row_values X (the_zDomain o Z) row'))
      by (apply Hrange; unfold bounds; simpl; tauto).
    lra.
  - apply flat2_In. exists s0, d0. repeat split; try assumption.
    left. rewrite <- He0 in H0. exact H0.
  - reflexivity.
  - apply flat2_In. exists s1, d1. repeat split; try assumption.
    rewrite <- He1 in Hu1. unfold bounds in Hu1. simpl in Hu1. exact Hu1.
  - lra.
Qed.

Lemma total_row_values_one : forall X keys (row : Row Cat),
    0 < row_total X keys row -> total (row_values X keys row) == 1.
Proof.
  intros X keys row HT. rewrite total_row_values.
  replace (truthy (row_total X keys row)) with true; [ reflexivity | ].
  symmetry. unfold truthy.
  destruct (Qeq_bool (row_total X keys row) 0) eqn:E; [ | reflexivity ].
  apply Qeq_bool_iff in E. lra.
Qed.

(** The length of a row, read off the layers, is the length of the cells of
    its column. *)
Lemma row_length_cells : forall o X Y Z series layers j cells,
    Forall2
      (fun s l =>
         s <> [] /\ layer_datum l = s
         /\ layer_rects l = List.map (rect_of cat_eqb o X Y Z) s
         /\ layer_images l = List.map (image_of cat_eqb o X Y Z) s)
      series layers ->
    List.map (fun s => option_map cell_of (nth_error s j)) series
    = List.map Some cells ->
    row_length layers j = cells_length (xScale cat_eqb o X Y Z) cells.
Proof.
  intros o X Y Z series layers j cells H. revert cells.
  induction H as [| s l series layers [_ [_ [Hrects _]]] _ IH]; intros cells Hcol.
  - destruct cells; [ reflexivity | discriminate ].
  - destruct cells as [| cell cells]; [ discriminate | ].
    simpl in Hcol. injection Hcol as Hcell Hrest.
    unfold row_length, cells_length in *. cbn [fold_right].
    rewrite (IH cells Hrest), Hrects, nth_error_map.
    destruct (nth_error s j) as [d |]; [ | discriminate ].
    simpl in Hcell. injection Hcell as <-. reflexivity.
Qed.

(** The lengths of the segments of a row under the default layout: with
    quantities that are not negative, a row whose retained quantities have a
    positive total is covered from one end of the pixel range to the other
    by its segments that stand for a record. *)
Lemma row_partition : forall (ds : list D) o svg X Y Z j row,
    D3.map ds (x o) = Ok X ->
    D3.map ds (y o) = Ok Y ->
    D3.map ds (z o) = Ok Z ->
    offset o = stackOffsetExpand ->
    order o = stackOrderNone ->
    xType o = scaleLinear ->
    xDomain o = None ->
    StackedBarChartSVG cat_eqb ds o = Ok svg ->
    (forall i0 q,
        In i0 (the_I cat_eqb o X Y Z) -> nth_error X i0 = Some q -> 0 <= q) ->
    nth_error (the_rollup cat_eqb o X Y Z) j = Some row ->
    0 < row_total X (the_zDomain o Z) row ->
    num_eq (row_length (svg_layers svg) j)
      (Fin (Qabs (snd (the_xRange o) - fst (the_xRange o)))).
Proof.
  intros ds o svg X Y Z j row HX HY HZ Hoff Hord HxT HxD Hsvg Hpos Hj HT.
  unfold StackedBarChartSVG in Hsvg. rewrite HX, HY, HZ in Hsvg.
  simpl in Hsvg.
  destruct (render_inv _ _ _ _ _ Hsvg) as [c [Hls _]].
  apply layers_of_inv in Hls.
  rewrite (row_length_cells o X Y Z _ _ j _ Hls
             (column_cells o X Y Z j row Hoff Hord Hj)).
  destruct (default_extent o X Y Z j row Hoff Hord Hpos Hj HT)
    as [lo [hi [Hext [Hlo Hhi]]]].
  assert (Hrow : In row (the_rollup cat_eqb o X Y Z))
    by (eapply nth_error_In; eassumption).
  pose proof (row_values_backed o X Y Z row Hpos Hrow (Qlt_le_weak _ _ HT))
    as Hbacked.
  unfold xScale, the_xDomain. rewrite HxT, HxD, Hext.
  destruct (the_xRange o) as [r0 r1]. cbn [fst snd].
  destruct (cells_row_length (scaleLinear (Fin lo, Fin hi) (r0, r1)) r0 (r1 - r0)
              (fun v => scaleLinear_unit lo hi r0 r1 v Hlo Hhi) _ _ Hbacked)
    as [w [Hw Hw']].
  unfold row_cells. rewrite Hw. cbn [num_eq].
  rewrite Hw', (total_row_values_one X _ row HT). ring.
Qed.

(** *** C2: what a dropped record leaves behind *)

Lemma Forall2_in_r : forall (A B : Type) (P : A -> B -> Prop) l l' b,
    Forall2 P l l' -> In b l' -> exists a, In a l /\ P a b.
Proof.
  intros A B P l l' b H. induction H as [| a0 b0 l l' Hab _ IH]; intro Hin;
    [ destruct Hin | ].
  destruct Hin as [<- | Hin].
  - exists a0. split; [ now left | assumption ].
  - destruct (IH Hin) as [a [Ha HP]]. exists a. split; [ now right | assumption ].
Qed.

Lemma Forall2_at : forall (A B : Type) (P : A -> B -> Prop) l l' p a,
    Forall2 P l l' -> nth_error l p = Some a ->
    exists b, nth_error l' p = Some b /\ P a b.
Proof.
  intros A B P l l' p a H. revert p.
  induction H as [| a0 b0 l l' Hab _ IH]; intros p Hp.
  - destruct p; discriminate.
  - destruct p as [| p]; simpl in *.
    + injection Hp as <-. now exists b0.
    + now apply IH.
Qed.

(** C2 (amended).  In every configuration, exactly the indices of the
    records whose category and series both belong to the resolved domains
    are kept, and when the series-domain is not supplied the series value of
    every record, kept or not, is a member of the series-domain.  When the
    builder returns an artifact, under an offset that leaves the data of the
    points in place (as every offset of d3 does), every rectangle and every
    image is that of a point of a layer; a point refers back to no record or
    to a kept record, and it stands in the row of the category of a kept
    record: a record that is not kept is the back-reference of no segment,
    and a category outside the category-domain has no row; and when the
    series-domain is not supplied, the series value of every record, kept or
    not, has its layer in the artifact, with a rectangle for each row. *)
Theorem dropped_records : forall (ds : list D) o X Y Z,
    D3.map ds (x o) = Ok X ->
    D3.map ds (y o) = Ok Y ->
    D3.map ds (z o) = Ok Z ->
    (forall k,
        In k (the_I cat_eqb o X Y Z)
        <-> (k < List.length X)%nat
            /\ (exists c, nth_error Y k = Some c
                          /\ In c (the_yDomain cat_eqb o Y))
            /\ (exists v, nth_error Z k = Some v /\ In v (the_zDomain o Z)))
    /\ (zDomain o = None ->
        forall k v, nth_error Z k = Some v -> In v (the_zDomain o Z))
    /\ (forall svg,
           keeps_data (offset o) ->
           StackedBarChartSVG cat_eqb ds o = Ok svg ->
           (forall l,
               In l (svg_layers svg) ->
               layer_rects l
               = List.map (rect_of cat_eqb o X Y Z) (layer_datum l)
               /\ layer_images l
                  = List.map (image_of cat_eqb o X Y Z) (layer_datum l)
               /\ forall d,
                   In d (layer_datum l) ->
                   (forall k, i d = Some k -> In k (the_I cat_eqb o X Y Z))
                   /\ exists c j,
                       fst (data d) = Some c
                       /\ In c (the_yDomain cat_eqb o Y)
                       /\ In j (the_I cat_eqb o X Y Z)
                       /\ nth_error Y j = Some c)
           /\ (zDomain o = None ->
               forall k v,
                 nth_error Z k = Some v ->
                 exists p l,
                   nth_error (the_zDomain o Z) p = Some v
                   /\ nth_error (svg_layers svg) p = Some l
                   /\ List.length (layer_rects l)
                      = List.length (the_rollup cat_eqb o X Y Z))).
Proof.
  intros ds o X Y Z HX HY HZ.
  assert (Hmember : zDomain o = None ->
                    forall k v, nth_error Z k = Some v ->
                                In v (the_zDomain o Z)).
  { intros HzD k v Hk. unfold the_zDomain. rewrite HzD.
    apply (InternSet_In _ _ Z.eqb_eq). eapply nth_error_In, Hk. }
  split; [ apply the_I_spec | ].
  split; [ exact Hmember | ].
  intros svg Hkeep Hsvg.
  unfold StackedBarChartSVG in Hsvg. rewrite HX, HY, HZ in Hsvg.
  simpl in Hsvg.
  split.
  - intros l Hl.
    destruct (drawn_elements _ _ _ _ _ _ Hsvg Hl) as [_ [Hre Him]].
    split; [ assumption | ]. split; [ assumption | ].
    intros d Hd.
    destruct (Forall2_in_r _ _ _ _ _ l (layers_grid o X Y Z svg Hkeep Hsvg)
                Hl) as [key [_ [_ Hpts]]].
    apply (in_map (fun d => (data d, i d))) in Hd. rewrite Hpts in Hd.
    apply in_map_iff in Hd. destruct Hd as [row [Hrow Hin]].
    injection Hrow as Hdata Hi. split.
    + intros k Hk. rewrite <- Hi in Hk.
      exact (row_get_kept o X Y Z row key k Hin Hk).
    + destruct (the_rollup_kept o X Y Z row Hin) as [c [j [Hc [Hj HYj]]]].
      exists c, j. rewrite <- Hdata. repeat split; try assumption.
      apply the_I_spec in Hj. destruct Hj as [_ [[c' [Hc' Hdom]] _]].
      congruence.
  - intros HzD k v Hk.
    destruct (In_nth_error _ _ (Hmember HzD k v Hk)) as [p Hp].
    destruct (Forall2_at _ _ _ _ _ p v (layers_grid o X Y Z svg Hkeep Hsvg)
                Hp) as [l [Hl [Hre Hpts]]].
    exists p, l. split; [ assumption | ]. split; [ assumption | ].
    rewrite Hre, length_map.
    apply (f_equal (@List.length _)) in Hpts.
    now rewrite !length_map in Hpts.
Qed.

End Facts.

End ChartFacts.

(* ------------------------------------------------------------------ *)
(** ** The scenarios *)

Module ScenarioFacts.

Import D3 Chart ChartFacts Scenarios.

(** Scenario 4 through [derived_height]: four categories give an outer
    height of 4 x 25 plus the margins. *)
Lemma derived_height_witness :
  exists svg,
    StackedBarChartSVG String.eqb scenario2
      (with_yDomain options [A; B; "C"; "D"]) = Ok svg
    /\ svg_viewBox svg = (0, 0, 640, 4 * 25 + 30 + 0).
Proof.
  assert (E : exists svg,
             StackedBarChartSVG String.eqb scenario2
               (with_yDomain options [A; B; "C"; "D"]) = Ok svg)
    by (vm_compute; eexists; reflexivity).
  destruct E as [svg E]. exists svg. split; [ exact E | ].
  destruct (derived_height _ _ String.eqb String.eqb_eq scenario2
              (with_yDomain options [A; B; "C"; "D"]) svg eq_refl E)
    as [Y [HY [_ [_ Hv]]]].
  vm_compute in HY. injection HY as <-. exact Hv.
Defined.

(** When the supplied category domain drops every record while the series
    domain keeps a member, the builder throws instead of returning a chart
    without rows: each series is left without a point, and the [fill]
    accessor destructures the first point of its series. *)
Lemma all_records_dropped_throws :
  the_I String.eqb (with_yDomain options [A]) [3] [B] [1%Z] = []
  /\ StackedBarChartSVG String.eqb outsider (with_yDomain options [A])
     = Throw TypeError.
Proof. split; vm_compute; reflexivity. Qed.





(** C10, as stated, fails: where a row has no record for a series the
    rectangle's width is [NaN], which is not a non-negative number. *)
Lemma sparse_width_not_a_number :
  exists svg l r,
    StackedBarChartSVG String.eqb sparse options = Ok svg
    /\ In l (svg_layers svg) /\ In r (layer_rects l)
    /\ rect_width r = NaN
    /\ ~ (exists w, rect_width r = Fin w /\ 0 <= w).
Proof.
  assert (E : exists svg, StackedBarChartSVG String.eqb sparse options = Ok svg)
    by (vm_compute; eexists; reflexivity).
  destruct E as [svg E]. exists svg.
  assert (H : exists l r, In l (svg_layers svg) /\ In r (layer_rects l)
                          /\ rect_width r = NaN).
  { vm_compute in E. injection E as <-.
    eexists. eexists. split; [ left; reflexivity | ].
    split; [ right; left; reflexivity | reflexivity ]. }
  destruct H as [l [r [Hl [Hr Hw]]]]. exists l, r.
  repeat (split; [ assumption | ]).
  intros [w [Hw' _]]. congruence.
Qed.

Lemma rect_image_geometry_witness :
  exists svg,
    StackedBarChartSVG String.eqb scenario1 options = Ok svg
    /\ forall l,
        In l (svg_layers svg) ->
        Forall2
          (fun r im =>
             image_x im = rect_x r /\ image_y im = rect_y r
             /\ image_width im = rect_width r
             /\ image_height im = rect_height r)
          (layer_rects l) (layer_images l).
Proof.
  assert (E : exists svg, StackedBarChartSVG String.eqb scenario1 options = Ok svg)
    by (vm_compute; eexists; reflexivity).
  destruct E as [svg E]. exists svg. split; [ exact E | ].
  destruct (rect_image_geometry _ _ String.eqb scenario1 options svg E)
    as [X [Y [Z [_ [_ [_ H]]]]]].
  intros l Hl. specialize (H l Hl).
  induction H as [| r im rs ims Hh _ IH]; constructor; [ | exact IH ].
  simpl in Hh. tauto.
Defined.



(** The default options satisfy the assumption of C6 and C9. *)
Lemma options_keep_data : keeps_data (offset options).
Proof. intros sz oz. apply stackOffsetExpand_data. Qed.

(** In scenario 3 the widths are in the ratio 3 : 1 of the first record of
    ("A", 1) and the record of ("A", 2); the quantity 5 of the second record
    of ("A", 1) does not enter. *)
Lemma scenario3_not_aggregated :
  rect_attrs (StackedBarChartSVG String.eqb scenario3 options)
  = Some [[(Fin 200, Some (125 # 4), Fin 315, 45 # 2)];
          [(Fin 515, Some (125 # 4), Fin 105, 45 # 2)]].
Proof. vm_compute. reflexivity. Qed.

(** C2, as stated, fails: the record of category "B" is dropped by the
    supplied category domain, and yet the artifact has a second layer, that
    of its series value 2, which the artifact of the kept record alone does
    not have. *)
Lemma dropped_record_adds_layer :
  the_I String.eqb (with_yDomain options [A]) [3; 1] [A; B] [1; 2]%Z = [0%nat]
  /\ (exists svg,
         StackedBarChartSVG String.eqb sparse (with_yDomain options [A])
         = Ok svg
         /\ List.map (fun l => List.length (layer_rects l)) (svg_layers svg)
            = [1%nat; 1%nat])
  /\ (exists svg,
         StackedBarChartSVG String.eqb [mkResponse A 1 3]
           (with_yDomain options [A]) = Ok svg
         /\ List.map (fun l => List.length (layer_rects l)) (svg_layers svg)
            = [1%nat]).
Proof.
  split; [ reflexivity | ].
  split; vm_compute; eexists; split; reflexivity.
Qed.

(** The offset has to leave the data of the points in place: under an
    offset that rewrites it, the dropped record 1 of the sparse data is
    referred back to by a point of the artifact; under an offset that
    doubles the points, the pair ("A", 1) of scenario 3 has two
    rectangles. *)
Lemma offset_must_keep_data :
  (exists svg l d,
      StackedBarChartSVG String.eqb sparse
        (with_offset (with_yDomain options [A]) relabel) = Ok svg
      /\ the_I String.eqb (with_offset (with_yDomain options [A]) relabel)
           [3; 1] [A; B] [1; 2]%Z = [0%nat]
      /\ nth_error (svg_layers svg) 0 = Some l
      /\ nth_error (layer_datum l) 0 = Some d
      /\ i d = Some 1%nat)
  /\ (exists svg,
         StackedBarChartSVG String.eqb scenario3 (with_offset options doubled)
         = Ok svg
         /\ List.length
              (rects_of_pair String.eqb [1; 2]%Z (svg_layers svg) A 1)
            = 2%nat).
Proof.
  split.
  - assert (E : exists svg,
               StackedBarChartSVG String.eqb sparse
                 (with_offset (with_yDomain options [A]) relabel) = Ok svg)
      by (vm_compute; eexists; reflexivity).
    destruct E as [svg E].
    assert (H : exists l d,
               nth_error (svg_layers svg) 0 = Some l
               /\ nth_error (layer_datum l) 0 = Some d
               /\ i d = Some 1%nat).
    { vm_compute in E. injection E as <-.
      eexists. eexists. repeat split. }
    destruct H as [l [d H]]. exists svg, l, d.
    split; [ exact E | ]. split; [ reflexivity | exact H ].
  - assert (E : exists svg,
               StackedBarChartSVG String.eqb scenario3
                 (with_offset options doubled) = Ok svg)
      by (vm_compute; eexists; reflexivity).
    destruct E as [svg E]. exists svg. split; [ exact E | ].
    vm_compute in E. injection E as <-. reflexivity.
Qed.

(** The sparse data under the category domain ["A"]: only record 0 is
    referred back to, and the series value 2 of the dropped record 1 has
    its layer, the second. *)
Lemma dropped_records_witness :
  exists svg,
    StackedBarChartSVG String.eqb sparse (with_yDomain options [A]) = Ok svg
    /\ (forall l d k,
           In l (svg_layers svg) -> In d (layer_datum l) -> i d = Some k ->
           k = 0%nat)
    /\ exists p l,
        nth_error (the_zDomain (with_yDomain options [A]) [1; 2]%Z) p
        = Some 2%Z
        /\ nth_error (svg_layers svg) p = Some l.
Proof.
  assert (E : exists svg,
             StackedBarChartSVG String.eqb sparse (with_yDomain options [A])
             = Ok svg)
    by (vm_compute; eexists; reflexivity).
  destruct E as [svg E]. exists svg. split; [ exact E | ].
  destruct (dropped_records _ _ String.eqb String.eqb_eq sparse
              (with_yDomain options [A]) [3; 1] [A; B] [1; 2]%Z
              eq_refl eq_refl eq_refl)
    as [_ [_ Hsvg]].
  destruct (Hsvg svg options_keep_data E) as [Hlayers Hseries].
  split.
  - intros l d k Hl Hd Hk.
    destruct (Hlayers l Hl) as [_ [_ Hpoints]].
    destruct (Hpoints d Hd) as [Hkept _].
    specialize (Hkept k Hk). vm_compute in Hkept.
    destruct Hkept as [H | []]. now symmetry.
  - destruct (Hseries eq_refl 1%nat 2%Z eq_refl) as [p [l [Hp [Hl _]]]].
    exists p, l. now split.
Defined.


End ScenarioFacts.

(* ------------------------------------------------------------------ *)
(** ** Sequences of log calls *)

Module LoggerSequences.

Import AuthConfig.

Lemma written_sink : forall level message flag,
    written level message flag
    = if flag then []
      else match sink_of level with
           | Some s => [(s, message)]
           | None => []
           end.
Proof. intros [] message []; reflexivity. Qed.

(** X1.  After any sequence of calls the console holds what it held before
    followed, in call order, by one entry for each call that is not flagged
    and whose level has a [case]: the message, unchanged, under the sink of
    its level.  Hence every entry written comes from an unflagged call, and
    a flagged message or a [Trace] message never reaches the console. *)
Theorem log_all_entries : forall calls c,
    log_all calls c
    = c ++ flat_map
             (fun call : Call =>
                if snd call then []
                else match sink_of (fst (fst call)) with
                     | Some s => [(s, snd (fst call))]
                     | None => []
                     end)
             calls
    /\ (forall s message,
           In (s, message) (log_all calls []) ->
           exists level,
             In (level, message, false) calls /\ sink_of level = Some s).
Proof.
  assert (H : forall calls c,
             log_all calls c
             = c ++ flat_map
                      (fun call : Call =>
                         if snd call then []
                         else match sink_of (fst (fst call)) with
                              | Some s => [(s, snd (fst call))]
                              | None => []
                              end)
                      calls).
  { induction calls as [| [[level message] flag] calls IH]; intro c.
    - simpl. now rewrite app_nil_r.
    - change (log_all ((level, message, flag) :: calls) c)
        with (log_all calls (loggerCallback level message flag c)).
      rewrite IH, AuthConfigFacts.loggerCallback_appends, written_sink.
      cbn [flat_map fst snd]. now rewrite <- app_assoc. }
  intros calls c. split; [ apply H | ].
  intros s message Hin. rewrite H in Hin. simpl in Hin.
  apply in_flat_map in Hin. destruct Hin as [[[level m] flag] [Hcall Hin]].
  simpl in Hin. destruct flag; [ destruct Hin | ].
  destruct (sink_of level) as [s' |] eqn:E; [ | destruct Hin ].
  destruct Hin as [Heq | []]. injection Heq as -> ->.
  exists level. split; assumption.
Qed.

End LoggerSequences.

(* ------------------------------------------------------------------ *)
(** ** More on the chart builder *)

Module ChartMore.

Import D3 Chart ChartFacts.

(** *** Sets and groups in first-seen order *)

Section FirstSeen.

Variable K : Type.
Variable eqb : K -> K -> bool.
Hypothesis eqb_eq : forall a b, eqb a b = true <-> a = b.

Lemma intern_fold_fresh : forall values acc,
    NoDup (acc ++ values) ->
    fold_left (intern_add eqb) values acc = acc ++ values.
Proof.
  induction values as [| v values IH]; intros acc Hnd; simpl.
  - now rewrite app_nil_r.
  - assert (Hv : has eqb acc v = false).
    { apply (has_not_In _ _ eqb_eq). intro Hin.
      apply NoDup_remove_2 in Hnd. apply Hnd, in_or_app. now left. }
    unfold intern_add at 2. rewrite Hv.
    replace (acc ++ v :: values) with ((acc ++ [v]) ++ values)
      by (rewrite <- app_assoc; reflexivity).
    apply IH. rewrite <- app_assoc. exact Hnd.
Qed.

(** A list without duplicates is its own [InternSet], in its own order. *)
Lemma InternSet_NoDup_id : forall values,
    NoDup values -> InternSet eqb values = values.
Proof. intros values H. exact (intern_fold_fresh values [] H). Qed.

Lemma InternSet_nil : forall values,
    InternSet eqb values = [] <-> values = [].
Proof.
  intros values. split; [ | intros ->; reflexivity ].
  intro H. destruct values as [| v values]; [ reflexivity | ].
  assert (Hin : In v (InternSet eqb (v :: values)))
    by (apply (InternSet_In _ _ eqb_eq); now left).
  rewrite H in Hin. destruct Hin.
Qed.

Lemma group_keys_fold : forall (V : Type) (keyof : V -> K) values
    (g : list (K * list V)),
    List.map fst
      (fold_left (fun groups v => group_push eqb groups (keyof v) v) values g)
    = fold_left (intern_add eqb) (List.map keyof values) (List.map fst g).
Proof.
  intros V keyof values. induction values as [| v values IH]; intro g; simpl;
    [ reflexivity | ].
  rewrite IH, keys_group_push. reflexivity.
Qed.

(** The keys of a grouping are the distinct keys of the values, first seen
    first. *)
Lemma group_keys : forall (V : Type) (keyof : V -> K) values,
    List.map fst (group eqb keyof values)
    = InternSet eqb (List.map keyof values).
Proof. intros V keyof values. apply (group_keys_fold V keyof values []). Qed.

End FirstSeen.

Section More.

Variable D : Type.
Variable Cat : Type.
Variable cat_eqb : Cat -> Cat -> bool.
Hypothesis cat_eqb_eq : forall a b, cat_eqb a b = true <-> a = b.

Implicit Types (o : Options D Cat) (svg : Svg Cat).

(** The rows of the rollup are the categories of the kept records, each
    once, first seen first. *)
Lemma the_rollup_rows : forall o X Y Z,
    List.map fst (the_rollup cat_eqb o X Y Z)
    = InternSet (option_eqb cat_eqb)
        (List.map (fun k => nth_error Y k) (the_I cat_eqb o X Y Z)).
Proof.
  intros o X Y Z. unfold the_rollup, rollup. rewrite map_map. simpl.
  apply group_keys.
Qed.

Lemma the_rollup_nil : forall o X Y Z,
    the_rollup cat_eqb o X Y Z = [] <-> the_I cat_eqb o X Y Z = [].
Proof.
  intros o X Y Z. split; intro H.
  - pose proof (the_rollup_rows o X Y Z) as Hrows. rewrite H in Hrows.
    symmetry in Hrows. simpl in Hrows.
    apply (proj1 (InternSet_nil _ _ (option_eqb_eq _ _ cat_eqb_eq) _))
      in Hrows.
    now apply map_eq_nil in Hrows.
  - unfold the_rollup, rollup. now rewrite H.
Qed.

Lemma layers_of_throw : forall o X Y Z series c e,
    layers_of cat_eqb o X Y Z c series = Throw e ->
    e = TypeError /\ In [] series.
Proof.
  intros o X Y Z series. induction series as [| s series IH]; intros c e;
    simpl; [ discriminate | ].
  destruct s as [| d s]; simpl.
  - intro H. injection H as <-. split; [ reflexivity | now left ].
  - destruct (layers_of cat_eqb o X Y Z _ series) as [r |] eqn:E; simpl;
      [ discriminate | ].
    intro H. injection H as <-. destruct (IH _ _ E) as [He Hin].
    split; [ assumption | now right ].
Qed.

(** The index loop of [d3.stack] passes exactly when each of the first [n]
    entries of the order is there and is an index below [n]. *)
Lemma stack_index_spec : forall n oz,
    stack_index n oz = Ok tt
    <-> forall k, (k < n)%nat ->
          exists p, nth_error oz k = Some p /\ (p < n)%nat.
Proof.
  intros n oz. unfold stack_index.
  destruct (forallb _ (seq 0 n)) eqn:E.
  - split; [ intros _ | reflexivity ].
    intros k Hk. rewrite forallb_forall in E.
    specialize (E k). rewrite in_seq in E.
    destruct (nth_error oz k) as [p |]; [ | discriminate E; lia ].
    exists p. split; [ reflexivity | ]. apply Nat.ltb_lt, E. lia.
  - split; [ discriminate | ]. intro H. exfalso.
    assert (E' : forallb
                   (fun i => match nth_error oz i with
                             | Some k => (k <? n)%nat
                             | None => false
                             end) (seq 0 n) = true).
    { apply forallb_forall. intros k Hk. apply in_seq in Hk.
      destruct (H k) as [p [-> Hp]]; [ lia | ]. now apply Nat.ltb_lt. }
    congruence.
Qed.

Lemma stack_index_cases : forall n oz,
    stack_index n oz = Ok tt \/ stack_index n oz = Throw TypeError.
Proof.
  intros n oz. unfold stack_index. destruct (forallb _ _); [ now left | now right ].
Qed.

(** Under an offset that keeps the data of the points, every series has a
    point exactly when a record is kept or there is no series at all. *)
Lemma series_nonempty : forall o X Y Z,
    keeps_data (offset o) ->
    (the_I cat_eqb o X Y Z <> [] \/ the_zDomain o Z = []
     <-> Forall (fun s => s <> []) (series_of cat_eqb o X Y Z)).
Proof.
  intros o X Y Z Hkeep.
  pose proof (series_of_shape _ _ cat_eqb o X Y Z Hkeep) as Hshape.
  split.
  - intros [HI | Hz].
    + apply Forall_forall. intros s Hs Hnil.
      pose proof (series_length _ _ cat_eqb o X Y Z s Hkeep Hs) as Hlen.
      rewrite Hnil in Hlen. simpl in Hlen.
      apply HI, the_rollup_nil.
      destruct (the_rollup cat_eqb o X Y Z); [ reflexivity | discriminate ].
    + rewrite (no_keys_no_series _ _ cat_eqb o X Y Z Hz). constructor.
  - intro Hne.
    destruct (the_zDomain o Z) as [| key keys]; [ now right | left ].
    intro HI. apply the_rollup_nil in HI. rewrite HI in Hshape.
    destruct (series_of cat_eqb o X Y Z) as [| s series];
      [ discriminate | ].
    simpl in Hshape. injection Hshape as Hs0 _.
    inversion Hne as [| ? ? Hs _]; subst.
    destruct s; [ now apply Hs | discriminate ].
Qed.


(** *** The shape of the artifact *)

Lemma Forall2_nth_r : forall (A B : Type) (P : A -> B -> Prop) l l' p b,
    Forall2 P l l' -> nth_error l' p = Some b ->
    exists a, nth_error l p = Some a /\ P a b.
Proof.
  intros A B P l l' p b H. revert p.
  induction H as [| a0 b0 l l' Hab _ IH]; intros p Hp.
  - destruct p; discriminate.
  - destruct p as [| p]; simpl in *.
    + injection Hp as <-. now exists a0.
    + now apply IH.
Qed.

Lemma Forall2_nth_l : forall (A B : Type) (P : A -> B -> Prop) l l' p a,
    Forall2 P l l' -> nth_error l p = Some a ->
    exists b, nth_error l' p = Some b /\ P a b.
Proof.
  intros A B P l l' p a H. revert p.
  induction H as [| a0 b0 l l' Hab _ IH]; intros p Hp.
  - destruct p; discriminate.
  - destruct p as [| p]; simpl in *.
    + injection Hp as <-. now exists b0.
    + now apply IH.
Qed.

(** X3.  Under an offset that keeps the data of the points, the artifact
    has one layer for each member of the series domain, in its order, and
    every layer has one rectangle and one image for each category that has a
    kept record: the same categories in every layer, each once, in the order
    in which the kept records first show them. *)
Theorem artifact_shape : forall (ds : list D) o svg X Y Z,
    D3.map ds (x o) = Ok X ->
    D3.map ds (y o) = Ok Y ->
    D3.map ds (z o) = Ok Z ->
    keeps_data (offset o) ->
    StackedBarChartSVG cat_eqb ds o = Ok svg ->
    List.length (svg_layers svg) = List.length (the_zDomain o Z)
    /\ forall l,
        In l (svg_layers svg) ->
        List.map (fun r => fst (data (rect_datum r))) (layer_rects l)
        = InternSet (option_eqb cat_eqb)
            (List.map (fun k => nth_error Y k) (the_I cat_eqb o X Y Z))
        /\ List.map (fun im => fst (data (image_datum im))) (layer_images l)
           = InternSet (option_eqb cat_eqb)
               (List.map (fun k => nth_error Y k) (the_I cat_eqb o X Y Z)).
Proof.
  intros ds o svg X Y Z HX HY HZ Hkeep Hsvg.
  unfold StackedBarChartSVG in Hsvg. rewrite HX, HY, HZ in Hsvg.
  simpl in Hsvg.
  pose proof (layers_grid _ _ cat_eqb o X Y Z svg Hkeep Hsvg) as Hgrid.
  split; [ symmetry; eapply Forall2_length; eassumption | ].
  intros l Hl.
  destruct (Forall2_in_r _ _ _ _ _ l Hgrid Hl) as [key [_ [Hrects Hpts]]].
  destruct (drawn_elements _ _ cat_eqb o X Y Z svg l Hsvg Hl) as [_ [_ Him]].
  assert (Hcats : List.map (fun d => fst (data d)) (layer_datum l)
                  = List.map fst (the_rollup cat_eqb o X Y Z)).
  { apply (f_equal (List.map (fun di : Row Cat * option nat => fst (fst di))))
      in Hpts.
    rewrite !map_map in Hpts. exact Hpts. }
  rewrite Hrects, Him, !map_map.
  split; (etransitivity; [ | etransitivity;
                              [ exact Hcats | apply the_rollup_rows ] ]);
    apply map_ext; reflexivity.
Qed.

(** *** The domains *)

Lemma filter_all : forall (A : Type) (f : A -> bool) l,
    (forall a, In a l -> f a = true) -> filter f l = l.
Proof.
  intros A f l. induction l as [| a l IH]; intro H; simpl; [ reflexivity | ].
  rewrite (H a (or_introl eq_refl)). f_equal. apply IH.
  intros b Hb. apply H. now right.
Qed.

(** X4.  When neither the category domain nor the series domain is
    supplied, the filter drops nothing: the kept indices are those of all
    the records, in input order. *)
Theorem default_domains_keep_all : forall (ds : list D) o X Y Z,
    D3.map ds (x o) = Ok X ->
    D3.map ds (y o) = Ok Y ->
    D3.map ds (z o) = Ok Z ->
    yDomain o = None ->
    zDomain o = None ->
    the_I cat_eqb o X Y Z = seq 0 (List.length ds).
Proof.
  intros ds o X Y Z HX HY HZ Hy Hz.
  pose proof (map_from_length _ _ _ _ _ _ HX) as HlX.
  pose proof (map_from_length _ _ _ _ _ _ HY) as HlY.
  pose proof (map_from_length _ _ _ _ _ _ HZ) as HlZ.
  unfold the_I, range. rewrite HlX. apply filter_all.
  intros k Hk. apply in_seq in Hk.
  destruct (nth_error Y k) as [c |] eqn:Hc;
    [ | apply nth_error_None in Hc; lia ].
  destruct (nth_error Z k) as [v |] eqn:Hv;
    [ | apply nth_error_None in Hv; lia ].
  unfold has_at, the_yDomain, the_zDomain. rewrite Hy, Hz.
  apply andb_true_iff. split.
  - apply (has_In _ _ cat_eqb_eq), (InternSet_In _ _ cat_eqb_eq).
    eapply nth_error_In; eassumption.
  - apply (has_In _ _ Z.eqb_eq), (InternSet_In _ _ Z.eqb_eq).
    eapply nth_error_In; eassumption.
Qed.

(** X5.  A supplied domain without duplicates is used as it is, in the
    order given: the category domain for the bands, the series domain for
    the layers.  Resolving a resolved domain again changes nothing. *)
Theorem supplied_domains_kept : forall o Y Z,
    (forall d, yDomain o = Some d -> NoDup d -> the_yDomain cat_eqb o Y = d)
    /\ (forall d, zDomain o = Some d -> NoDup d -> the_zDomain o Z = d)
    /\ InternSet cat_eqb (the_yDomain cat_eqb o Y) = the_yDomain cat_eqb o Y
    /\ InternSet Z.eqb (the_zDomain o Z) = the_zDomain o Z.
Proof.
  intros o Y Z. unfold the_yDomain, the_zDomain. repeat split.
  - intros d -> Hd. now apply InternSet_NoDup_id.
  - intros d -> Hd. apply InternSet_NoDup_id; [ apply Z.eqb_eq | assumption ].
  - apply InternSet_NoDup_id; [ assumption | ].
    apply (InternSet_NoDup _ _ cat_eqb_eq).
  - apply InternSet_NoDup_id; [ apply Z.eqb_eq | ].
    apply (InternSet_NoDup _ _ Z.eqb_eq).
Qed.

(** *** Back-references *)

(** The record a row retains for a key has the category of the row and the
    key as its series value. *)
Lemma row_get_record : forall o X Y Z row key k,
    In row (the_rollup cat_eqb o X Y Z) ->
    row_get row key = Some k ->
    In k (the_I cat_eqb o X Y Z)
    /\ nth_error Z k = Some key
    /\ exists c,
        fst row = Some c /\ nth_error Y k = Some c
        /\ In c (the_yDomain cat_eqb o Y).
Proof.
  intros o X Y Z row key k Hrow Hget.
  destruct (the_rollup_category _ _ cat_eqb cat_eqb_eq o X Y Z row Hrow)
    as [c Hc].
  rewrite (the_rollup_row_get _ _ cat_eqb cat_eqb_eq o X Y Z row c key Hrow Hc)
    in Hget.
  apply find_some in Hget. destruct Hget as [Hin Hcol].
  apply (collides_spec _ cat_eqb cat_eqb_eq) in Hcol.
  destruct Hcol as [HY HZ].
  split; [ assumption | ]. split; [ assumption | ].
  exists c. repeat split; try assumption.
  apply (the_I_spec _ _ cat_eqb cat_eqb_eq) in Hin.
  destruct Hin as [_ [[c' [Hc' Hdom]] _]]. congruence.
Qed.

(** The point of a layer: its row and its back-reference. *)
Lemma layer_point : forall o X Y Z svg p l key d,
    keeps_data (offset o) ->
    render cat_eqb o X Y Z = Ok svg ->
    nth_error (svg_layers svg) p = Some l ->
    nth_error (the_zDomain o Z) p = Some key ->
    In d (layer_datum l) ->
    In (data d) (the_rollup cat_eqb o X Y Z)
    /\ i d = row_get (data d) key.
Proof.
  intros o X Y Z svg p l key d Hkeep Hr Hl Hkey Hd.
  pose proof (layers_grid _ _ cat_eqb o X Y Z svg Hkeep Hr) as Hgrid.
  destruct (Forall2_nth_r _ _ _ _ _ p l Hgrid Hl) as [key' [Hkey' [_ Hpts]]].
  assert (key' = key) by congruence. subst key'.
  apply (in_map (fun d => (data d, i d))) in Hd. rewrite Hpts in Hd.
  apply in_map_iff in Hd. destruct Hd as [row [Hrow Hin]].
  injection Hrow as Hdata Hi. subst row. split; [ assumption | now symmetry ].
Qed.

Lemma band_apply_member : forall (dom : list Cat) range padding c,
    NoDup dom -> In c dom ->
    exists yc, band_apply cat_eqb (scaleBand dom range padding) (Some c)
               = Some yc.
Proof.
  intros dom [r0 r1] padding c Hnd Hin.
  destruct (In_nth_error _ _ Hin) as [k Hk].
  unfold band_apply.
  assert (Hdom : band_domain (scaleBand dom (r0, r1) padding) = dom)
    by reflexivity.
  rewrite Hdom, (index_of_nth _ cat_eqb cat_eqb_eq dom c k Hnd Hk).
  cbn [at_].
  assert (Hlen : List.length (band_values (scaleBand dom (r0, r1) padding))
                 = List.length dom).
  { unfold scaleBand. cbn [band_values].
    destruct (negb (Qle_bool r0 r1));
      rewrite ?length_rev, length_map, length_seq; reflexivity. }
  destruct (nth_error (band_values (scaleBand dom (r0, r1) padding)) k)
    as [yc |] eqn:E; [ now exists yc | ].
  apply nth_error_None in E. rewrite Hlen in E.
  assert (k < List.length dom)%nat by (apply nth_error_Some; congruence).
  lia.
Qed.

(** X6.  Under an offset that keeps the data of the points, every point of
    the artifact that refers back to a record [k] stands in the layer of the
    series value of [k] and in the row of the category of [k].  Its
    rectangle and its image have as [y] the band of that category, which is
    a number, and its image has the glyph of the series value of the
    layer. *)
Theorem back_reference : forall (ds : list D) o svg X Y Z p l key d k,
    D3.map ds (x o) = Ok X ->
    D3.map ds (y o) = Ok Y ->
    D3.map ds (z o) = Ok Z ->
    keeps_data (offset o) ->
    StackedBarChartSVG cat_eqb ds o = Ok svg ->
    nth_error (svg_layers svg) p = Some l ->
    nth_error (the_zDomain o Z) p = Some key ->
    In d (layer_datum l) ->
    i d = Some k ->
    nth_error Z k = Some key
    /\ exists c yc,
        nth_error Y k = Some c
        /\ fst (data d) = Some c
        /\ band_apply cat_eqb (yScale cat_eqb o Y) (Some c) = Some yc
        /\ rect_y (rect_of cat_eqb o X Y Z d) = Some yc
        /\ image_y (image_of cat_eqb o X Y Z d) = Some yc
        /\ image_href (image_of cat_eqb o X Y Z d) = glyph_href (Some key)
        /\ In (rect_of cat_eqb o X Y Z d) (layer_rects l)
        /\ In (image_of cat_eqb o X Y Z d) (layer_images l).
Proof.
  intros ds o svg X Y Z p l key d k HX HY HZ Hkeep Hsvg Hl Hkey Hd Hi.
  unfold StackedBarChartSVG in Hsvg. rewrite HX, HY, HZ in Hsvg.
  simpl in Hsvg.
  destruct (layer_point o X Y Z svg p l key d Hkeep Hsvg Hl Hkey Hd)
    as [Hrow Hget].
  rewrite Hi in Hget. symmetry in Hget.
  destruct (row_get_record o X Y Z (data d) key k Hrow Hget)
    as [_ [HZk [c [Hc [HYk Hdom]]]]].
  split; [ assumption | ].
  destruct (band_apply_member (the_yDomain cat_eqb o Y)
              (the_yRange cat_eqb o Y) (yPadding o) c
              (InternSet_NoDup _ _ cat_eqb_eq _) Hdom) as [yc Hyc].
  destruct (drawn_elements _ _ cat_eqb o X Y Z svg l Hsvg
              (nth_error_In _ _ Hl)) as [_ [Hre Him]].
  exists c, yc. split; [ assumption | ]. split; [ assumption | ].
  split; [ exact Hyc | ].
  cbn [rect_y rect_of image_y image_of image_href]. rewrite Hi.
  cbn [at_]. rewrite HYk, HZk, Hre, Him.
  repeat split; try exact Hyc; now apply in_map.
Qed.

(** *** The colour scale *)

Lemma NoDup_map_Some : forall (A : Type) (l : list A),
    NoDup l -> NoDup (List.map Some l).
Proof.
  intros A l H. induction H as [| a l Ha _ IH]; simpl; constructor;
    [ | exact IH ].
  intro Hin. apply in_map_iff in Hin. destruct Hin as [b [Hb Hin]].
  injection Hb as ->. contradiction.
Qed.

Lemma index_of_app : forall (A : Type) (eqb : A -> A -> bool) l t a p,
    index_of eqb l a = Some p -> index_of eqb (l ++ t) a = Some p.
Proof.
  intros A eqb l t a. induction l as [| b l IH]; intros p; simpl;
    [ discriminate | ].
  destruct (eqb a b); [ trivial | ].
  destruct (index_of eqb l a) as [q |]; [ | discriminate ].
  now rewrite (IH q eq_refl).
Qed.

Lemma index_of_None_keys : forall (keys : list BinNums.Z),
    index_of (option_eqb Z.eqb) (List.map Some keys) None = None
    /\ index_of (option_eqb Z.eqb) (List.map Some keys ++ [None]) None
       = Some (List.length keys).
Proof.
  induction keys as [| key keys [IH1 IH2]]; simpl; [ now split | ].
  now rewrite IH1, IH2.
Qed.

Lemma index_of_key : forall (keys : list BinNums.Z) p key,
    NoDup keys -> nth_error keys p = Some key ->
    index_of (option_eqb Z.eqb) (List.map Some keys) (Some key) = Some p.
Proof.
  intros keys p key Hnd Hp.
  apply (index_of_nth _ _ (option_eqb_eq _ _ Z.eqb_eq)).
  - now apply NoDup_map_Some.
  - now rewrite nth_error_map, Hp.
Qed.

(** The scale [d3.scaleOrdinal(zDomain, colors)] as the builder makes it. *)
Lemma color0_state : forall o Z,
    colour_state (the_zDomain o Z) (colors o) (color0 o Z).
Proof.
  intros o Z. split; [ reflexivity | ]. left.
  unfold color0, scaleOrdinal. cbn [ord_domain].
  apply (InternSet_NoDup_id _ _ (option_eqb_eq _ _ Z.eqb_eq)).
  apply NoDup_map_Some, (InternSet_NoDup _ _ Z.eqb_eq).
Qed.

(** Asked about a member of the series domain, the scale answers with the
    colour of the member's position and stays as it is. *)
Lemma colour_of_key : forall keys colors c p key,
    colour_state keys colors c ->
    NoDup keys -> nth_error keys p = Some key ->
    ordinal_apply (option_eqb Z.eqb) c (Some key) = (palette_at colors p, c).
Proof.
  intros keys colors c p key [Hrange Hdom] Hnd Hp.
  pose proof (index_of_key keys p key Hnd Hp) as Hidx.
  assert (H : index_of (option_eqb Z.eqb) (ord_domain c) (Some key) = Some p).
  { destruct Hdom as [-> | ->]; [ assumption | now apply index_of_app ]. }
  unfold ordinal_apply. rewrite H, Hrange. reflexivity.
Qed.

(** Asked about [undefined], the scale takes it into its domain, once. *)
Lemma colour_of_undefined : forall keys colors c,
    colour_state keys colors c ->
    colour_state keys colors (snd (ordinal_apply (option_eqb Z.eqb) c None)).
Proof.
  intros keys colors c [Hrange Hdom].
  destruct (index_of_None_keys keys) as [H1 H2].
  unfold ordinal_apply. destruct Hdom as [Hd | Hd]; rewrite Hd.
  - rewrite H1. cbn [snd]. split; [ assumption | ]. right.
    cbn [ord_domain]. reflexivity.
  - rewrite H2. cbn [snd]. split; [ assumption | now right ].
Qed.

(** The colour scale along the layers: a layer whose first point refers
    back to a record gets the colour of the position of its key. *)
Lemma layers_of_colours : forall o X Y Z keys series c ls c',
    NoDup keys ->
    colour_state keys (colors o) c ->
    Forall
      (fun s =>
         forall d rest, s = d :: rest ->
           i d = None
           \/ exists k key p, i d = Some k /\ nth_error Z k = Some key
                              /\ nth_error keys p = Some key)
      series ->
    layers_of cat_eqb o X Y Z c series = Ok (ls, c') ->
    colour_state keys (colors o) c'
    /\ Forall2
         (fun s l =>
            forall d rest k key p,
              s = d :: rest -> i d = Some k -> nth_error Z k = Some key ->
              nth_error keys p = Some key ->
              layer_fill l = palette_at (colors o) p)
         series ls.
Proof.
  intros o X Y Z keys series. induction series as [| s series IH];
    intros c ls c' Hnd Hc Hall Hls.
  - simpl in Hls. injection Hls as <- <-. split; [ assumption | constructor ].
  - inversion Hall as [| ? ? Hs Hrest]; subst.
    simpl in Hls. destruct s as [| d rest]; [ discriminate | ].
    cbn [fill_of bind] in Hls.
    destruct (layers_of cat_eqb o X Y Z _ series) as [[ls0 c0] |] eqn:E;
      [ | discriminate ].
    cbn [bind fst snd] in Hls. injection Hls as <- <-.
    assert (Hnext : colour_state keys (colors o)
                      (snd (ordinal_apply (option_eqb Z.eqb) c (at_ Z (i d))))).
    { destruct (Hs d rest eq_refl) as [Hi | [k [key [p [Hi [Hk Hp]]]]]].
      - rewrite Hi. cbn [at_]. now apply colour_of_undefined.
      - rewrite Hi. cbn [at_]. rewrite Hk.
        now rewrite (colour_of_key keys (colors o) c p key Hc Hnd Hp). }
    destruct (IH _ _ _ Hnd Hnext Hrest E) as [Hc0 Hfills].
    split; [ assumption | ]. constructor; [ | assumption ].
    intros d' rest' k key p Heq Hi Hk Hp. injection Heq as <- <-.
    cbn [layer_fill]. rewrite Hi. cbn [at_]. rewrite Hk.
    now rewrite (colour_of_key keys (colors o) c p key Hc Hnd Hp).
Qed.

(** The first points of the series refer back to nothing or to a record
    whose series value is in the series domain. *)
Lemma series_first_points : forall o X Y Z,
    keeps_data (offset o) ->
    Forall
      (fun s =>
         forall d rest, s = d :: rest ->
           i d = None
           \/ exists k key p, i d = Some k /\ nth_error Z k = Some key
                              /\ nth_error (the_zDomain o Z) p = Some key)
      (series_of cat_eqb o X Y Z).
Proof.
  intros o X Y Z Hkeep. apply Forall_forall. intros s Hs d rest Heq.
  pose proof (series_of_shape _ _ cat_eqb o X Y Z Hkeep) as Hshape.
  apply (in_map (List.map (fun d => (data d, i d)))) in Hs.
  rewrite Hshape in Hs. apply in_map_iff in Hs.
  destruct Hs as [key [Hpts Hkey]].
  subst s. destruct (the_rollup cat_eqb o X Y Z) as [| row rows] eqn:Hrows;
    [ discriminate | ].
  simpl in Hpts. injection Hpts as Hdata Hi _.
  destruct (i d) as [k |] eqn:Hid; [ right | now left ].
  assert (Hrow : In row (the_rollup cat_eqb o X Y Z))
    by (rewrite Hrows; now left).
  destruct (row_get_record o X Y Z row key k Hrow Hi) as [_ [HZk _]].
  destruct (In_nth_error _ _ Hkey) as [p Hp].
  now exists k, key, p.
Qed.

(** X7.  Under an offset that keeps the data of the points, a layer whose
    first point refers back to a record is filled with the colour of the
    palette at the position of the layer's series value in the series
    domain, counted modulo the length of the palette (no colour for an empty
    palette), whatever the other layers are. *)
Theorem layer_fills : forall (ds : list D) o svg X Y Z p l key d rest k,
    D3.map ds (x o) = Ok X ->
    D3.map ds (y o) = Ok Y ->
    D3.map ds (z o) = Ok Z ->
    keeps_data (offset o) ->
    StackedBarChartSVG cat_eqb ds o = Ok svg ->
    nth_error (svg_layers svg) p = Some l ->
    nth_error (the_zDomain o Z) p = Some key ->
    layer_datum l = d :: rest ->
    i d = Some k ->
    layer_fill l = palette_at (colors o) p.
Proof.
  intros ds o svg X Y Z p l key d rest k HX HY HZ Hkeep Hsvg Hl Hkey Hd Hi.
  unfold StackedBarChartSVG in Hsvg. rewrite HX, HY, HZ in Hsvg.
  simpl in Hsvg.
  assert (Hin : In d (layer_datum l)) by (rewrite Hd; now left).
  destruct (layer_point o X Y Z svg p l key d Hkeep Hsvg Hl Hkey Hin)
    as [Hrow Hget].
  rewrite Hi in Hget. symmetry in Hget.
  destruct (row_get_record o X Y Z (data d) key k Hrow Hget) as [_ [HZk _]].
  destruct (render_inv _ _ cat_eqb o X Y Z svg Hsvg) as [c [Hls _]].
  pose proof (layers_of_inv _ _ cat_eqb o X Y Z _ _ _ _ Hls) as Hinv.
  destruct (layers_of_colours o X Y Z (the_zDomain o Z) _ _ _ _
              (InternSet_NoDup _ _ Z.eqb_eq _) (color0_state o Z)
              (series_first_points o X Y Z Hkeep) Hls) as [_ Hfills].
  destruct (Forall2_nth_r _ _ _ _ _ p l Hfills Hl) as [s [Hs Hfill]].
  destruct (Forall2_nth_r _ _ _ _ _ p l Hinv Hl) as [s' [Hs' [_ [Hdat _]]]].
  assert (s' = s) by congruence. subst s'.
  apply (Hfill d rest k key p); congruence.
Qed.

(** X8.  The colour scale returned with the artifact has the palette as its
    range and answers, for the member of the series domain at position [p],
    with the colour of the palette at [p] modulo the length of the palette,
    without changing: the colour of the layer of that member. *)
Theorem returned_colour_scale : forall (ds : list D) o svg X Y Z p key,
    D3.map ds (x o) = Ok X ->
    D3.map ds (y o) = Ok Y ->
    D3.map ds (z o) = Ok Z ->
    keeps_data (offset o) ->
    StackedBarChartSVG cat_eqb ds o = Ok svg ->
    nth_error (the_zDomain o Z) p = Some key ->
    ord_range (svg_scales_color svg) = colors o
    /\ ordinal_apply (option_eqb Z.eqb) (svg_scales_color svg) (Some key)
       = (palette_at (colors o) p, svg_scales_color svg).
Proof.
  intros ds o svg X Y Z p key HX HY HZ Hkeep Hsvg Hkey.
  unfold StackedBarChartSVG in Hsvg. rewrite HX, HY, HZ in Hsvg.
  simpl in Hsvg.
  destruct (render_inv _ _ cat_eqb o X Y Z svg Hsvg)
    as [c [Hls [_ [_ [_ [Hc _]]]]]].
  rewrite Hc.
  destruct (layers_of_colours o X Y Z (the_zDomain o Z) _ _ _ _
              (InternSet_NoDup _ _ Z.eqb_eq _) (color0_state o Z)
              (series_first_points o X Y Z Hkeep) Hls) as [Hstate _].
  split; [ apply Hstate | ].
  exact (colour_of_key _ _ _ p key Hstate (InternSet_NoDup _ _ Z.eqb_eq _) Hkey).
Qed.

(** *** The bands of the rows *)


(** *** The layout of a row *)

Lemma num_eq_refl : forall a, num_eq a a.
Proof. intros [q |]; simpl; [ reflexivity | exact I ]. Qed.

Lemma carry_step : forall before v c,
    carry before = Fin c ->
    exists c', carry (bounds_step before v) = Fin c' /\ c' == c + or0 v.
Proof.
  intros before v c Hc. rewrite bounds_step_carry, Hc.
  destruct v as [q |]; simpl.
  - exists (q + c). split; [ reflexivity | ring ].
  - exists c. split; [ reflexivity | ring ].
Qed.

Lemma row_bounds_from_nth : forall values before c k ab,
    carry before = Fin c ->
    nth_error (row_bounds_from before values) k = Some ab ->
    exists v a,
      nth_error values k = Some v
      /\ ab = (Fin a, add v (Fin a))
      /\ a == c + total (firstn k values).
Proof.
  induction values as [| v values IH]; intros before c k ab Hc Hk.
  - destruct k; discriminate.
  - destruct k as [| k]; simpl in Hk.
    + injection Hk as <-. exists v, c. rewrite bounds_step_carry, Hc.
      repeat split. simpl. ring.
    + destruct (carry_step before v c Hc) as [c' [Hc' Heq]].
      destruct (IH _ c' k ab Hc' Hk) as [v' [a [Hv' [Hab Ha]]]].
      exists v', a. repeat split; try assumption.
      simpl. rewrite Ha, Heq. ring.
Qed.

(** The point at position [k] of a row starts at the sum of the values
    placed before it and ends that sum plus its own value later. *)
Lemma row_bounds_nth : forall values k ab,
    nth_error (row_bounds values) k = Some ab ->
    exists v a,
      nth_error values k = Some v
      /\ fst ab = Fin a
      /\ a == total (firstn k values)
      /\ num_eq (snd ab) (add v (Fin a)).
Proof.
  intros [| v0 values] k ab Hk; [ destruct k; discriminate | ].
  destruct k as [| k]; simpl in Hk.
  - injection Hk as <-. exists v0, 0. repeat split; try reflexivity.
    destruct v0 as [q |]; simpl; [ ring | exact I ].
  - destruct (row_bounds_from_nth values (Fin 0, v0) (or0 v0) k ab
                (carry_first v0) Hk) as [v [a [Hv [-> Ha]]]].
    exists v, a. split; [ assumption | ]. split; [ reflexivity | ].
    split; [ simpl; exact Ha | apply num_eq_refl ].
Qed.

Lemma nth_error_combine : forall (A B : Type) (l : list A) (l' : list B) k a b,
    nth_error (combine l l') k = Some (a, b) ->
    nth_error l k = Some a /\ nth_error l' k = Some b.
Proof.
  intros A B l. induction l as [| a0 l IH]; intros l' k a b Hk.
  - destruct k; discriminate.
  - destruct l' as [| b0 l']; [ destruct k; discriminate | ].
    destruct k as [| k]; simpl in Hk |- *.
    + injection Hk as -> ->. now split.
    + now apply IH.
Qed.

(** X10.  Under the default offset and order, with quantities that are not
    negative and a row total that no sum of doubles overflows on (within
    half of the range of the finite doubles), the point of the series at position [p] in the row of the rollup at position
    [j] refers back to the record the row retains for the key at [p]; it
    starts at the sum of the values stacked in the row for the keys before
    [p] and, when the row has a record [i0] for the key, it ends that sum
    plus [X[i0]] divided by the total of the row (plus [X[i0]] itself for a
    total of zero); when the row has no record for the key, its upper
    boundary is [NaN]. *)
Theorem row_layout : forall o X Y Z j row p key s,
    offset o = stackOffsetExpand ->
    order o = stackOrderNone ->
    (forall i0 q,
        In i0 (the_I cat_eqb o X Y Z) -> nth_error X i0 = Some q -> 0 <= q) ->
    summable (row_total X (the_zDomain o Z) row) ->
    nth_error (the_rollup cat_eqb o X Y Z) j = Some row ->
    nth_error (the_zDomain o Z) p = Some key ->
    nth_error (series_of cat_eqb o X Y Z) p = Some s ->
    exists d a,
      nth_error s j = Some d
      /\ i d = row_get row key
      /\ x1 d = Fin a
      /\ a == total (firstn p (row_values X (the_zDomain o Z) row))
      /\ (row_get row key = None -> x2 d = NaN)
      /\ (forall i0 q,
             row_get row key = Some i0 -> nth_error X i0 = Some q ->
             exists b,
               x2 d = Fin b
               /\ b == a + (if truthy (row_total X (the_zDomain o Z) row)
                            then q / row_total X (the_zDomain o Z) row
                            else q)).
Proof.
  intros o X Y Z j row p key s Hoff Hord _ _ Hj Hkey Hs.
  pose proof (column_cells _ _ cat_eqb o X Y Z j row Hoff Hord Hj) as Hcol.
  apply (f_equal (fun l => nth_error l p)) in Hcol. cbv beta in Hcol.
  unfold Series in Hs. rewrite !nth_error_map, Hs in Hcol.
  cbn [option_map] in Hcol.
  destruct (nth_error s j) as [d |] eqn:Hd;
    [ | destruct (nth_error (row_cells X (the_zDomain o Z) row) p);
        discriminate ].
  destruct (nth_error (row_cells X (the_zDomain o Z) row) p)
    as [[ref ab] |] eqn:Hcell; [ | discriminate ].
  cbn [option_map] in Hcol. injection Hcol as Href Hab.
  unfold row_cells in Hcell. apply nth_error_combine in Hcell.
  destruct Hcell as [Href' Hab'].
  rewrite nth_error_map, Hkey in Href'. injection Href' as Href'.
  destruct (row_bounds_nth _ _ _ Hab') as [v [a [Hv [Ha1 [Ha Hb]]]]].
  unfold row_values in Hv. rewrite nth_error_map, Hkey in Hv.
  injection Hv as Hv.
  exists d, a. split; [ reflexivity | ].
  split; [ congruence | ].
  unfold bounds in Hab. rewrite <- Hab in Ha1, Hb. cbn [fst snd] in Ha1, Hb.
  split; [ assumption | ]. split; [ assumption | ].
  split.
  - intro Hnone. rewrite Hnone in Hv. cbn [at_ to_num] in Hv. subst v.
    destruct (truthy (row_total X (the_zDomain o Z) row)) in Hb;
      cbn [add div num_eq] in Hb;
      destruct (x2 d); [ contradiction | reflexivity
                       | contradiction | reflexivity ].
  - intros i0 q Hget Hq. rewrite Hget in Hv. cbn [at_] in Hv.
    rewrite Hq in Hv. cbn [to_num] in Hv. subst v.
    destruct (truthy (row_total X (the_zDomain o Z) row));
      destruct (x2 d) as [b |]; try contradiction;
      exists b; (split; [ reflexivity | ]).
    + assert (Hb' : b == q / row_total X (the_zDomain o Z) row + a)
        by exact Hb.
      rewrite Hb'. ring.
    + assert (Hb' : b == q + a) by exact Hb.
      rewrite Hb'. ring.
Qed.

(** *** The quantitative scale under the defaults *)

Lemma total_row_values_le : forall X keys (row : Row Cat),
    0 <= row_total X keys row -> total (row_values X keys row) <= 1.
Proof.
  intros X keys row HT. rewrite total_row_values.
  destruct (truthy (row_total X keys row)) eqn:E; [ lra | ].
  unfold truthy in E.
  destruct (Qeq_bool (row_total X keys row) 0) eqn:F; [ | discriminate ].
  apply Qeq_bool_iff in F. lra.
Qed.

(** With quantities that are not negative, under the default offset and
    order, a point starts between 0 and the total of the values stacked in
    its row, and a point that refers back to a record ends between its start
    and that total. *)
Lemma point_in_row : forall o X Y Z s d,
    offset o = stackOffsetExpand ->
    order o = stackOrderNone ->
    (forall i0 q,
        In i0 (the_I cat_eqb o X Y Z) -> nth_error X i0 = Some q -> 0 <= q) ->
    In s (series_of cat_eqb o X Y Z) ->
    In d s ->
    exists row a,
      In row (the_rollup cat_eqb o X Y Z)
      /\ x1 d = Fin a
      /\ 0 <= a <= total (row_values X (the_zDomain o Z) row)
      /\ forall k,
          i d = Some k ->
          exists b,
            x2 d = Fin b
            /\ a <= b <= total (row_values X (the_zDomain o Z) row).
Proof.
  intros o X Y Z s d Hoff Hord Hpos Hs Hd.
  assert (Hkeep : keeps_data (offset o))
    by (rewrite Hoff; intros sz oz; apply stackOffsetExpand_data).
  destruct (In_nth_error _ _ Hd) as [j Hj].
  assert (Hlt : (j < List.length (the_rollup cat_eqb o X Y Z))%nat).
  { rewrite <- (series_length _ _ cat_eqb o X Y Z s Hkeep Hs).
    apply nth_error_Some. congruence. }
  destruct (nth_error (the_rollup cat_eqb o X Y Z) j) as [row |] eqn:Hrow;
    [ | apply nth_error_None in Hrow; lia ].
  assert (Hin : In row (the_rollup cat_eqb o X Y Z))
    by (eapply nth_error_In; eassumption).
  pose proof (row_total_nonneg _ _ cat_eqb cat_eqb_eq o X Y Z row Hpos Hin)
    as HT.
  pose proof (row_values_backed _ _ cat_eqb cat_eqb_eq o X Y Z row Hpos Hin HT)
    as Hbacked.
  pose proof (column_cells _ _ cat_eqb o X Y Z j row Hoff Hord Hrow) as Hcol.
  pose proof (column_point _ _ j _ s d Hcol Hs Hj) as Hcell.
  destruct (In_nth_error _ _ Hcell) as [p Hp].
  unfold row_cells, cell_of in Hp. apply nth_error_combine in Hp.
  destruct Hp as [Href Hab].
  destruct (row_bounds_nth _ _ _ Hab) as [v [a [Hv [Ha1 [Ha Hb]]]]].
  cbn [bounds fst snd] in Ha1, Hb.
  assert (Hst : Forall stackable (row_values X (the_zDomain o Z) row))
    by (eapply backed_stackable; eassumption).
  assert (Ha01 : 0 <= a <= total (row_values X (the_zDomain o Z) row)).
  { apply (row_bounds_in _ (bounds d) a Hst (nth_error_In _ _ Hab)).
    now left. }
  exists row, a. split; [ assumption | ]. split; [ assumption | ].
  split; [ assumption | ].
  intros k Hk.
  destruct (Forall2_nth_l _ _ _ _ _ p (i d) Hbacked Href) as [v' [Hv' Hback]].
  assert (v' = v) by congruence. subst v'.
  rewrite Hk in Hback. simpl in Hback. destruct Hback as [q [-> Hq]].
  destruct (x2 d) as [b |] eqn:Hx2; [ | contradiction ].
  assert (Hb' : b == q + a) by exact Hb.
  exists b. split; [ reflexivity | ].
  assert (Hb01 : 0 <= b <= total (row_values X (the_zDomain o Z) row)).
  { apply (row_bounds_in _ (bounds d) b Hst (nth_error_In _ _ Hab)).
    right. exact Hx2. }
  lra.
Qed.

Lemma point_in_unit : forall o X Y Z s d,
    offset o = stackOffsetExpand ->
    order o = stackOrderNone ->
    (forall i0 q,
        In i0 (the_I cat_eqb o X Y Z) -> nth_error X i0 = Some q -> 0 <= q) ->
    In s (series_of cat_eqb o X Y Z) ->
    In d s ->
    exists a,
      x1 d = Fin a /\ 0 <= a <= 1
      /\ forall k, i d = Some k -> exists b, x2 d = Fin b /\ a <= b <= 1.
Proof.
  intros o X Y Z s d Hoff Hord Hpos Hs Hd.
  destruct (point_in_row o X Y Z s d Hoff Hord Hpos Hs Hd)
    as [row [a [Hin [Ha [Ha01 Hb]]]]].
  pose proof (row_total_nonneg _ _ cat_eqb cat_eqb_eq o X Y Z row Hpos Hin)
    as HT.
  pose proof (total_row_values_le X (the_zDomain o Z) row HT) as Htot.
  exists a. split; [ assumption | ]. split; [ lra | ].
  intros k Hk. destruct (Hb k Hk) as [b [Hx2 Hb01]].
  exists b. split; [ assumption | lra ].
Qed.

Lemma Qabs_cases : forall x,
    0 <= x /\ Qabs x == x \/ x <= 0 /\ Qabs x == - x.
Proof.
  intro x. destruct (Qlt_le_dec x 0) as [H | H].
  - right. split; [ lra | apply Qabs_neg; lra ].
  - left. split; [ assumption | now apply Qabs_pos ].
Qed.


(** *** A chart of zeros *)

Lemma row_total_zero : forall o X Y Z row,
    (forall i0 q,
        In i0 (the_I cat_eqb o X Y Z) -> nth_error X i0 = Some q -> q == 0) ->
    In row (the_rollup cat_eqb o X Y Z) ->
    row_total X (the_zDomain o Z) row == 0.
Proof.
  intros o X Y Z row Hzero Hrow. unfold row_total. rewrite fold_left_total.
  induction (the_zDomain o Z) as [| key keys IH]; simpl; [ ring | ].
  assert (H : or0 (to_num (at_ X (row_get row key))) == 0).
  { destruct (row_get row key) as [i0 |] eqn:Hget; simpl; [ | reflexivity ].
    destruct (nth_error X i0) as [q |] eqn:Hq; simpl; [ | reflexivity ].
    apply (Hzero i0 q); [ | assumption ].
    exact (row_get_kept _ _ cat_eqb cat_eqb_eq o X Y Z row key i0 Hrow Hget). }
  rewrite H. rewrite Qplus_0_l in IH. rewrite IH. ring.
Qed.


(** *** The accessors *)

(** X14.  [d3.map] returns a list exactly when the accessor returns for
    every record, called with the record and its index; the list then has
    one value for each record, in order.  When the accessor throws, the
    exception of the first record on which it throws is the result. *)
Theorem accessors_by_index : forall (A B : Type) (f : A -> nat -> result B)
    (ds : list A),
    (forall l,
        D3.map ds f = Ok l
        <-> List.length l = List.length ds
            /\ forall k d, nth_error ds k = Some d ->
                 exists v, f d k = Ok v /\ nth_error l k = Some v)
    /\ (forall pre d post e,
           ds = pre ++ d :: post ->
           (forall k a, nth_error pre k = Some a -> exists b, f a k = Ok b) ->
           f d (List.length pre) = Throw e ->
           D3.map ds f = Throw e).
Proof.
  intros A B f ds. split.
  - assert (H : forall ds n l,
               map_from f n ds = Ok l
               <-> List.length l = List.length ds
                   /\ forall k d, nth_error ds k = Some d ->
                        exists v, f d (n + k)%nat = Ok v
                                  /\ nth_error l k = Some v).
    { clear ds. induction ds as [| d ds IH]; intros n l; simpl.
      - split.
        + intro H. injection H as <-. split; [ reflexivity | ].
          intros k d Hk. destruct k; discriminate.
        + intros [Hlen _]. destruct l; [ reflexivity | discriminate ].
      - split.
        + destruct (f d n) as [v |] eqn:Hv; simpl; [ | discriminate ].
          destruct (map_from f (S n) ds) as [vs |] eqn:Hvs; simpl;
            [ | discriminate ].
          intro H. injection H as <-. apply IH in Hvs.
          destruct Hvs as [Hlen Hall]. split; [ simpl; now rewrite Hlen | ].
          intros k d' Hk. destruct k as [| k]; simpl in Hk.
          * injection Hk as <-. exists v. rewrite Nat.add_0_r. now split.
          * destruct (Hall k d' Hk) as [v' [Hv' Hn]].
            exists v'. rewrite Nat.add_succ_r. now split.
        + intros [Hlen Hall]. destruct l as [| v l]; [ discriminate | ].
          destruct (Hall 0%nat d eq_refl) as [v' [Hv' Hn]].
          rewrite Nat.add_0_r in Hv'. simpl in Hn. injection Hn as ->.
          rewrite Hv'. simpl.
          assert (Hrest : map_from f (S n) ds = Ok l).
          { apply IH. split; [ simpl in Hlen; lia | ].
            intros k d' Hk. destruct (Hall (S k) d' Hk) as [v'' [Hv'' Hn'']].
            exists v''. rewrite Nat.add_succ_r in Hv''. now split. }
          rewrite Hrest. reflexivity. }
    intro l. unfold D3.map. exact (H ds 0%nat l).
  - intros pre d post e Hds Hpre Hd. unfold D3.map.
    apply (map_from_throw A B f ds 0%nat pre d post e Hds); assumption.
Qed.

(** *** Neighbouring segments *)

Lemma row_bounds_from_next : forall values before p ab ab',
    nth_error (row_bounds_from before values) p = Some ab ->
    nth_error (row_bounds_from before values) (S p) = Some ab' ->
    fst ab' = carry ab.
Proof.
  induction values as [| v values IH]; intros before p ab ab' Hp Hp'.
  - destruct p; discriminate.
  - destruct p as [| p]; simpl in Hp, Hp'.
    + injection Hp as <-. destruct values as [| v' values]; [ discriminate | ].
      simpl in Hp'. injection Hp' as <-. reflexivity.
    + exact (IH _ p ab ab' Hp Hp').
Qed.

Lemma row_bounds_next : forall values p ab ab',
    nth_error (row_bounds values) p = Some ab ->
    nth_error (row_bounds values) (S p) = Some ab' ->
    fst ab' = carry ab.
Proof.
  intros [| v0 values] p ab ab' Hp Hp'; [ destruct p; discriminate | ].
  destruct p as [| p]; simpl in Hp, Hp'.
  - injection Hp as <-. destruct values as [| v' values]; [ discriminate | ].
    simpl in Hp'. injection Hp' as <-. reflexivity.
  - exact (row_bounds_from_next _ _ p ab ab' Hp Hp').
Qed.

(** The boundaries of the point of series [p] in row [j]. *)
Lemma column_bounds_at : forall o X Y Z j row p s d,
    offset o = stackOffsetExpand ->
    order o = stackOrderNone ->
    nth_error (the_rollup cat_eqb o X Y Z) j = Some row ->
    nth_error (series_of cat_eqb o X Y Z) p = Some s ->
    nth_error s j = Some d ->
    nth_error (row_bounds (row_values X (the_zDomain o Z) row)) p
    = Some (bounds d).
Proof.
  intros o X Y Z j row p s d Hoff Hord Hj Hs Hd.
  pose proof (column_cells _ _ cat_eqb o X Y Z j row Hoff Hord Hj) as Hcol.
  apply (f_equal (fun l => nth_error l p)) in Hcol. cbv beta in Hcol.
  unfold Series in Hs. rewrite !nth_error_map, Hs in Hcol.
  cbn [option_map] in Hcol. rewrite Hd in Hcol. cbn [option_map] in Hcol.
  destruct (nth_error (row_cells X (the_zDomain o Z) row) p)
    as [[ref ab] |] eqn:Hcell; [ | discriminate ].
  cbn [option_map] in Hcol. injection Hcol as Href Hab.
  unfold row_cells in Hcell. apply nth_error_combine in Hcell.
  destruct Hcell as [_ Hab']. rewrite Hab. exact Hab'.
Qed.

(** The point a rectangle of the artifact is drawn for. *)
Lemma rect_point : forall o X Y Z svg p l j r,
    render cat_eqb o X Y Z = Ok svg ->
    nth_error (svg_layers svg) p = Some l ->
    nth_error (layer_rects l) j = Some r ->
    exists s d,
      nth_error (series_of cat_eqb o X Y Z) p = Some s
      /\ nth_error s j = Some d
      /\ r = rect_of cat_eqb o X Y Z d.
Proof.
  intros o X Y Z svg p l j r Hr Hl Hj.
  destruct (render_inv _ _ cat_eqb o X Y Z svg Hr) as [c [Hls _]].
  apply layers_of_inv in Hls.
  destruct (Forall2_nth_r _ _ _ _ _ p l Hls Hl) as [s [Hs [_ [Hd [Hre _]]]]].
  rewrite Hre, nth_error_map in Hj.
  destruct (nth_error s j) as [d |] eqn:Hsd; [ | discriminate ].
  cbn [option_map] in Hj. injection Hj as <-.
  exists s, d. now repeat split.
Qed.


(** *** Any order that permutes the series *)

Lemma length_update : forall (A : Type) k (v : A) l,
    List.length (update k v l) = List.length l.
Proof.
  intros A k v l. revert k. induction l as [| a l IH]; intros [| k]; simpl;
    try reflexivity.
  now rewrite IH.
Qed.

Lemma nth_update_same : forall (A : Type) k (v : A) l d,
    (k < List.length l)%nat -> nth k (update k v l) d = v.
Proof.
  intros A k v l. revert k. induction l as [| a l IH]; intros [| k] d Hk;
    simpl in *; try lia; [ reflexivity | ].
  apply IH. lia.
Qed.

Lemma nth_update_other : forall (A : Type) k k' (v : A) l d,
    k' <> k -> nth k' (update k v l) d = nth k' l d.
Proof.
  intros A k k' v l. revert k k'.
  induction l as [| a l IH]; intros [| k] [| k'] d Hk; simpl;
    try reflexivity; try contradiction.
  apply IH. congruence.
Qed.

Lemma length_none_loop : forall (R : Type) idxs (s0 : list (Seg R)) ss,
    List.length (none_loop idxs s0 ss) = List.length ss.
Proof.
  intros R idxs. induction idxs as [| k idxs IH]; intros s0 ss; simpl;
    [ reflexivity | ].
  now rewrite IH, length_update.
Qed.

Lemma length_stackOffsetNone : forall (R : Type) (ss : list (list (Seg R))) oz,
    List.length (stackOffsetNone ss oz) = List.length ss.
Proof.
  intros R ss oz. unfold stackOffsetNone.
  destruct (List.length ss <=? 1)%nat; [ reflexivity | ].
  apply length_none_loop.
Qed.

(** The outer loop of [d3.stackOffsetNone] over indices that are all
    different: the series at these indices are stacked one on the other in
    the order of the indices, and the other series are left alone. *)
Lemma none_loop_perm : forall (R : Type) idxs (s0 : list (Seg R)) ss,
    NoDup idxs ->
    (forall k, In k idxs -> (k < List.length ss)%nat) ->
    List.map (fun k => nth k (none_loop idxs s0 ss) []) idxs
    = none_scan s0 (List.map (fun k => nth k ss []) idxs)
    /\ (forall k, ~ In k idxs -> nth k (none_loop idxs s0 ss) [] = nth k ss []).
Proof.
  intros R idxs. induction idxs as [| k idxs IH]; intros s0 ss Hnd Hlt.
  - split; [ reflexivity | intros; reflexivity ].
  - apply NoDup_cons_iff in Hnd. destruct Hnd as [Hk Hnd].
    cbn [none_loop List.map none_scan].
    set (s1 := none_row s0 (nth k ss [])).
    destruct (IH s1 (update k s1 ss) Hnd) as [Hscan Hother].
    { intros k' Hk'. rewrite length_update. apply Hlt. now right. }
    assert (Hsame : List.map (fun k' => nth k' (update k s1 ss) []) idxs
                    = List.map (fun k' => nth k' ss []) idxs).
    { apply map_ext_in. intros k' Hk'. apply nth_update_other.
      intro E. subst k'. contradiction. }
    split.
    + rewrite (Hother k Hk), nth_update_same by (apply Hlt; now left).
      rewrite Hscan, Hsame. reflexivity.
    + intros k' Hk'. rewrite Hother by (intro H; apply Hk'; now right).
      apply nth_update_other. intro E. apply Hk'. now left.
Qed.

Lemma map_nth_seq : forall (A : Type) (l : list A) d,
    List.map (fun k => nth k l d) (seq 0 (List.length l)) = l.
Proof.
  intros A l d. induction l as [| a l IH]; simpl; [ reflexivity | ].
  f_equal. rewrite <- seq_shift, map_map. exact IH.
Qed.

(** An order that is a permutation of the indices of the series. *)
Lemma permutation_order : forall n oz,
    Permutation oz (seq 0 n) ->
    NoDup oz /\ List.length oz = n /\ forall k, In k oz <-> (k < n)%nat.
Proof.
  intros n oz H. split; [ | split ].
  - apply (Permutation_NoDup (Permutation_sym H)), seq_NoDup.
  - rewrite (Permutation_length H). apply length_seq.
  - intro k. split; intro Hk.
    + apply (Permutation_in _ H) in Hk. apply in_seq in Hk. lia.
    + apply (Permutation_in _ (Permutation_sym H)). apply in_seq. lia.
Qed.

(** Under an order that permutes the series, [d3.stackOffsetNone] leaves
    the first series of the order and stacks each other series on the one
    before it in the order. *)
Lemma stackOffsetNone_perm : forall (R : Type) (ss : list (list (Seg R))) oz,
    Permutation oz (seq 0 (List.length ss)) ->
    List.map (fun k => nth k (stackOffsetNone ss oz) []) oz
    = match List.map (fun k => nth k ss []) oz with
      | [] => []
      | s :: rest => s :: none_scan s rest
      end.
Proof.
  intros R ss oz Hperm.
  destruct (permutation_order _ _ Hperm) as [Hnd [Hlen Hin]].
  unfold stackOffsetNone.
  destruct (List.length ss <=? 1)%nat eqn:E.
  - apply Nat.leb_le in E.
    destruct oz as [| k0 [| k1 oz]]; simpl in *; try reflexivity. lia.
  - apply Nat.leb_gt in E.
    destruct oz as [| k0 idxs]; [ simpl in Hlen; lia | ].
    assert (Htl : List.map (fun k => nth k (k0 :: idxs) 0%nat)
                    (seq 1 (List.length ss - 1)) = idxs).
    { replace (List.length ss - 1)%nat with (List.length idxs)
        by (simpl in Hlen; lia).
      rewrite <- seq_shift, map_map. simpl. apply map_nth_seq. }
    rewrite Htl. cbn [nth]. apply NoDup_cons_iff in Hnd.
    destruct Hnd as [Hk0 Hnd].
    destruct (none_loop_perm R idxs (nth k0 ss []) ss Hnd) as [Hscan Hother].
    { intros k Hk. apply Hin. now right. }
    cbn [List.map]. now rewrite (Hother k0 Hk0), Hscan.
Qed.

(** The division of [d3.stackOffsetExpand], whatever the order. *)
Lemma expand_points : forall X (rows : list (Row Cat)) keys oz,
    stackOffsetExpand
      (List.map (fun key => List.map (raw_point X key) rows) keys) oz
    = stackOffsetNone
        (List.map (fun key => List.map (expanded_point X keys key) rows) keys)
        oz.
Proof.
  intros X rows keys oz. destruct keys as [| key0 keys']; [ reflexivity | ].
  remember (key0 :: keys') as keys eqn:Hkeys.
  set (sz := List.map (fun key => List.map (raw_point X key) rows) keys).
  assert (Hsz : sz = List.map (raw_point X key0) rows
                     :: List.map (fun key => List.map (raw_point X key) rows)
                          keys')
    by (unfold sz; rewrite Hkeys; reflexivity).
  rewrite (stackOffsetExpand_cons _ sz _ _ _ Hsz), length_map.
  f_equal. unfold sz. rewrite map_map. apply map_ext. intro key.
  apply (expand_row_points _ X rows keys key rows []). reflexivity.
Qed.

Lemma nth_with_i : forall (keys : list BinNums.Z) (ss : list (Series Cat)) k,
    List.length ss = List.length keys ->
    (k < List.length keys)%nat ->
    nth k (with_i (combine keys ss)) []
    = List.map (fun d => set_i d (row_get (data d) (nth k keys 0%Z)))
        (nth k ss []).
Proof.
  intros keys. induction keys as [| key keys IH]; intros ss k Hlen Hk;
    [ simpl in Hk; lia | ].
  destruct ss as [| s ss]; [ discriminate | ].
  destruct k as [| k]; [ reflexivity | ].
  simpl in *. apply IH; lia.
Qed.

Lemma with_i_combine_map : forall (A : Type) (f : A -> BinNums.Z)
    (g : A -> Series Cat) l,
    with_i (combine (List.map f l) (List.map g l))
    = List.map
        (fun a => List.map (fun d => set_i d (row_get (data d) (f a))) (g a))
        l.
Proof.
  intros A f g l. unfold with_i.
  induction l as [| a l IH]; simpl; [ reflexivity | ]. now rewrite IH.
Qed.

(** Under the default offset and an order that permutes the series, the
    series taken in the order in which they are placed: the expanded points
    of the first key of the order, and for each other key the expanded
    points stacked on the series placed before. *)
Lemma placed_series : forall o X Y Z,
    offset o = stackOffsetExpand ->
    Permutation (the_order cat_eqb o X Y Z)
      (seq 0 (List.length (the_zDomain o Z))) ->
    List.map (fun k => nth k (series_of cat_eqb o X Y Z) [])
      (the_order cat_eqb o X Y Z)
    = with_i
        (combine (placed_keys (the_zDomain o Z) (the_order cat_eqb o X Y Z))
           match
             List.map
               (fun key =>
                  List.map (expanded_point X (the_zDomain o Z) key)
                    (the_rollup cat_eqb o X Y Z))
               (placed_keys (the_zDomain o Z) (the_order cat_eqb o X Y Z))
           with
           | [] => []
           | s :: rest => s :: none_scan s rest
           end).
Proof.
  intros o X Y Z Hoff Hperm.
  destruct (permutation_order _ _ Hperm) as [Hnd [Hlen Hin]].
  set (keys := the_zDomain o Z) in *.
  set (rows := the_rollup cat_eqb o X Y Z).
  set (oz := the_order cat_eqb o X Y Z) in *.
  set (E := List.map (fun key => List.map (expanded_point X keys key) rows)
              keys).
  assert (Hs : series_of cat_eqb o X Y Z
               = with_i (combine keys (stackOffsetNone E oz))).
  { unfold series_of, stacked. rewrite Hoff.
    change (order o (stack_points (the_zDomain o Z)
                       (fun d key => at_ X (row_get d key))
                       (the_rollup cat_eqb o X Y Z))) with oz.
    change (stack_points (the_zDomain o Z)
              (fun d key => at_ X (row_get d key))
              (the_rollup cat_eqb o X Y Z))
      with (List.map (fun key => List.map (raw_point X key) rows) keys).
    now rewrite expand_points. }
  assert (HlenE : List.length E = List.length keys)
    by (unfold E; apply length_map).
  assert (Hperm' : Permutation oz (seq 0 (List.length E)))
    by now rewrite HlenE.
  pose proof (stackOffsetNone_perm _ E oz Hperm') as Hstack.
  assert (Hplaced :
            List.map (fun k => nth k E []) oz
            = List.map
                (fun key => List.map (expanded_point X keys key) rows)
                (placed_keys keys oz)).
  { unfold placed_keys. rewrite map_map. apply map_ext_in. intros k Hk.
    apply Hin in Hk. unfold E.
    rewrite (nth_indep _ [] (List.map (expanded_point X keys 0%Z) rows))
      by (rewrite length_map; exact Hk).
    apply (map_nth (fun key => List.map (expanded_point X keys key) rows)). }
  rewrite Hplaced in Hstack.
  rewrite <- Hstack. unfold placed_keys.
  etransitivity;
    [ | symmetry;
        exact (with_i_combine_map nat (fun k => nth k keys 0%Z)
                 (fun k => nth k (stackOffsetNone E oz) []) oz) ].
  apply map_ext_in. intros k Hk. apply Hin in Hk. rewrite Hs.
  apply nth_with_i; [ | exact Hk ].
  etransitivity; [ apply length_stackOffsetNone | exact HlenE ].
Qed.

(** Column [j] of the series in the order in which they are placed is the
    row of the rollup at position [j], laid out by [row_cells_at]. *)
Lemma placed_cells : forall o X Y Z j row,
    offset o = stackOffsetExpand ->
    Permutation (the_order cat_eqb o X Y Z)
      (seq 0 (List.length (the_zDomain o Z))) ->
    nth_error (the_rollup cat_eqb o X Y Z) j = Some row ->
    List.map (fun s => option_map cell_of (nth_error s j))
      (List.map (fun k => nth k (series_of cat_eqb o X Y Z) [])
         (the_order cat_eqb o X Y Z))
    = List.map Some
        (row_cells_at X (the_zDomain o Z)
           (placed_keys (the_zDomain o Z) (the_order cat_eqb o X Y Z)) row).
Proof.
  intros o X Y Z j row Hoff Hperm Hj.
  rewrite (placed_series o X Y Z Hoff Hperm). unfold with_i.
  rewrite map_map.
  exact (column_cells_of _ X _ j row (the_zDomain o Z) _ Hj).
Qed.

Lemma permuted_list : forall (A : Type) (l : list A) d oz,
    Permutation oz (seq 0 (List.length l)) ->
    Permutation (List.map (fun k => nth k l d) oz) l.
Proof.
  intros A l d oz H.
  eapply Permutation_trans; [ apply Permutation_map, H | ].
  rewrite map_nth_seq. apply Permutation_refl.
Qed.

Lemma placed_keys_perm : forall keys oz,
    Permutation oz (seq 0 (List.length keys)) ->
    Permutation (placed_keys keys oz) keys.
Proof. intros keys oz H. now apply permuted_list. Qed.

Lemma total_perm : forall l l', Permutation l l' -> total l == total l'.
Proof.
  intros l l' H. induction H; simpl; try lra.
Qed.

Lemma row_values_at_total : forall X keys placed (row : Row Cat),
    Permutation placed keys ->
    total (row_values_at X keys placed row) == total (row_values X keys row).
Proof.
  intros X keys placed row H. apply total_perm.
  unfold row_values_at, row_values. now apply Permutation_map.
Qed.

Lemma row_values_at_backed : forall o X Y Z row placed,
    (forall i0 q,
        In i0 (the_I cat_eqb o X Y Z) -> nth_error X i0 = Some q -> 0 <= q) ->
    In row (the_rollup cat_eqb o X Y Z) ->
    0 <= row_total X (the_zDomain o Z) row ->
    Forall2 backed (List.map (row_get row) placed)
      (row_values_at X (the_zDomain o Z) placed row).
Proof.
  intros o X Y Z row placed Hpos Hrow HT. unfold row_values_at.
  set (T := row_total X (the_zDomain o Z) row) in *. clearbody T.
  induction placed as [| key keys IH]; simpl; [ constructor | ].
  constructor; [ | exact IH ].
  destruct (row_get row key) as [i0 |] eqn:Hget; simpl.
  - pose proof (row_get_kept _ _ cat_eqb cat_eqb_eq o X Y Z row key i0 Hrow
                  Hget) as Hin.
    assert (Hlt : (i0 < List.length X)%nat)
      by (apply (the_I_spec _ _ cat_eqb cat_eqb_eq) in Hin; tauto).
    destruct (nth_error X i0) as [q |] eqn:Hq;
      [ | apply nth_error_None in Hq; lia ].
    pose proof (Hpos i0 q Hin Hq) as Hq0. simpl.
    destruct (truthy T) eqn:E; [ | now exists q ].
    exists (q / T). split; [ reflexivity | ].
    assert (HT' : 0 < T).
    { unfold truthy in E. destruct (Qeq_bool T 0) eqn:F; [ discriminate | ].
      destruct (Qlt_le_dec 0 T) as [H | H]; [ assumption | ].
      assert (T == 0) by lra. apply Qeq_bool_iff in H0. congruence. }
    apply Qle_shift_div_l; lra.
  - destruct (truthy T); reflexivity.
Qed.

Lemma num_eq_sym : forall a b, num_eq a b -> num_eq b a.
Proof. intros [x |] [y |]; simpl; auto. intro H. now symmetry. Qed.

Lemma num_eq_trans : forall a b c, num_eq a b -> num_eq b c -> num_eq a c.
Proof.
  intros [x |] [y |] [z |]; simpl; auto; try contradiction.
  intros H1 H2. now rewrite H1.
Qed.

Lemma add_num_eq : forall a a' b b',
    num_eq a a' -> num_eq b b' -> num_eq (add a b) (add a' b').
Proof.
  intros [x |] [x' |] [y |] [y' |]; simpl; auto; try contradiction.
  intros H1 H2. now rewrite H1, H2.
Qed.

Lemma add_swap : forall a b c, num_eq (add a (add b c)) (add b (add a c)).
Proof. intros [x |] [y |] [z |]; simpl; auto. ring. Qed.

(** The sum of the lengths of the cells of a row does not depend on the
    order of the cells. *)
Lemma cells_length_perm : forall xs cells cells',
    Permutation cells cells' ->
    num_eq (cells_length xs cells) (cells_length xs cells').
Proof.
  intros xs cells cells' H. unfold cells_length.
  induction H as [| c l l' _ IH | c c' l | l l' l'' _ IH1 _ IH2 ];
    cbn [fold_right].
  - apply num_eq_refl.
  - destruct (fst c); [ | exact IH ].
    apply add_num_eq; [ apply num_eq_refl | exact IH ].
  - destruct (fst c), (fst c'); try apply num_eq_refl. apply add_swap.
  - eapply num_eq_trans; eassumption.
Qed.

Lemma series_of_length : forall o X Y Z,
    keeps_data (offset o) ->
    List.length (series_of cat_eqb o X Y Z) = List.length (the_zDomain o Z).
Proof.
  intros o X Y Z Hkeep.
  pose proof (series_of_shape _ _ cat_eqb o X Y Z Hkeep) as H.
  apply (f_equal (@List.length _)) in H. now rewrite !length_map in H.
Qed.

(** The series in the order in which they are placed are the series. *)
Lemma placed_series_perm : forall o X Y Z,
    keeps_data (offset o) ->
    Permutation (the_order cat_eqb o X Y Z)
      (seq 0 (List.length (the_zDomain o Z))) ->
    Permutation
      (List.map (fun k => nth k (series_of cat_eqb o X Y Z) [])
         (the_order cat_eqb o X Y Z))
      (series_of cat_eqb o X Y Z).
Proof.
  intros o X Y Z Hkeep Hperm. apply permuted_list.
  now rewrite (series_of_length o X Y Z Hkeep).
Qed.

Lemma expand_keeps_data : forall o,
    offset o = stackOffsetExpand -> keeps_data (offset o).
Proof. intros o ->. intros sz oz. apply stackOffsetExpand_data. Qed.

(** With quantities that are not negative, under the default offset and an
    order that permutes the series, a point starts between 0 and the total
    of the values stacked in its row, and a point that refers back to a
    record [k] ends its share further: the quantity of [k] divided by the
    total of the row, when that total is not zero. *)
Lemma placed_point : forall o X Y Z s j d row,
    offset o = stackOffsetExpand ->
    Permutation (the_order cat_eqb o X Y Z)
      (seq 0 (List.length (the_zDomain o Z))) ->
    (forall i0 q,
        In i0 (the_I cat_eqb o X Y Z) -> nth_error X i0 = Some q -> 0 <= q) ->
    In s (series_of cat_eqb o X Y Z) ->
    nth_error s j = Some d ->
    nth_error (the_rollup cat_eqb o X Y Z) j = Some row ->
    exists a,
      x1 d = Fin a
      /\ 0 <= a <= total (row_values X (the_zDomain o Z) row)
      /\ (i d = None -> x2 d = NaN)
      /\ forall k,
          i d = Some k ->
          exists q b,
            nth_error X k = Some q
            /\ In k (the_I cat_eqb o X Y Z)
            /\ x2 d = Fin b
            /\ a <= b <= total (row_values X (the_zDomain o Z) row)
            /\ b == a + (if truthy (row_total X (the_zDomain o Z) row)
                         then q / row_total X (the_zDomain o Z) row
                         else q).
Proof.
  intros o X Y Z s j d row Hoff Hperm Hpos Hs Hd Hj.
  pose proof (expand_keeps_data o Hoff) as Hkeep.
  assert (Hrow : In row (the_rollup cat_eqb o X Y Z))
    by (eapply nth_error_In; eassumption).
  pose proof (row_total_nonneg _ _ cat_eqb cat_eqb_eq o X Y Z row Hpos Hrow)
    as HT.
  set (placed := placed_keys (the_zDomain o Z) (the_order cat_eqb o X Y Z)).
  pose proof (row_values_at_backed o X Y Z row placed Hpos Hrow HT)
    as Hbacked.
  pose proof (row_values_at_total X (the_zDomain o Z) placed row
                (placed_keys_perm _ _ Hperm)) as Htot.
  pose proof (placed_cells o X Y Z j row Hoff Hperm Hj) as Hcol.
  assert (Hs' : In s (List.map (fun k => nth k (series_of cat_eqb o X Y Z) [])
                        (the_order cat_eqb o X Y Z))).
  { apply (Permutation_in _ (Permutation_sym
                               (placed_series_perm o X Y Z Hkeep Hperm))).
    exact Hs. }
  pose proof (column_point _ _ j _ s d Hcol Hs' Hd) as Hcell.
  destruct (In_nth_error _ _ Hcell) as [p Hp].
  unfold row_cells_at, cell_of in Hp. apply nth_error_combine in Hp.
  destruct Hp as [Href Hab]. fold placed in Href, Hab.
  destruct (row_bounds_nth _ _ _ Hab) as [v [a [Hv [Ha1 [Ha Hb]]]]].
  cbn [bounds fst snd] in Ha1, Hb.
  assert (Hst : Forall stackable
                  (row_values_at X (the_zDomain o Z) placed row))
    by (eapply backed_stackable; eassumption).
  assert (Ha01 : 0 <= a
                 <= total (row_values_at X (the_zDomain o Z) placed row)).
  { apply (row_bounds_in _ (bounds d) a Hst (nth_error_In _ _ Hab)).
    now left. }
  exists a. split; [ assumption | ]. split; [ lra | ].
  rewrite nth_error_map in Href.
  destruct (nth_error placed p) as [key |] eqn:Hkey;
    cbn [option_map] in Href; [ | discriminate ].
  injection Href as Href.
  unfold row_values_at in Hv. rewrite nth_error_map, Hkey in Hv.
  cbn [option_map] in Hv. injection Hv as Hv. rewrite Href in Hv.
  split.
  - intro Hnone. rewrite Hnone in Hv. cbn [at_ to_num] in Hv. subst v.
    destruct (truthy (row_total X (the_zDomain o Z) row)) in Hb;
      cbn [add div num_eq] in Hb;
      destruct (x2 d); [ contradiction | reflexivity
                       | contradiction | reflexivity ].
  - intros k Hk.
    assert (Hin : In k (the_I cat_eqb o X Y Z)).
    { apply (row_get_kept _ _ cat_eqb cat_eqb_eq o X Y Z row key k Hrow).
      congruence. }
    assert (Hlt : (k < List.length X)%nat)
      by (apply (the_I_spec _ _ cat_eqb cat_eqb_eq) in Hin; tauto).
    destruct (nth_error X k) as [q |] eqn:Hq;
      [ | apply nth_error_None in Hq; lia ].
    rewrite Hk in Hv. cbn [at_] in Hv.
    rewrite Hq in Hv. cbn [to_num] in Hv.
    destruct (x2 d) as [b |] eqn:Hx2;
      [ | subst v;
          destruct (truthy (row_total X (the_zDomain o Z) row));
          contradiction ].
    exists q, b. split; [ reflexivity | ]. split; [ assumption | ].
    split; [ reflexivity | ].
    assert (Hb01 : 0 <= b
                   <= total (row_values_at X (the_zDomain o Z) placed row)).
    { apply (row_bounds_in _ (bounds d) b Hst (nth_error_In _ _ Hab)).
      right. exact Hx2. }
    assert (Hshare : b == a + (if truthy (row_total X (the_zDomain o Z) row)
                               then q / row_total X (the_zDomain o Z) row
                               else q)).
    { subst v. destruct (truthy (row_total X (the_zDomain o Z) row)).
      - assert (Hb' : b == q / row_total X (the_zDomain o Z) row + a)
          by exact Hb.
        rewrite Hb'. ring.
      - assert (Hb' : b == q + a) by exact Hb.
        rewrite Hb'. ring. }
    split; [ | exact Hshare ].
    split; [ | lra ].
    rewrite Hshare.
    pose proof (Hpos k q Hin Hq) as Hq0.
    destruct (truthy (row_total X (the_zDomain o Z) row)) eqn:E; [ | lra ].
    assert (HT' : 0 < row_total X (the_zDomain o Z) row).
    { unfold truthy in E.
      destruct (Qeq_bool (row_total X (the_zDomain o Z) row) 0) eqn:F;
        [ discriminate | ].
      destruct (Qlt_le_dec 0 (row_total X (the_zDomain o Z) row))
        as [H | H]; [ assumption | ].
      assert (H0 : row_total X (the_zDomain o Z) row == 0) by lra.
      apply Qeq_bool_iff in H0. congruence. }
    assert (0 <= q / row_total X (the_zDomain o Z) row)
      by (apply Qle_shift_div_l; lra).
    lra.
Qed.

(** With quantities that are not negative, under the default offset and an
    order that permutes the series, the boundaries of all the points fill
    the interval from 0 to 1 as soon as one row has a positive total. *)
Lemma placed_extent : forall o X Y Z j row,
    offset o = stackOffsetExpand ->
    Permutation (the_order cat_eqb o X Y Z)
      (seq 0 (List.length (the_zDomain o Z))) ->
    (forall i0 q,
        In i0 (the_I cat_eqb o X Y Z) -> nth_error X i0 = Some q -> 0 <= q) ->
    nth_error (the_rollup cat_eqb o X Y Z) j = Some row ->
    0 < row_total X (the_zDomain o Z) row ->
    exists lo hi,
      extent (flat2 (series_of cat_eqb o X Y Z)) = Some (lo, hi)
      /\ lo == 0 /\ hi == 1.
Proof.
  intros o X Y Z j row Hoff Hperm Hpos Hj HT.
  pose proof (expand_keeps_data o Hoff) as Hkeep.
  assert (Hrow : In row (the_rollup cat_eqb o X Y Z))
    by (eapply nth_error_In; eassumption).
  set (placed := placed_keys (the_zDomain o Z) (the_order cat_eqb o X Y Z)).
  pose proof (placed_keys_perm _ _ Hperm) as Hpk. fold placed in Hpk.
  pose proof (row_values_at_total X (the_zDomain o Z) placed row Hpk)
    as Htot.
  rewrite (total_row_values_one _ X _ row HT) in Htot.
  pose proof (placed_cells o X Y Z j row Hoff Hperm Hj) as Hcol.
  fold placed in Hcol.
  assert (Hne : row_values_at X (the_zDomain o Z) placed row <> []).
  { intro Hnil. rewrite Hnil in Htot. simpl in Htot. lra. }
  assert (Hlen : List.length (List.map (row_get row) placed)
                 = List.length
                     (row_bounds
                        (row_values_at X (the_zDomain o Z) placed row))).
  { rewrite length_row_bounds. unfold row_values_at.
    now rewrite !length_map. }
  destruct (row_bounds_ends _ Hne)
    as [[ab0 [Hab0 H0]] [ab1 [u1 [Hab1 [Hu1 Hu1']]]]].
  destruct (in_combine_snd _ _ _ _ ab0 Hlen Hab0) as [i0 Hc0].
  destruct (in_combine_snd _ _ _ _ ab1 Hlen Hab1) as [i1 Hc1].
  destruct (column_cell _ _ j _ _ Hcol Hc0) as [s0 [d0 [Hs0 [Hd0 He0]]]].
  destruct (column_cell _ _ j _ _ Hcol Hc1) as [s1 [d1 [Hs1 [Hd1 He1]]]].
  apply (Permutation_in _ (placed_series_perm o X Y Z Hkeep Hperm)) in Hs0.
  apply (Permutation_in _ (placed_series_perm o X Y Z Hkeep Hperm)) in Hs1.
  injection He0 as _ He0. injection He1 as _ He1.
  apply (extent_interval _ 0 1 0 u1).
  - intros w Hw. apply flat2_In in Hw.
    destruct Hw as [s [d [Hs [Hd Hw]]]].
    destruct (In_nth_error _ _ Hd) as [j' Hj'].
    assert (Hlt : (j' < List.length (the_rollup cat_eqb o X Y Z))%nat).
    { rewrite <- (series_length _ _ cat_eqb o X Y Z s Hkeep Hs).
      apply nth_error_Some. congruence. }
    destruct (nth_error (the_rollup cat_eqb o X Y Z) j') as [row' |] eqn:Hrow';
      [ | apply nth_error_None in Hrow'; lia ].
    assert (Hin' : In row' (the_rollup cat_eqb o X Y Z))
      by (eapply nth_error_In; eassumption).
    pose proof (total_row_values_le X (the_zDomain o Z) row'
                  (row_total_nonneg _ _ cat_eqb cat_eqb_eq o X Y Z row'
                     Hpos Hin')) as Hle.
    destruct (placed_point o X Y Z s j' d row' Hoff Hperm Hpos Hs Hj' Hrow')
      as [a [Ha [Ha01 [Hnan Hb]]]].
    destruct Hw as [Hw | Hw].
    + rewrite Ha in Hw. injection Hw as <-. lra.
    + destruct (i d) as [k |] eqn:Hi.
      * destruct (Hb k eq_refl) as [q [b [_ [_ [Hx2 [Hb01 _]]]]]].
        rewrite Hx2 in Hw. injection Hw as <-. lra.
      * rewrite (Hnan eq_refl) in Hw. discriminate.
  - apply flat2_In. exists s0, d0. repeat split; try assumption.
    left. rewrite <- He0 in H0. exact H0.
  - reflexivity.
  - apply flat2_In. exists s1, d1. repeat split; try assumption.
    rewrite <- He1 in Hu1. unfold bounds in Hu1. simpl in Hu1. exact Hu1.
  - lra.
Qed.

(** The lengths of the segments of a row under the default offset and an
    order that permutes the series: with quantities that are not negative,
    a row whose retained quantities have a positive total is covered from
    one end of the pixel range to the other by its segments that stand for
    a record. *)
Lemma placed_partition : forall (ds : list D) o svg X Y Z j row,
    D3.map ds (x o) = Ok X ->
    D3.map ds (y o) = Ok Y ->
    D3.map ds (z o) = Ok Z ->
    offset o = stackOffsetExpand ->
    Permutation (the_order cat_eqb o X Y Z)
      (seq 0 (List.length (the_zDomain o Z))) ->
    xType o = scaleLinear ->
    xDomain o = None ->
    StackedBarChartSVG cat_eqb ds o = Ok svg ->
    (forall i0 q,
        In i0 (the_I cat_eqb o X Y Z) -> nth_error X i0 = Some q -> 0 <= q) ->
    nth_error (the_rollup cat_eqb o X Y Z) j = Some row ->
    0 < row_total X (the_zDomain o Z) row ->
    num_eq (row_length (svg_layers svg) j)
      (Fin (Qabs (snd (the_xRange o) - fst (the_xRange o)))).
Proof.
  intros ds o svg X Y Z j row HX HY HZ Hoff Hperm HxT HxD Hsvg Hpos Hj HT.
  unfold StackedBarChartSVG in Hsvg. rewrite HX, HY, HZ in Hsvg.
  simpl in Hsvg.
  pose proof (expand_keeps_data o Hoff) as Hkeep.
  destruct (render_inv _ _ cat_eqb o X Y Z svg Hsvg) as [c [Hls _]].
  apply layers_of_inv in Hls.
  set (placed := placed_keys (the_zDomain o Z) (the_order cat_eqb o X Y Z)).
  pose proof (placed_cells o X Y Z j row Hoff Hperm Hj) as Hcol.
  fold placed in Hcol.
  pose proof (Permutation_map
                (fun s => option_map cell_of (nth_error s j))
                (Permutation_sym (placed_series_perm o X Y Z Hkeep Hperm)))
    as Hp.
  rewrite Hcol in Hp. apply Permutation_map_inv in Hp.
  destruct Hp as [cells [Hcells Hpc]].
  rewrite (row_length_cells _ _ cat_eqb o X Y Z _ _ j _ Hls Hcells).
  destruct (placed_extent o X Y Z j row Hoff Hperm Hpos Hj HT)
    as [lo [hi [Hext [Hlo Hhi]]]].
  assert (Hrow : In row (the_rollup cat_eqb o X Y Z))
    by (eapply nth_error_In; eassumption).
  pose proof (row_values_at_backed o X Y Z row placed Hpos Hrow
                (Qlt_le_weak _ _ HT)) as Hbacked.
  eapply num_eq_trans;
    [ apply cells_length_perm, Permutation_sym, Hpc | ].
  unfold xScale, the_xDomain. rewrite HxT, HxD, Hext.
  destruct (the_xRange o) as [r0 r1]. cbn [fst snd].
  destruct (cells_row_length (scaleLinear (Fin lo, Fin hi) (r0, r1)) r0
              (r1 - r0)
              (fun v => scaleLinear_unit lo hi r0 r1 v Hlo Hhi) _ _ Hbacked)
    as [w [Hw Hw']].
  unfold row_cells_at. rewrite Hw. cbn [num_eq].
  rewrite Hw', (row_values_at_total X _ placed row
                  (placed_keys_perm _ _ Hperm)),
    (total_row_values_one _ X _ row HT).
  ring.
Qed.

(** The width of the rectangle of a point that refers back to a record, in
    a row of positive total: the share of the quantity of that record in
    the total of the row, times the width of the pixel range. *)
Lemma placed_width : forall o X Y Z s j d row k,
    offset o = stackOffsetExpand ->
    Permutation (the_order cat_eqb o X Y Z)
      (seq 0 (List.length (the_zDomain o Z))) ->
    xType o = scaleLinear ->
    xDomain o = None ->
    (forall i0 q,
        In i0 (the_I cat_eqb o X Y Z) -> nth_error X i0 = Some q -> 0 <= q) ->
    In s (series_of cat_eqb o X Y Z) ->
    nth_error s j = Some d ->
    nth_error (the_rollup cat_eqb o X Y Z) j = Some row ->
    0 < row_total X (the_zDomain o Z) row ->
    i d = Some k ->
    exists q w,
      nth_error X k = Some q
      /\ rect_width (rect_of cat_eqb o X Y Z d) = Fin w
      /\ w == Qabs (snd (the_xRange o) - fst (the_xRange o))
              * (q / row_total X (the_zDomain o Z) row).
Proof.
  intros o X Y Z s j d row k Hoff Hperm HxT HxD Hpos Hs Hd Hj HT Hk.
  destruct (placed_extent o X Y Z j row Hoff Hperm Hpos Hj HT)
    as [lo [hi [Hext [Hlo Hhi]]]].
  destruct (placed_point o X Y Z s j d row Hoff Hperm Hpos Hs Hd Hj)
    as [a [Ha [Ha01 [_ Hb]]]].
  destruct (Hb k Hk) as [q [b [Hq [_ [Hx2 [Hab Hshare]]]]]].
  exists q.
  cbn [rect_width rect_of]. unfold xScale, the_xDomain.
  rewrite HxT, HxD, Hext, Ha, Hx2.
  destruct (the_xRange o) as [r0 r1]. cbn [fst snd].
  destruct (cell_width (scaleLinear (Fin lo, Fin hi) (r0, r1)) r0 (r1 - r0)
              (fun v => scaleLinear_unit lo hi r0 r1 v Hlo Hhi) a b)
    as [w [Hw Hw']]; [ lra | ].
  exists w. split; [ assumption | ]. split; [ exact Hw | ].
  rewrite Hw', Hshare.
  replace (truthy (row_total X (the_zDomain o Z) row)) with true;
    [ ring | ].
  symmetry. unfold truthy.
  destruct (Qeq_bool (row_total X (the_zDomain o Z) row) 0) eqn:E;
    [ | reflexivity ].
  apply Qeq_bool_iff in E. lra.
Qed.

(** *** The segment of a (category, series) pair *)

(** The total of a row of the rollup sums the quantity of the first kept
    record of each pair of its category. *)
Lemma row_total_first : forall o X Y Z row c,
    In row (the_rollup cat_eqb o X Y Z) ->
    fst row = Some c ->
    row_total X (the_zDomain o Z) row
    = first_total cat_eqb X Y Z (the_I cat_eqb o X Y Z) (the_zDomain o Z) c.
Proof.
  intros o X Y Z row c Hrow Hc. unfold row_total, first_total, first_of.
  apply fold_left_ext_eq. intros u key.
  now rewrite (the_rollup_row_get _ _ cat_eqb cat_eqb_eq o X Y Z row c key
                 Hrow Hc).
Qed.

(** The point of series [p] in row [j], under an offset that keeps the data
    of the points: its datum is the row and its back-reference is what the
    row retains for the key. *)
Lemma series_point : forall o X Y Z p s j d,
    keeps_data (offset o) ->
    nth_error (series_of cat_eqb o X Y Z) p = Some s ->
    nth_error s j = Some d ->
    exists key,
      nth_error (the_zDomain o Z) p = Some key
      /\ nth_error (the_rollup cat_eqb o X Y Z) j = Some (data d)
      /\ i d = row_get (data d) key.
Proof.
  intros o X Y Z p s j d Hkeep Hs Hd.
  pose proof (series_of_shape _ _ cat_eqb o X Y Z Hkeep) as Hshape.
  apply (f_equal (fun l => nth_error l p)) in Hshape. cbv beta in Hshape.
  unfold Series in Hs. rewrite !nth_error_map, Hs in Hshape.
  destruct (nth_error (the_zDomain o Z) p) as [key |];
    cbn [option_map] in Hshape; [ | discriminate ].
  injection Hshape as Hshape.
  apply (f_equal (fun l => nth_error l j)) in Hshape. cbv beta in Hshape.
  rewrite !nth_error_map, Hd in Hshape.
  destruct (nth_error (the_rollup cat_eqb o X Y Z) j) as [row |];
    cbn [option_map] in Hshape; [ | discriminate ].
  injection Hshape as Hdata Hi. exists key. rewrite Hdata, Hi.
  now repeat split.
Qed.

(** What [d3.stack] builds for a key and a row before the offset: the point
    from zero to the quantity of the record the row retains for the key. *)
Lemma raw_point_at : forall o X Y Z p key j row,
    nth_error (the_zDomain o Z) p = Some key ->
    nth_error (the_rollup cat_eqb o X Y Z) j = Some row ->
    exists s0,
      nth_error (the_points cat_eqb o X Y Z) p = Some s0
      /\ nth_error s0 j
         = Some (mkSeg (Fin 0) (to_num (at_ X (row_get row key))) row None).
Proof.
  intros o X Y Z p key j row Hp Hj. unfold the_points, stack_points.
  rewrite nth_error_map, Hp. eexists. split; [ reflexivity | ].
  now rewrite nth_error_map, Hj.
Qed.

Lemma rects_of_pair_In : forall keys (ls : list (Layer Cat)) c k r,
    In r (rects_of_pair cat_eqb keys ls c k) ->
    exists p l,
      nth_error keys p = Some k /\ nth_error ls p = Some l
      /\ In r (layer_rects l).
Proof.
  intros keys ls c k r Hin. unfold rects_of_pair in Hin.
  apply in_flat_map in Hin. destruct Hin as [[key l] [Hkl Hr]].
  cbn [fst snd] in Hr.
  destruct (Z.eqb key k) eqn:E; [ | destruct Hr ].
  apply Z.eqb_eq in E. subst key. apply filter_In in Hr.
  destruct (In_nth_error _ _ Hkl) as [p Hp].
  apply nth_error_combine in Hp. exists p, l. tauto.
Qed.

(** The one rectangle of a pair that has a kept record: the record it refers
    back to, the point [d3.stack] builds for it and the point it is drawn
    from. *)
Lemma pair_segment : forall o X Y Z svg c k j,
    keeps_data (offset o) ->
    render cat_eqb o X Y Z = Ok svg ->
    In j (the_I cat_eqb o X Y Z) ->
    collides cat_eqb Y Z c k j = true ->
    exists r i0 q p jr s0 s,
      rects_of_pair cat_eqb (the_zDomain o Z) (svg_layers svg) c k = [r]
      /\ i (rect_datum r) = Some i0
      /\ first_of cat_eqb Y Z (the_I cat_eqb o X Y Z) c k = Some i0
      /\ nth_error X i0 = Some q
      /\ In (data (rect_datum r)) (the_rollup cat_eqb o X Y Z)
      /\ fst (data (rect_datum r)) = Some c
      /\ nth_error (the_zDomain o Z) p = Some k
      /\ nth_error (the_rollup cat_eqb o X Y Z) jr = Some (data (rect_datum r))
      /\ nth_error (the_points cat_eqb o X Y Z) p = Some s0
      /\ nth_error s0 jr
         = Some (mkSeg (Fin 0) (Fin q) (data (rect_datum r)) None)
      /\ nth_error (series_of cat_eqb o X Y Z) p = Some s
      /\ nth_error s jr = Some (rect_datum r)
      /\ r = rect_of cat_eqb o X Y Z (rect_datum r).
Proof.
  intros o X Y Z svg c k j Hkeep Hsvg Hj Hcol.
  destruct (pair_rect _ _ cat_eqb cat_eqb_eq o X Y Z svg c k j Hkeep Hsvg
              Hj Hcol) as [r [Hr [Hrow [Hc [Hi Hget]]]]].
  destruct (find_exists _ _ _ j Hj Hcol) as [i0 Hfind].
  destruct (find_some _ _ Hfind) as [Hin Hcol0].
  assert (Hlt : (i0 < List.length X)%nat)
    by (apply (the_I_spec _ _ cat_eqb cat_eqb_eq) in Hin; tauto).
  destruct (nth_error X i0) as [q |] eqn:Hq;
    [ | apply nth_error_None in Hq; lia ].
  assert (Hr' : In r (rects_of_pair cat_eqb (the_zDomain o Z)
                        (svg_layers svg) c k))
    by (rewrite Hr; now left).
  destruct (rects_of_pair_In _ _ _ _ _ Hr') as [p [l [Hp [Hl Hrl]]]].
  destruct (In_nth_error _ _ Hrl) as [jr Hjr].
  destruct (rect_point o X Y Z svg p l jr r Hsvg Hl Hjr)
    as [s [d [Hs [Hd Hrd]]]].
  assert (Hdatum : rect_datum r = d) by (rewrite Hrd; reflexivity).
  destruct (series_point o X Y Z p s jr d Hkeep Hs Hd)
    as [key [Hkey [Hrowj _]]].
  assert (key = k) by congruence. subst key.
  destruct (raw_point_at o X Y Z p k jr (data d) Hp Hrowj) as [s0 [Hs0 Hd0]].
  exists r, i0, q, p, jr, s0, s. rewrite Hdatum in *.
  rewrite Hget, Hi, Hfind in Hd0. cbn [at_] in Hd0. rewrite Hq in Hd0.
  rewrite Hi. unfold first_of. now repeat split.
Qed.

(** The width of the rectangle of a pair under the default layout. *)
Lemma pair_width : forall o X Y Z p s jr r i0 q c,
    offset o = stackOffsetExpand ->
    Permutation (the_order cat_eqb o X Y Z)
      (seq 0 (List.length (the_zDomain o Z))) ->
    xType o = scaleLinear ->
    xDomain o = None ->
    (forall i1 q1,
        In i1 (the_I cat_eqb o X Y Z) -> nth_error X i1 = Some q1 ->
        0 <= q1) ->
    0 < first_total cat_eqb X Y Z (the_I cat_eqb o X Y Z) (the_zDomain o Z) c ->
    In (data (rect_datum r)) (the_rollup cat_eqb o X Y Z) ->
    fst (data (rect_datum r)) = Some c ->
    nth_error (the_rollup cat_eqb o X Y Z) jr = Some (data (rect_datum r)) ->
    nth_error (series_of cat_eqb o X Y Z) p = Some s ->
    nth_error s jr = Some (rect_datum r) ->
    r = rect_of cat_eqb o X Y Z (rect_datum r) ->
    i (rect_datum r) = Some i0 ->
    nth_error X i0 = Some q ->
    exists w,
      rect_width r = Fin w
      /\ w == Qabs (snd (the_xRange o) - fst (the_xRange o))
              * (q / first_total cat_eqb X Y Z (the_I cat_eqb o X Y Z)
                       (the_zDomain o Z) c).
Proof.
  intros o X Y Z p s jr r i0 q c Hoff Hperm HxT HxD Hpos HT Hrow Hc Hjr Hs Hd
         Hr Hi Hq.
  rewrite <- (row_total_first o X Y Z _ c Hrow Hc) in HT |- *.
  destruct (placed_width o X Y Z s jr (rect_datum r) _ i0 Hoff Hperm HxT HxD
              Hpos (nth_error_In _ _ Hs) Hd Hjr HT Hi)
    as [q' [w [Hq' [Hw Hw']]]].
  assert (q' = q) by congruence. subst q'.
  exists w. split; [ | exact Hw' ]. rewrite Hr. exact Hw.
Qed.

Lemma NoDup_map_eq : forall (A B : Type) (f : A -> B) l a b,
    NoDup (List.map f l) -> In a l -> In b l -> f a = f b -> a = b.
Proof.
  intros A B f l a b. induction l as [| x0 l IH]; intros Hnd Ha Hb Hf;
    [ destruct Ha | ].
  simpl in Hnd. inversion Hnd as [| ? ? Hnotin Hnd']; subst.
  destruct Ha as [-> | Ha], Hb as [-> | Hb].
  - reflexivity.
  - exfalso. apply Hnotin. rewrite Hf. now apply in_map.
  - exfalso. apply Hnotin. rewrite <- Hf. now apply in_map.
  - now apply IH.
Qed.

(** What the rollup retains for a pair that has a kept record, in every
    configuration: the first kept record of the pair, and the point
    [d3.stack] builds from it. *)
Lemma pair_retained : forall o X Y Z c k j,
    In j (the_I cat_eqb o X Y Z) ->
    collides cat_eqb Y Z c k j = true ->
    exists i0 q p jr row s0,
      first_of cat_eqb Y Z (the_I cat_eqb o X Y Z) c k = Some i0
      /\ nth_error X i0 = Some q
      /\ nth_error (the_zDomain o Z) p = Some k
      /\ nth_error (the_rollup cat_eqb o X Y Z) jr = Some row
      /\ fst row = Some c
      /\ row_get row k = Some i0
      /\ nth_error (the_points cat_eqb o X Y Z) p = Some s0
      /\ nth_error s0 jr = Some (mkSeg (Fin 0) (Fin q) row None).
Proof.
  intros o X Y Z c k j Hj Hcol.
  destruct (find_exists _ _ _ j Hj Hcol) as [i0 Hfind].
  destruct (find_some _ _ Hfind) as [Hin _].
  assert (Hlt : (i0 < List.length X)%nat)
    by (apply (the_I_spec _ _ cat_eqb cat_eqb_eq) in Hin; tauto).
  destruct (nth_error X i0) as [q |] eqn:Hq;
    [ | apply nth_error_None in Hq; lia ].
  pose proof Hcol as Hcol'.
  apply (collides_spec _ _ cat_eqb_eq) in Hcol'.
  destruct Hcol' as [Hc Hk].
  destruct (the_rollup_has_row _ _ cat_eqb cat_eqb_eq o X Y Z j c Hj Hc)
    as [row [Hrow Hfst]].
  pose proof (the_rollup_row_get _ _ cat_eqb cat_eqb_eq o X Y Z row c k Hrow
                Hfst) as Hget.
  assert (Hkin : In k (the_zDomain o Z)).
  { apply (the_I_spec _ _ cat_eqb cat_eqb_eq) in Hj.
    destruct Hj as [_ [_ [v [Hv Hvin]]]]. congruence. }
  destruct (In_nth_error _ _ Hkin) as [p Hp].
  destruct (In_nth_error _ _ Hrow) as [jr Hjr].
  destruct (raw_point_at o X Y Z p k jr row Hp Hjr) as [s0 [Hs0 Hd0]].
  rewrite Hget, Hfind in Hd0. cbn [at_] in Hd0. rewrite Hq in Hd0.
  exists i0, q, p, jr, row, s0. unfold first_of.
  rewrite Hget. now repeat split.
Qed.

(** The rectangle drawn for the pair: the one of the retained record, in
    the row of the category, of the width of its share under the default
    layout. *)
Lemma pair_drawn : forall o X Y Z svg c k j i0 q row,
    keeps_data (offset o) ->
    render cat_eqb o X Y Z = Ok svg ->
    In j (the_I cat_eqb o X Y Z) ->
    collides cat_eqb Y Z c k j = true ->
    first_of cat_eqb Y Z (the_I cat_eqb o X Y Z) c k = Some i0 ->
    nth_error X i0 = Some q ->
    In row (the_rollup cat_eqb o X Y Z) ->
    fst row = Some c ->
    exists r,
      rects_of_pair cat_eqb (the_zDomain o Z) (svg_layers svg) c k = [r]
      /\ data (rect_datum r) = row
      /\ i (rect_datum r) = Some i0
      /\ (offset o = stackOffsetExpand ->
          Permutation (the_order cat_eqb o X Y Z)
            (seq 0 (List.length (the_zDomain o Z))) ->
          xType o = scaleLinear ->
          xDomain o = None ->
          (forall i1 q1,
              In i1 (the_I cat_eqb o X Y Z) ->
              nth_error X i1 = Some q1 -> 0 <= q1) ->
          0 < first_total cat_eqb X Y Z (the_I cat_eqb o X Y Z)
                (the_zDomain o Z) c ->
          summable (first_total cat_eqb X Y Z (the_I cat_eqb o X Y Z)
                      (the_zDomain o Z) c) ->
          finite (snd (the_xRange o) - fst (the_xRange o)) ->
          exists w,
            rect_width r = Fin w
            /\ w == Qabs (snd (the_xRange o) - fst (the_xRange o))
                    * (q / first_total cat_eqb X Y Z
                             (the_I cat_eqb o X Y Z)
                             (the_zDomain o Z) c)).
Proof.
  intros o X Y Z svg c k j i0 q row Hkeep Hsvg Hj Hcol Hfirst0 Hq0 Hrow0 Hc0.
  destruct (pair_segment o X Y Z svg c k j Hkeep Hsvg Hj Hcol)
    as [r [i1 [q1 [p [jr [s0 [s [Hr [Hi [Hfirst [Hq [Hrow [Hc [Hp [Hjr
       [Hs0 [Hd0 [Hs [Hd Hrd]]]]]]]]]]]]]]]]]]].
  assert (i1 = i0) by congruence. subst i1.
  assert (q1 = q) by congruence. subst q1.
  exists r. split; [ assumption | ].
  split.
  - apply (NoDup_map_eq _ _ fst (the_rollup cat_eqb o X Y Z));
      [ apply (the_rollup_NoDup _ _ cat_eqb cat_eqb_eq) | assumption
      | assumption
      | congruence ].
  - split; [ assumption | ].
    intros Hoff Hperm HxT HxD Hpos HT _ _.
    exact (pair_width o X Y Z p s jr r i0 q c Hoff Hperm HxT HxD Hpos HT Hrow
             Hc Hjr Hs Hd Hrd Hi Hq).
Qed.




End More.

End ChartMore.

(** * The further properties on the scenarios *)

Module MoreScenarios.

Import Js D3 Chart ChartFacts Scenarios AuthConfig.

(** A message flagged as personal data leaves no entry; a warning goes to
    [console.warn]. *)
Lemma log_all_entries_witness :
  log_all [(Error, "e", true); (Warning, "w", false)] []
  = [(console_warn, "w")]
  /\ exists level,
      In (level, "w", false) [(Error, "e", true); (Warning, "w", false)]
      /\ sink_of level = Some console_warn.
Proof.
  split.
  - exact (proj1 (LoggerSequences.log_all_entries
                    [(Error, "e", true); (Warning, "w", false)] [])).
  - apply (proj2 (LoggerSequences.log_all_entries
                    [(Error, "e", true); (Warning, "w", false)] [])).
    vm_compute. left. reflexivity.
Defined.


(** Scenario 2: one layer, with a rectangle and an image for "A" and for
    "B", in this order. *)
Lemma artifact_shape_witness :
  exists svg,
    StackedBarChartSVG String.eqb scenario2 options = Ok svg
    /\ List.length (svg_layers svg) = 1%nat
    /\ forall l,
        In l (svg_layers svg) ->
        List.map (fun r => fst (data (rect_datum r))) (layer_rects l)
        = [Some A; Some B]
        /\ List.map (fun im => fst (data (image_datum im))) (layer_images l)
           = [Some A; Some B].
Proof.
  assert (E : exists svg,
             StackedBarChartSVG String.eqb scenario2 options = Ok svg)
    by (vm_compute; eexists; reflexivity).
  destruct E as [svg E]. exists svg. split; [ exact E | ].
  destruct (ChartMore.artifact_shape _ _ String.eqb scenario2 options svg
              [3; 5] [A; B] [1; 1]%Z eq_refl eq_refl eq_refl
              ScenarioFacts.options_keep_data E) as [Hlen Hcats].
  split; [ exact Hlen | ].
  intros l Hl. exact (Hcats l Hl).
Defined.

(** Scenario 3: the three records are kept. *)
Lemma default_domains_keep_all_witness :
  the_I String.eqb options [3; 5; 1] [A; A; A] [1; 1; 2]%Z
  = [0; 1; 2]%nat.
Proof.
  exact (ChartMore.default_domains_keep_all _ _ String.eqb String.eqb_eq
           scenario3 options [3; 5; 1] [A; A; A] [1; 1; 2]%Z
           eq_refl eq_refl eq_refl eq_refl eq_refl).
Defined.

(** A supplied category domain is used in the order given. *)
Lemma supplied_domains_kept_witness :
  the_yDomain String.eqb (with_yDomain options [B; A]) [A; B] = [B; A].
Proof.
  apply (proj1 (ChartMore.supplied_domains_kept _ _ String.eqb String.eqb_eq
                  (with_yDomain options [B; A]) [A; B] [1; 1]%Z)
           [B; A] eq_refl).
  repeat constructor; simpl; intuition discriminate.
Defined.

(** Scenario 1: the first point of the first layer refers back to record 0,
    of series 1 and category "A", and carries the first glyph. *)
Lemma back_reference_witness :
  exists svg l d,
    StackedBarChartSVG String.eqb scenario1 options = Ok svg
    /\ nth_error (svg_layers svg) 0 = Some l
    /\ In d (layer_datum l)
    /\ i d = Some 0%nat
    /\ fst (data d) = Some A
    /\ image_href (image_of String.eqb options [3; 1] [A; A] [1; 2]%Z d)
       = Some "/images/sad-button.png"
    /\ In (rect_of String.eqb options [3; 1] [A; A] [1; 2]%Z d)
         (layer_rects l).
Proof.
  assert (E : exists svg l d,
             StackedBarChartSVG String.eqb scenario1 options = Ok svg
             /\ nth_error (svg_layers svg) 0 = Some l
             /\ In d (layer_datum l)
             /\ i d = Some 0%nat).
  { vm_compute. eexists. eexists. eexists.
    split; [ reflexivity | ]. split; [ reflexivity | ].
    split; [ left; reflexivity | reflexivity ]. }
  destruct E as [svg [l [d [E [Hl [Hd Hi]]]]]].
  exists svg, l, d. repeat (split; [ assumption | ]).
  destruct (ChartMore.back_reference _ _ String.eqb String.eqb_eq scenario1
              options svg [3; 1] [A; A] [1; 2]%Z 0%nat l 1%Z d 0%nat
              eq_refl eq_refl eq_refl ScenarioFacts.options_keep_data
              E Hl eq_refl Hd Hi)
    as [_ [c [yc [Hc [Hdata [_ [_ [_ [Hhref [Hrect _]]]]]]]]]].
  injection Hc as <-.
  split; [ exact Hdata | ]. split; [ exact Hhref | exact Hrect ].
Defined.

(** Scenario 1: the second layer is filled with the second colour. *)
Lemma layer_fills_witness :
  exists svg l,
    StackedBarChartSVG String.eqb scenario1 options = Ok svg
    /\ nth_error (svg_layers svg) 1 = Some l
    /\ layer_fill l = nth_error schemeTableau10 1.
Proof.
  assert (E : exists svg l d rest,
             StackedBarChartSVG String.eqb scenario1 options = Ok svg
             /\ nth_error (svg_layers svg) 1 = Some l
             /\ layer_datum l = d :: rest
             /\ i d = Some 1%nat).
  { vm_compute. eexists. eexists. eexists. eexists.
    split; [ reflexivity | ]. split; [ reflexivity | ].
    split; reflexivity. }
  destruct E as [svg [l [d [rest [E [Hl [Hd Hi]]]]]]].
  exists svg, l. repeat (split; [ assumption | ]).
  exact (ChartMore.layer_fills _ _ String.eqb String.eqb_eq scenario1
           options svg [3; 1] [A; A] [1; 2]%Z 1%nat l 2%Z d rest 1%nat
           eq_refl eq_refl eq_refl ScenarioFacts.options_keep_data
           E Hl eq_refl Hd Hi).
Defined.

(** Scenario 1: the returned colour scale gives series 2 the second colour
    and is left as it was. *)
Lemma returned_colour_scale_witness :
  exists svg,
    StackedBarChartSVG String.eqb scenario1 options = Ok svg
    /\ ordinal_apply (option_eqb Z.eqb) (svg_scales_color svg) (Some 2%Z)
       = (nth_error schemeTableau10 1, svg_scales_color svg).
Proof.
  assert (E : exists svg,
             StackedBarChartSVG String.eqb scenario1 options = Ok svg)
    by (vm_compute; eexists; reflexivity).
  destruct E as [svg E]. exists svg. split; [ exact E | ].
  exact (proj2 (ChartMore.returned_colour_scale _ _ String.eqb String.eqb_eq
                  scenario1 options svg [3; 1] [A; A] [1; 2]%Z 1%nat 2%Z
                  eq_refl eq_refl eq_refl ScenarioFacts.options_keep_data
                  E eq_refl)).
Defined.


(** Scenario 1: in the row of "A" the point of series 2 starts at 3/4, the
    share of series 1, and ends a quarter further. *)
Lemma row_layout_witness :
  exists s d a b,
    nth_error (series_of String.eqb options [3; 1] [A; A] [1; 2]%Z) 1
    = Some s
    /\ nth_error s 0 = Some d
    /\ x1 d = Fin a /\ a == 3 # 4
    /\ x2 d = Fin b /\ b == a + (1 # 4).
Proof.
  assert (E : exists s,
             nth_error
               (series_of String.eqb options [3; 1] [A; A] [1; 2]%Z) 1
             = Some s)
    by (vm_compute; eexists; reflexivity).
  destruct E as [s Hs].
  destruct (ChartMore.row_layout _ _ String.eqb options [3; 1] [A; A]
              [1; 2]%Z 0%nat
              (Some A, [(Some 1%Z, Some 0%nat); (Some 2%Z, Some 1%nat)])
              1%nat 2%Z s eq_refl eq_refl)
    as [d [a [Hd [_ [Ha [Hstart [_ Hend]]]]]]].
  - intros i0 q _ Hq.
    destruct i0 as [| [| i0]]; simpl in Hq;
      [ injection Hq as <-; unfold Qle; simpl; lia
      | injection Hq as <-; unfold Qle; simpl; lia
      | destruct i0; discriminate ].
  - vm_compute. discriminate.
  - reflexivity.
  - reflexivity.
  - exact Hs.
  - destruct (Hend 1%nat 1 eq_refl eq_refl) as [b [Hb Hbv]].
    exists s, d, a, b.
    split; [ exact Hs | ]. split; [ exact Hd | ]. split; [ exact Ha | ].
    split; [ | split; [ exact Hb | ] ].
    + etransitivity; [ exact Hstart | ]. vm_compute. reflexivity.
    + etransitivity; [ exact Hbv | ].
      apply Qplus_comp; [ reflexivity | ]. vm_compute. reflexivity.
Defined.




(** The quantities of scenario 1, and an accessor that throws on its second
    record. *)
Lemma accessors_by_index_witness :
  (exists v, nth_error [3; 1] 1 = Some v /\ v = 1)
  /\ D3.map scenario1
       (fun d k => if Nat.eqb k 1 then Throw (Thrown "no quantity")
                   else Ok (q d))
     = Throw (Thrown "no quantity").
Proof.
  split.
  - destruct (proj1 (proj1 (ChartMore.accessors_by_index Response Q
                              (x options) scenario1) [3; 1]) eq_refl)
      as [_ Hall].
    destruct (Hall 1%nat (mkResponse A 2 1) eq_refl) as [v [Hv Hn]].
    exists v. split; [ exact Hn | ]. simpl in Hv. now injection Hv as <-.
  - apply (proj2 (ChartMore.accessors_by_index Response Q
                    (fun d k => if Nat.eqb k 1
                                then Throw (Thrown "no quantity")
                                else Ok (q d))
                    scenario1)
             [mkResponse A 1 3] (mkResponse A 2 1) [] (Thrown "no quantity")
             eq_refl).
    + intros k a Hk. destruct k as [| k]; simpl in Hk.
      * injection Hk as <-. eexists. reflexivity.
      * destruct k; discriminate.
    + reflexivity.
Defined.


(** *** The claims about the layout of a row *)

(** An order that does not permute the series breaks the partition: with
    the order [[0, 0]] the first series of scenario 1 is stacked on itself,
    and the two segments of row "A" cover 280 of the 420 pixels. *)
Lemma order_must_permute :
  exists svg,
    StackedBarChartSVG String.eqb scenario1
      (with_order options (fun _ => [0; 0]%nat)) = Ok svg
    /\ num_eq (row_length (svg_layers svg) 0) (Fin 280).
Proof.
  assert (E : exists svg,
             StackedBarChartSVG String.eqb scenario1
               (with_order options (fun _ => [0; 0]%nat)) = Ok svg)
    by (vm_compute; eexists; reflexivity).
  destruct E as [svg E]. exists svg. split; [ exact E | ].
  vm_compute in E. injection E as <-. vm_compute. reflexivity.
Qed.

(** A negative quantity breaks it: the boundaries leave the interval from
    0 to 1 and the segments of the row overlap, 560 pixels in all. *)
Lemma negative_quantity_overlaps :
  exists svg,
    StackedBarChartSVG String.eqb negative options = Ok svg
    /\ num_eq (row_length (svg_layers svg) 0) (Fin 560).
Proof.
  assert (E : exists svg,
             StackedBarChartSVG String.eqb negative options = Ok svg)
    by (vm_compute; eexists; reflexivity).
  destruct E as [svg E]. exists svg. split; [ exact E | ].
  vm_compute in E. injection E as <-. vm_compute. reflexivity.
Qed.

(** A supplied x-domain breaks it: over the domain [[0, 2]] the segments of
    scenario 1 cover half of the pixel range. *)
Lemma supplied_xDomain_shrinks :
  exists svg,
    StackedBarChartSVG String.eqb scenario1
      (with_xDomain options (Fin 0, Fin 2)) = Ok svg
    /\ num_eq (row_length (svg_layers svg) 0) (Fin 210).
Proof.
  assert (E : exists svg,
             StackedBarChartSVG String.eqb scenario1
               (with_xDomain options (Fin 0, Fin 2)) = Ok svg)
    by (vm_compute; eexists; reflexivity).
  destruct E as [svg E]. exists svg. split; [ exact E | ].
  vm_compute in E. injection E as <-. vm_compute. reflexivity.
Qed.

(** A scale of the caller's breaks it: under a scale that sends every
    value to the left end of the range, the segments have no width. *)
Lemma constant_scale_no_width :
  exists svg,
    StackedBarChartSVG String.eqb scenario1
      (with_xType options (fun _ r _ => Fin (fst r))) = Ok svg
    /\ num_eq (row_length (svg_layers svg) 0) (Fin 0).
Proof.
  assert (E : exists svg,
             StackedBarChartSVG String.eqb scenario1
               (with_xType options (fun _ r _ => Fin (fst r))) = Ok svg)
    by (vm_compute; eexists; reflexivity).
  destruct E as [svg E]. exists svg. split; [ exact E | ].
  vm_compute in E. injection E as <-. vm_compute. reflexivity.
Qed.



(** *** The claims about colliding records *)




End MoreScenarios.
